(** * ply expression code generator: built-in memory operators

    A shallow embedding of [src/libply/built-in/memory.c]: the type-inference,
    static-validation, rewrite and code-generation hooks of the operators
    [strcmp], [mem], [str], [->], [.], [u*], [[]], [:struct], [=] and
    [delete], together with the properties of these hooks that the
    specification states.

    Conventions.
    - C pointers to [struct sym] are symbol ids into a store ([syms]); two
      nodes holding the same id alias the same symbol.
    - [struct type] objects are immutable, so a type is a value of the
      inductive [type]; the type registry ([type_add]) is a list.
    - A hook returns an [outcome]: a C return code with the new state, an
      [assert] failure, or a NULL dereference.
    - Helpers of the repository that live outside [memory.c] are either
      Section variables or definitions whose comment starts with
      "Modelled from the spec:". *)

From Stdlib Require Import ZArith List String Ascii Bool Lia DecimalString.
From Stdlib Require Import Decimal DecimalNat.
Import ListNotations.
Set Warnings "-register-all".
Local Open Scope string_scope.
Local Open Scope Z_scope.

(** ** Machine integers *)

(** [size_t]: 64-bit unsigned wrap-around. *)
Definition usize (x : Z) : Z := x mod 2 ^ 64.

(** [ssize_t]: 64-bit two's complement wrap-around. *)
Definition ssize (x : Z) : Z := (x + 2 ^ 63) mod 2 ^ 64 - 2 ^ 63.

(** [uint32_t] wrap-around, the width of BPF_ALU operations. *)
Definition u32 (x : Z) : Z := x mod 2 ^ 32.

(** [uint64_t] wrap-around, the width of a BPF register. *)
Definition u64 (x : Z) : Z := x mod 2 ^ 64.

(** A 32-bit register value read as a signed [int]. *)
Definition s32 (x : Z) : Z := if u32 x <? 2 ^ 31 then u32 x else u32 x - 2 ^ 32.

Definition EINVAL : Z := 22.
Definition ENOENT : Z := 2.

(** ** Type system *)

Inductive ttype : Type :=
| T_VOID | T_TYPEDEF | T_SCALAR | T_POINTER | T_ARRAY | T_MAP | T_STRUCT | T_FUNC.

Inductive bpf_map_type : Type :=
| BPF_MAP_TYPE_HASH | BPF_MAP_TYPE_ARRAY | BPF_MAP_TYPE_PERCPU_HASH.

(** [struct type]: a tagged variant; [Tstruct] carries the ordered
    [struct tfield] sequence as (name, type) pairs. *)
Inductive type : Type :=
| Tvoid
| Ttypedef (name : string) (t : type)
| Tscalar (name : string) (size : Z) (is_signed : bool)
| Tpointer (t : type)
| Tarray (t : type) (len : Z)
| Tmap (ktype vtype : type) (mtype : bpf_map_type) (len : Z)
| Tstruct (name : string) (fields : list (string * type))
| Tfunc (ret : type) (vargs : bool).

Definition tfield : Type := (string * type)%type.

Definition type_ttype (t : type) : ttype :=
  match t with
  | Tvoid => T_VOID
  | Ttypedef _ _ => T_TYPEDEF
  | Tscalar _ _ _ => T_SCALAR
  | Tpointer _ => T_POINTER
  | Tarray _ _ => T_ARRAY
  | Tmap _ _ _ _ => T_MAP
  | Tstruct _ _ => T_STRUCT
  | Tfunc _ _ => T_FUNC
  end.

Definition ttype_eqb (a b : ttype) : bool :=
  match a, b with
  | T_VOID, T_VOID | T_TYPEDEF, T_TYPEDEF | T_SCALAR, T_SCALAR
  | T_POINTER, T_POINTER | T_ARRAY, T_ARRAY | T_MAP, T_MAP
  | T_STRUCT, T_STRUCT | T_FUNC, T_FUNC => true
  | _, _ => false
  end.

(** The global scalar types the operators name. *)
Definition t_void : type := Tvoid.
Definition t_char : type := Tscalar "char" 1 true.
Definition t_int : type := Tscalar "int" 4 true.

(** Modelled from the spec: [type_base] is missing from the sources; "base
    (strips qualifiers)" peels typedef wrappers. *)
Fixpoint type_base (t : type) : type :=
  match t with
  | Ttypedef _ t' => type_base t'
  | _ => t
  end.

(** Modelled from the spec: [type_padding], the distance from [offset] to
    the next multiple of [align] ("natural alignment"). *)
Definition type_padding (offset align : Z) : Z :=
  (align - offset mod align) mod align.

(** Modelled from the spec: [type_alignof] is missing from the sources;
    natural alignment: a scalar is aligned to its size, a pointer to the
    native pointer width, an array to its element, a struct to its most
    aligned field. *)
Fixpoint type_alignof (t : type) : Z :=
  match t with
  | Tvoid => - EINVAL
  | Ttypedef _ t' => type_alignof t'
  | Tscalar _ sz _ => sz
  | Tpointer _ => 8
  | Tarray t' _ => type_alignof t'
  | Tmap _ _ _ _ => 4
  | Tstruct _ fs =>
      (fix amax (fs : list (string * type)) (acc : Z) : Z :=
         match fs with
         | [] => acc
         | (_, ft) :: fs' => amax fs' (Z.max acc (type_alignof ft))
         end) fs (- EINVAL)
  | Tfunc _ _ => - EINVAL
  end.

(** Modelled from the spec: [type_sizeof] on a non-NULL type is missing from
    the sources. "offset derived from preceding fields' sizes and natural
    alignment ... the struct's size equals the last field's offset+size
    rounded to alignment"; sizeof is "defined for all non-function
    variants". [struct_end] is the running offset after the last field. *)
Fixpoint type_sizeof_t (t : type) : Z :=
  match t with
  | Tvoid => 1
  | Ttypedef _ t' => type_sizeof_t t'
  | Tscalar _ sz _ => sz
  | Tpointer _ => 8
  | Tarray t' len => len * type_sizeof_t t'
  | Tmap _ _ _ _ => 4
  | Tstruct _ fs =>
      let struct_end :=
        (fix walk (fs : list (string * type)) (offset : Z) : Z :=
           match fs with
           | [] => offset
           | (_, ft) :: fs' =>
               walk fs' (offset + type_padding offset (type_alignof ft)
                         + type_sizeof_t ft)
           end) fs 0 in
      match fs with
      | [] => struct_end
      | _ => struct_end + type_padding struct_end (type_alignof t)
      end
  | Tfunc _ _ => - EINVAL
  end.

(** [type_sizeof] takes a possibly NULL [struct type *]; the hooks rely on a
    negative result for an unresolved type ([struct_type_infer]). *)
Definition type_sizeof (t : option type) : Z :=
  match t with
  | None => - EINVAL
  | Some t => type_sizeof_t t
  end.

(** Modelled from the spec: the field walk of [type_offsetof]: each field is
    placed at the running offset rounded up to its alignment; an unknown
    name gives [-ENOENT]. *)
Fixpoint offsetof_fields (fs : list (string * type)) (field : string)
         (offset : Z) : Z :=
  match fs with
  | [] => - ENOENT
  | (name, ft) :: fs' =>
      let offset := offset + type_padding offset (type_alignof ft) in
      if String.eqb name field then offset
      else offsetof_fields fs' field (offset + type_sizeof_t ft)
  end.

(** Modelled from the spec: "offsetof(struct_type, field_name) -> byte
    offset". *)
Definition type_offsetof (t : type) (field : string) : Z :=
  match t with
  | Tstruct _ fs => offsetof_fields fs field 0
  | _ => - EINVAL
  end.

(** Modelled from the spec: "field lookup by name on struct types"
    ([tfields_get]); the first field with that name. *)
Fixpoint tfields_get (fs : list (string * type)) (name : string)
  : option tfield :=
  match fs with
  | [] => None
  | (fname, ft) :: fs' =>
      if String.eqb fname name then Some (fname, ft) else tfields_get fs' name
  end.

(** Modelled from the spec: "array_of(elem_type, length) -> type". *)
Definition type_array_of (t : type) (len : Z) : type := Tarray t len.

(** Modelled from the spec: "map_of(key_type, value_type, backing_kind) ->
    type"; the last argument of the C call is the map's entry count. *)
Definition type_map_of (ktype vtype : type) (mtype : bpf_map_type) (len : Z)
  : type := Tmap ktype vtype mtype len.

(** ** Expression graph and symbols *)

(** A [struct sym *]: an index into the symbol store. *)
Definition sym_id : Type := nat.

(** The address of a [struct node]. *)
Definition node_id : Type := nat.

Inductive ntype : Type := N_EXPR | N_NUM | N_STRING.

(** [struct node]: [id] is the node's address, [loc] its source location,
    [sym] the attached symbol ([None] is a NULL [n->sym]), and the payload
    is [n->expr] (operator name, identifier flag, ordered arguments),
    [n->num.u64] or [n->string.data]. The mutable flag [string.virtual]
    lives in the state, keyed by [id]. *)
Inductive node : Type :=
| Expr (id : node_id) (loc : Z) (sym : option sym_id)
       (func : string) (ident : bool) (args : list node)
| Num (id : node_id) (loc : Z) (sym : option sym_id) (u64 : Z)
| Str (id : node_id) (loc : Z) (sym : option sym_id) (data : string).

Definition node_ntype (n : node) : ntype :=
  match n with
  | Expr _ _ _ _ _ _ => N_EXPR
  | Num _ _ _ _ => N_NUM
  | Str _ _ _ _ => N_STRING
  end.

Definition node_addr (n : node) : node_id :=
  match n with
  | Expr id _ _ _ _ _ | Num id _ _ _ | Str id _ _ _ => id
  end.

Definition node_loc (n : node) : Z :=
  match n with
  | Expr _ l _ _ _ _ | Num _ l _ _ | Str _ l _ _ => l
  end.

Definition node_sym (n : node) : option sym_id :=
  match n with
  | Expr _ _ s _ _ _ | Num _ _ s _ | Str _ _ s _ => s
  end.

(** [n->expr.args] and the [next] chain, as the ordered argument list. *)
Definition node_args (n : node) : list node :=
  match n with
  | Expr _ _ _ _ _ args => args
  | _ => []
  end.

(** Modelled from the spec: [node_is] is missing from the sources; a node
    "is" an operator when it is an expression whose operator name is the
    given one (a NULL node is none). *)
Definition node_is (n : option node) (func : string) : bool :=
  match n with
  | Some (Expr _ _ _ f _ _) => String.eqb f func
  | _ => false
  end.

(** Modelled from the spec: [node_nargs], the length of the argument list. *)
Definition node_nargs (n : node) : nat := List.length (node_args n).

(** [enum irloc]; [LOC_NONE] is the zero value of an unassigned location. *)
Inductive irloc : Type := LOC_NONE | LOC_REG | LOC_STACK.

Record irhint : Type := mk_irhint {
  hint_stack : bool;
  hint_lval : bool;
  hint_dot : bool
}.

(** [struct irstate]: the storage decision of a symbol. *)
Record irstate : Type := mk_irstate {
  loc : irloc;
  size : Z;
  stack : Z;
  reg : Z;
  hint : irhint
}.

(** [struct sym]: an optional resolved type and the IR state. *)
Record sym : Type := mk_sym {
  sym_type : option type;
  irs : irstate
}.

Definition irloc_eqb (a b : irloc) : bool :=
  match a, b with
  | LOC_NONE, LOC_NONE | LOC_REG, LOC_REG | LOC_STACK, LOC_STACK => true
  | _, _ => false
  end.

(** Modelled from the spec: [sym_on_stack] and [sym_in_reg] test the storage
    location of a symbol. *)
Definition sym_on_stack (s : sym) : bool := irloc_eqb (loc (irs s)) LOC_STACK.
Definition sym_in_reg (s : sym) : bool := irloc_eqb (loc (irs s)) LOC_REG.

(** ** Instruction stream *)

Definition BPF_REG_0 : Z := 0.
Definition BPF_REG_1 : Z := 1.
Definition BPF_REG_2 : Z := 2.
Definition BPF_REG_3 : Z := 3.
Definition BPF_REG_4 : Z := 4.
Definition BPF_REG_BP : Z := 10.
Definition MAX_BPF_STACK : Z := 512.

Inductive bpf_size : Type := BPF_B | BPF_H | BPF_W | BPF_DW.
Inductive bpf_alu_op : Type := BPF_ADD | BPF_SUB | BPF_NEG.
Inductive bpf_jmp_op : Type := BPF_JA | BPF_JEQ | BPF_JNE.
Inductive bpf_func : Type :=
| BPF_FUNC_probe_read
| BPF_FUNC_probe_read_str
| BPF_FUNC_map_lookup_elem
| BPF_FUNC_map_update_elem
| BPF_FUNC_map_delete_elem.

(** The instruction templates the file builds with the macros [LDX], [ALU],
    [ALU_IMM], [ALU64_IMM], [MOV_IMM], [JMP_IMM] and [CALL]. A jump's target
    is a label. *)
Inductive insn : Type :=
| LDX (sz : bpf_size) (off : Z)
| ALU (op : bpf_alu_op)
| ALU_IMM (op : bpf_alu_op) (imm : Z)
| ALU64_IMM (op : bpf_alu_op) (imm : Z)
| MOV_IMM (imm : Z)
| JMP_IMM (op : bpf_jmp_op) (imm : Z) (label : Z)
| CALL (f : bpf_func).

(** One entry of the stream per call of an emitter. [ir_emit_insn] and
    [ir_emit_label] are primitive; the composite emitters, whose bodies are
    outside [memory.c], are recorded with their arguments (a symbol argument
    as the symbol id and a snapshot of its IR state at the call). *)
Inductive vinsn : Type :=
| VI_INSN (i : insn) (dst src : Z)
| VI_LABEL (label : Z)
| VI_BZERO (offset len : Z)
| VI_LDBP (dst : Z) (offset : Z)
| VI_LDMAP (dst : Z) (s : sym_id)
| VI_SYM_TO_REG (dst : Z) (s : sym_id) (i : irstate)
| VI_REG_TO_SYM (s : sym_id) (i : irstate) (src : Z)
| VI_READ_TO_SYM (s : sym_id) (i : irstate) (src : Z)
| VI_SYM_TO_SYM (d : sym_id) (di : irstate) (s : sym_id) (si : irstate)
| VI_SYM_TO_STACK (offset : Z) (s : sym_id) (i : irstate).

(** [struct ir]: the append-only stream, the label counter and the stack
    pointer of the storage allocator. *)
Record ir_t : Type := mk_ir {
  vi : list vinsn;
  next_label : Z;
  sp : Z
}.

(** ** Compilation state *)

Inductive severity : Type := Error | Warning.

(** A diagnostic raised with [_ne] (error) or [_nw] (warning): the node it
    is reported at and the format string. *)
Record diag : Type := mk_diag {
  sev : severity;
  at_node : node_id;
  fmt : string
}.

Record state : Type := mk_state {
  syms : sym_id -> sym;
  types : list type;
  virt : node_id -> bool;
  diags : list diag;
  ir : ir_t
}.

(** The result of a hook: a C return code and the state it leaves, a failed
    [assert], or a NULL dereference. *)
Inductive outcome : Type :=
| Returned (rc : Z) (st : state)
| Aborted (st : state)
| Crashed.

Definition upd {A : Type} (f : nat -> A) (k : nat) (v : A) : nat -> A :=
  fun k' => if Nat.eqb k k' then v else f k'.

Definition set_irs_hint_stack (i : irstate) (b : bool) : irstate :=
  mk_irstate (loc i) (size i) (stack i) (reg i)
             (mk_irhint b (hint_lval (hint i)) (hint_dot (hint i))).

Definition set_irs_hint_lval (i : irstate) (b : bool) : irstate :=
  mk_irstate (loc i) (size i) (stack i) (reg i)
             (mk_irhint (hint_stack (hint i)) b (hint_dot (hint i))).

Definition set_irs_hint_dot (i : irstate) (b : bool) : irstate :=
  mk_irstate (loc i) (size i) (stack i) (reg i)
             (mk_irhint (hint_stack (hint i)) (hint_lval (hint i)) b).

Definition set_irs_stack (i : irstate) (off : Z) : irstate :=
  mk_irstate (loc i) (size i) off (reg i) (hint i).

(** [s->type = t]. *)
Definition set_sym_type (st : state) (s : sym_id) (t : option type) : state :=
  mk_state (upd (syms st) s (mk_sym t (irs (syms st s))))
           (types st) (virt st) (diags st) (ir st).

(** [s->irs = i]. *)
Definition set_sym_irs (st : state) (s : sym_id) (i : irstate) : state :=
  mk_state (upd (syms st) s (mk_sym (sym_type (syms st s)) i))
           (types st) (virt st) (diags st) (ir st).

(** [n->string.virtual = 1]. *)
Definition set_virtual (st : state) (n : node) : state :=
  mk_state (syms st) (types st) (upd (virt st) (node_addr n) true)
           (diags st) (ir st).

(** Modelled from the spec: [type_add] "registers that type globally"; the
    registry grows by one entry. *)
Definition type_add (st : state) (t : type) : state :=
  mk_state (syms st) (t :: types st) (virt st) (diags st) (ir st).

(** [_ne(n, fmt, ...)]: report an error at [n]. *)
Definition _ne (st : state) (n : node) (f : string) : state :=
  mk_state (syms st) (types st) (virt st)
           (diags st ++ [mk_diag Error (node_addr n) f]) (ir st).

(** [_nw(n, fmt, ...)]: report a warning at [n]. *)
Definition _nw (st : state) (n : node) (f : string) : state :=
  mk_state (syms st) (types st) (virt st)
           (diags st ++ [mk_diag Warning (node_addr n) f]) (ir st).

Definition set_ir (st : state) (i : ir_t) : state :=
  mk_state (syms st) (types st) (virt st) (diags st) i.

(** [n->sym->type] of a symbol id. *)
Definition type_of (st : state) (s : sym_id) : option type :=
  sym_type (syms st s).

Definition typed (st : state) (s : sym_id) : bool :=
  match type_of st s with Some _ => true | None => false end.

(** Dereferencing a possibly NULL pointer inside a hook. *)
Notation "'let?' x ':=' e 'in' k" :=
  (match e with Some x => k | None => Crashed end)
  (at level 10, x pattern, e at level 100, k at level 200).

(** [n->expr.args] (index 0) and its [next] successors. *)
Definition arg (n : node) (i : nat) : option node := nth_error (node_args n) i.

(** [printf]'s [%d] of a non-negative [int]. *)
Definition fmt_d (i : nat) : string :=
  NilEmpty.string_of_uint (Nat.to_uint i).

(** ** Instances of the external helpers

    The hooks below are parametric in the helpers that the type system, the
    configuration and the storage allocator provide. These instances are
    used to run the hooks on concrete graphs. *)

(** Modelled from the spec: a string type is a fixed-length array of
    [char] (the result type of [mem] and [str]). *)
Definition string_type (t : type) : bool :=
  match type_base t with
  | Tarray et _ =>
      match type_base et with
      | Tscalar nm sz _ => String.eqb nm "char" && (sz =? 1)
      | _ => false
      end
  | _ => false
  end.

(** Two types of the same size are taken to be assignment compatible. *)
Definition same_size_compatible (a b : type) : bool :=
  type_sizeof_t a =? type_sizeof_t b.

Definition default_string_size : Z := 64.

Definition addr_string (id : node_id) : string := "0x" ++ fmt_d id.

(** Modelled from the spec: "Once a stack placement is requested, the
    allocator reserves a fresh, non-overlapping byte range sized to the
    symbol's type within the current stack frame"; a parent may already
    have chosen the offset. This allocator places every symbol on the
    stack, which the spec allows ("absence of hints allows register
    placement"). *)
Definition stack_only_init_irs (i : ir_t) (s : irstate) (t : option type)
  : ir_t * irstate :=
  match loc s with
  | LOC_NONE =>
      let sz := type_sizeof (option_map type_base t) in
      if stack s =? 0
      then
        let sp' := sp i - sz in
        (mk_ir (vi i) (next_label i) sp',
         mk_irstate LOC_STACK sz sp' (reg s) (hint s))
      else (i, mk_irstate LOC_STACK sz (stack s) (reg s) (hint s))
  | _ => (i, s)
  end.

(** ** Type inference hooks *)

Section BuiltIn.

(** [type_is_string], from the type system: whether a type is a string
    type. *)
Variable type_is_string : type -> bool.

(** [type_compatible], from the type system. *)
Variable type_compatible : type -> type -> bool.

(** [ply_config.string_size], the configured default length of [mem] and
    [str]. *)
Variable string_size : Z.

(** The rendering of a node address by [printf]'s [%p]. *)
Variable fmt_ptr : node_id -> string.

(** The body of the [for (i = 0; i < 2; i++)] loop of
    [strcmp_type_infer] for one operand. *)
Definition strcmp_check_operand (n s : node) (st : state) : option state :=
  match node_ntype s with
  | N_STRING => Some (set_virtual st s)
  | _ =>
      match node_sym s with
      | None => None
      | Some y =>
          match type_of st y with
          | None => None
          | Some t =>
              if negb (type_is_string t)
              then Some (_nw st n "'%N' is of type '%T', a string was expected.")
              else Some st
          end
      end
  end.

Definition strcmp_type_infer (n : node) (st : state) : outcome :=
  let? ns := node_sym n in
  if typed st ns then Returned 0 st
  else
    let? s0 := arg n 0 in
    let s1 := arg n 1 in
    let? y0 := node_sym s0 in
    if negb (typed st y0) then Returned 0 st
    else
      let? s1 := s1 in
      let? y1 := node_sym s1 in
      if negb (typed st y1) then Returned 0 st
      else
        let? st1 := strcmp_check_operand n s0 st in
        let? st2 := strcmp_check_operand n s1 st1 in
        Returned 0 (set_sym_type st2 ns (Some t_int)).

(** [mem_type_infer], the hook of both [mem] and [str]. *)
Definition mem_type_infer (n : node) (st : state) : outcome :=
  let sz := string_size in
  let? ns := node_sym n in
  if typed st ns then Returned 0 st
  else
    let? a := arg n 0 in
    let len := arg n 1 in
    let? ya := node_sym a in
    match type_of st ya with
    | None => Returned 0 st
    | Some ta =>
        let continue (sz : Z) : outcome :=
          Returned 0 (set_sym_type st ns (Some (type_array_of t_char sz))) in
        let check_cast (k : outcome) : outcome :=
          if type_sizeof (Some ta) >? 8
          then Returned (- EINVAL)
                 (_ne st n "can not cast '%N', of type '%T', to a pointer.")
          else k in
        match len with
        | None => check_cast (continue sz)
        | Some l =>
            let? yl := node_sym l in
            if negb (typed st yl) then Returned 0 st
            else
              check_cast
                match l with
                | Num _ _ _ v =>
                    let sz := usize v in
                    if sz >? MAX_BPF_STACK
                    then Returned (- EINVAL)
                           (_ne st n
                              ("length is larger than the maximum "
                               ++ "allowed stack size (%d)."))
                    else continue sz
                | _ =>
                    Returned (- EINVAL)
                      (_ne st n
                         ("length must be a constant, "
                          ++ "but '%N' is of type '%T'."))
                end
        end
    end.

(** [member->string.data]; reading it from a node that is not a string is
    undefined and modelled as a crash. *)
Definition string_data (n : node) : option string :=
  match n with
  | Str _ _ _ d => Some d
  | _ => None
  end.

Definition struct_deref_type_infer (n : node) (st : state) : outcome :=
  let? ns := node_sym n in
  if typed st ns then Returned 0 st
  else
    let? sou := arg n 0 in
    let member := arg n 1 in
    let? ys := node_sym sou in
    match type_of st ys with
    | None => Returned 0 st
    | Some ts =>
        match type_base ts with
        | Tpointer pt =>
            match type_base pt with
            | Tstruct _ fields =>
                let? m := member in
                let? name := string_data m in
                match tfields_get fields name with
                | None =>
                    Returned (- EINVAL)
                      (_ne st n "type '%T' has no member named %N.\n")
                | Some f => Returned 0 (set_sym_type st ns (Some (snd f)))
                end
            | _ =>
                Returned (- EINVAL)
                  (_ne st n "%N is neither struct nor union (type '%T').\n")
            end
        | _ =>
            (* the error is reported, but the function goes on to read
               [t->ptr.type] of a type that is not a pointer *)
            Crashed
        end
    end.

Definition struct_dot_type_infer (n : node) (st : state) : outcome :=
  let? ns := node_sym n in
  if typed st ns then Returned 0 st
  else
    let? sou := arg n 0 in
    let member := arg n 1 in
    let? ys := node_sym sou in
    match type_of st ys with
    | None => Returned 0 st
    | Some ts =>
        match type_base ts with
        | Tstruct _ fields =>
            let? m := member in
            let? name := string_data m in
            match tfields_get fields name with
            | None =>
                Returned (- EINVAL)
                  (_ne st n "type '%T' has no member named %N.\n")
            | Some f =>
                Returned 0
                  (set_sym_type (set_virtual st m) ns (Some (snd f)))
            end
        | _ =>
            Returned (- EINVAL)
              (_ne st n "%N is neither struct nor union (type '%T').\n")
        end
    end.

Definition deref_type_infer (n : node) (st : state) : outcome :=
  let ptr := arg n 0 in
  let? ns := node_sym n in
  if typed st ns then Returned 0 st
  else
    let? p := ptr in
    let? yp := node_sym p in
    match type_of st yp with
    | None => Returned 0 st
    | Some tp =>
        match type_base tp with
        | Tpointer pt => Returned 0 (set_sym_type st ns (Some pt))
        | _ =>
            Returned (- EINVAL)
              (_ne st n "can't dereference %N (type '%T').\n")
        end
    end.

(** [subscript_type_infer_up]; both [src] and [key] are typed when it is
    called. *)
Definition subscript_type_infer_up (n : node) (st : state) : outcome :=
  let? ns := node_sym n in
  let? src := arg n 0 in
  let? key := arg n 1 in
  let? ysrc := node_sym src in
  let? ykey := node_sym key in
  let? tsrc := type_of st ysrc in
  let? tkey := type_of st ykey in
  let t := type_base tsrc in
  let scalar := ttype_eqb (type_ttype (type_base tkey)) T_SCALAR in
  if negb scalar
     && (ttype_eqb (type_ttype t) T_ARRAY
         || ttype_eqb (type_ttype t) T_POINTER)
  then
    Returned (- EINVAL)
      (_ne st n
         ("Array subscript must be a scalar value, "
          ++ "but %N is of type '%T'.\n"))
  else
    match t with
    | Tarray et _ => Returned 0 (set_sym_type st ns (Some et))
    | Tpointer pt => Returned 0 (set_sym_type st ns (Some pt))
    | Tmap _ vtype _ _ => Returned 0 (set_sym_type st ns (Some vtype))
    | _ =>
        Returned (- EINVAL)
          (_ne st n "%N is not an subscriptable (type '%T').\n")
    end.

(** [subscript_type_infer_down]; [type_map_of] receives the two type
    pointers as they are. *)
Definition subscript_type_infer_down (n : node) (st : state) : outcome :=
  let? ns := node_sym n in
  let? src := arg n 0 in
  let? key := arg n 1 in
  let? ysrc := node_sym src in
  let? ykey := node_sym key in
  let? tkey := type_of st ykey in
  let? tn := type_of st ns in
  Returned 0
    (set_sym_type st ysrc
       (Some (type_map_of tkey tn BPF_MAP_TYPE_HASH 0))).

Definition subscript_type_infer (n : node) (st : state) : outcome :=
  let? src := arg n 0 in
  let? key := arg n 1 in
  let? ykey := node_sym key in
  if negb (typed st ykey) then Returned 0 st
  else
    let? ns := node_sym n in
    if negb (typed st ns)
    then
      let? ysrc := node_sym src in
      if typed st ysrc then subscript_type_infer_up n st
      else Returned 0 st
    else
      let? ysrc := node_sym src in
      if negb (typed st ysrc) then subscript_type_infer_down n st
      else Returned 0 st.


(** The first loop of [struct_type_infer]: [Some true] when every
    argument has a non-negative [type_sizeof], [Some false] at the first
    that has not, [None] on a NULL symbol. *)
Fixpoint struct_args_sized (args : list node) (st : state) : option bool :=
  match args with
  | [] => Some true
  | a :: args' =>
      match node_sym a with
      | None => None
      | Some y =>
          if type_sizeof (type_of st y) <? 0 then Some false
          else struct_args_sized args' st
      end
  end.

(** The second loop of [struct_type_infer]: field [i] is named [f<i>] and
    typed by the [i]-th argument. *)
Fixpoint struct_fields (args : list node) (i : nat) (st : state)
  : option (list tfield) :=
  match args with
  | [] => Some []
  | a :: args' =>
      match node_sym a with
      | None => None
      | Some y =>
          match type_of st y, struct_fields args' (S i) st with
          | Some t, Some fs => Some (("f" ++ fmt_d i, t) :: fs)
          | _, _ => None
          end
      end
  end.

Definition struct_type_infer (n : node) (st : state) : outcome :=
  let? sized := struct_args_sized (node_args n) st in
  if negb sized then Returned 0 st
  else
    let? fields := struct_fields (node_args n) 0 st in
    let t := Tstruct (":anon_" ++ fmt_ptr (node_addr n)) fields in
    let st1 := type_add st t in
    let? ns := node_sym n in
    Returned 0 (set_sym_type st1 ns (Some t)).

Definition assign_type_infer (n : node) (st : state) : outcome :=
  let? ns := node_sym n in
  if typed st ns then Returned 0 st
  else
    let? lval := arg n 0 in
    let? rval := arg n 1 in
    let? yr := node_sym rval in
    match type_of st yr with
    | None => Returned 0 st
    | Some tr =>
        let? yl := node_sym lval in
        match type_of st yl with
        | None =>
            let st1 := set_sym_type st yl (Some tr) in
            Returned 0 (set_sym_type st1 ns (Some t_void))
        | Some tl =>
            if type_compatible tl tr
            then Returned 0 (set_sym_type st ns (Some t_void))
            else
              Returned (- EINVAL)
                (_ne st n
                   "can't assign %N (type '%T'), to %N (type '%T').\n")
        end
    end.

(** ** Static validation hooks *)

Definition assign_static_validate (n : node) (st : state) : outcome :=
  let lval := arg n 0 in
  if node_is lval "[]" then Returned 0 st
  else Returned (- EINVAL) (_ne st n "can't assign a value to %N.\n").

Definition delete_static_validate (n : node) (st : state) : outcome :=
  let a := arg n 0 in
  if node_is a "[]" then Returned 0 st
  else
    Returned (- EINVAL) (_ne st n "can't delete %N, a map was expected.\n").

(** ** Rewrite hook *)

(** Modelled from the spec: the node constructors [node_expr],
    [node_expr_ident] and [node_string] are missing from the sources; each
    builds a fresh node (at the given address) that has no symbol yet. *)
Definition node_expr (id : node_id) (l : Z) (func : string)
           (args : list node) : node :=
  Expr id l None func false args.

Definition node_expr_ident (id : node_id) (l : Z) (func : string) : node :=
  Expr id l None func true [].

Definition node_string (id : node_id) (l : Z) (data : string) : node :=
  Str id l None data.

(** [sou->expr.func]; reading it from a node that is not an expression is
    undefined and modelled as a crash. *)
Definition expr_func (n : node) : option string :=
  match n with
  | Expr _ _ _ f _ _ => Some f
  | _ => None
  end.

(** [struct_deref_rewrite]: [brk] is the first free node address, the four
    new nodes take [brk .. brk+3]. The result is the return code, the
    subtree that [node_replace] puts in the place of [n], and the next free
    address. *)
Definition struct_deref_rewrite (n : node) (brk : node_id)
  : option (Z * node * node_id) :=
  match arg n 0 with
  | None => None
  | Some sou =>
      match arg n 1 with
      | None => None
      | Some member =>
          match expr_func sou, string_data member with
          | Some sfunc, Some mdata =>
              let new :=
                node_expr brk (node_loc n) "."
                  [ node_expr (brk + 1)%nat (node_loc n) "u*"
                      [ node_expr_ident (brk + 2)%nat (node_loc sou) sfunc ];
                    node_string (brk + 3)%nat (node_loc member) mdata ] in
              Some (1, new, (brk + 4)%nat)
          | _, _ => None
          end
      end
  end.

(** ** Code generation hooks *)

(** [ir_init_irs], the storage allocator: given the stream, the IR state of
    a symbol and its type, it decides the symbol's storage. *)
Variable ir_init_irs : ir_t -> irstate -> option type -> ir_t * irstate.

(** Whether plain [char] is signed on the build target; it decides the
    value of [*blit] as an immediate. *)
Variable char_signed : bool.

Definition ir_init_sym (st : state) (s : sym_id) : state :=
  let r := ir_init_irs (ir st) (irs (syms st s)) (type_of st s) in
  set_sym_irs (set_ir st (fst r)) s (snd r).

Definition emit (st : state) (v : vinsn) : state :=
  set_ir st (mk_ir (vi (ir st) ++ [v]) (next_label (ir st)) (sp (ir st))).

Definition ir_emit_insn (st : state) (i : insn) (dst src : Z) : state :=
  emit st (VI_INSN i dst src).

Definition ir_emit_label (st : state) (l : Z) : state :=
  emit st (VI_LABEL l).

(** Modelled from the spec: [ir_alloc_label] hands out a label that no
    earlier call returned ("forward-resolvable jump targets"). *)
Definition ir_alloc_label (st : state) : Z * state :=
  (next_label (ir st),
   set_ir st (mk_ir (vi (ir st)) (next_label (ir st) - 1) (sp (ir st)))).

Definition ir_emit_bzero (st : state) (offset len : Z) : state :=
  emit st (VI_BZERO offset len).

Definition ir_emit_ldbp (st : state) (dst offset : Z) : state :=
  emit st (VI_LDBP dst offset).

Definition ir_emit_ldmap (st : state) (dst : Z) (s : sym_id) : state :=
  emit st (VI_LDMAP dst s).

Definition ir_emit_sym_to_reg (st : state) (dst : Z) (s : sym_id) : state :=
  emit st (VI_SYM_TO_REG dst s (irs (syms st s))).

Definition ir_emit_reg_to_sym (st : state) (s : sym_id) (src : Z) : state :=
  emit st (VI_REG_TO_SYM s (irs (syms st s)) src).

Definition ir_emit_read_to_sym (st : state) (s : sym_id) (src : Z) : state :=
  emit st (VI_READ_TO_SYM s (irs (syms st s)) src).

Definition ir_emit_sym_to_sym (st : state) (d s : sym_id) : state :=
  emit st (VI_SYM_TO_SYM d (irs (syms st d)) s (irs (syms st s))).

Definition ir_emit_sym_to_stack (st : state) (offset : Z) (s : sym_id)
  : state :=
  emit st (VI_SYM_TO_STACK offset s (irs (syms st s))).

(** [*blit] converted to the [int] immediate of [ALU_IMM]: the first byte
    of the rest of the literal, or its terminating NUL. *)
Definition deref_char (blit : string) : Z :=
  match blit with
  | EmptyString => 0
  | String c _ =>
      let v := Z.of_nat (nat_of_ascii c) in
      if char_signed && (128 <=? v) then v - 256 else v
  end.

(** [blit++]; the loop never steps past the terminating NUL. *)
Definition next_char (blit : string) : string :=
  match blit with
  | EmptyString => EmptyString
  | String _ rest => rest
  end.

(** The [for] loop of [strcmp_emit]; [len] counts the iterations left. *)
Fixpoint strcmp_emit_loop (len : nat) (dst a b : Z) (blit : option string)
         (done : Z) (st : state) : state :=
  match len with
  | O => st
  | S len' =>
      let st := ir_emit_insn st (LDX BPF_B a) dst BPF_REG_BP in
      let st :=
        match blit with
        | Some l => ir_emit_insn st (ALU_IMM BPF_SUB (deref_char l)) dst 0
        | None =>
            let st := ir_emit_insn st (LDX BPF_B b) BPF_REG_1 BPF_REG_BP in
            ir_emit_insn st (ALU BPF_SUB) dst BPF_REG_1
        end in
      match len' with
      | O => st
      | S _ =>
          match blit with
          | None =>
              let st :=
                ir_emit_insn st (JMP_IMM BPF_JEQ 0 done) BPF_REG_1 0 in
              let st := ir_emit_insn st (JMP_IMM BPF_JNE 0 done) dst 0 in
              strcmp_emit_loop len' dst (a + 1) (b + 1) None done st
          | Some l =>
              if deref_char l =? 0 then st
              else
                let st := ir_emit_insn st (JMP_IMM BPF_JNE 0 done) dst 0 in
                strcmp_emit_loop len' dst (a + 1) (b + 1)
                                 (Some (next_char l)) done st
          end
      end
  end.

Definition strcmp_emit (st : state) (dst a b : Z) (blit : option string)
           (len : Z) : state :=
  let (done, st) := ir_alloc_label st in
  let st := strcmp_emit_loop (Z.to_nat (usize len)) dst a b blit done st in
  ir_emit_label st done.

Definition strcmp_ir_post (n : node) (st : state) : outcome :=
  let? a0 := arg n 0 in
  let? b0 := arg n 1 in
  let swap := match node_ntype a0 with N_STRING => true | _ => false end in
  let a := if swap then b0 else a0 in
  let b := if swap then a0 else b0 in
  let invert := swap in
  let blit := string_data b in
  let? ya := node_sym a in
  if negb (sym_on_stack (syms st ya)) then Aborted st
  else
    let? yb := node_sym b in
    if match blit with None => negb (sym_on_stack (syms st yb)) | _ => false end
    then Aborted st
    else
      let? ns := node_sym n in
      let st := ir_init_sym st ns in
      let len := Z.min (type_sizeof (type_of st ya))
                       (type_sizeof (type_of st yb)) in
      let dst := if sym_in_reg (syms st ns) then reg (irs (syms st ns))
                 else BPF_REG_0 in
      let st := strcmp_emit st dst (stack (irs (syms st ya)))
                            (stack (irs (syms st yb))) blit len in
      let st := if invert then ir_emit_insn st (ALU_IMM BPF_NEG 0) dst 0
                else st in
      let st := ir_emit_reg_to_sym st ns dst in
      Returned 0 st.

(** [n->sym->irs.hint.stack = 1]. *)
Definition hint_stack_on (st : state) (s : sym_id) : state :=
  set_sym_irs st s (set_irs_hint_stack (irs (syms st s)) true).

Definition hint_lval_on (st : state) (s : sym_id) : state :=
  set_sym_irs st s (set_irs_hint_lval (irs (syms st s)) true).

Definition hint_dot_on (st : state) (s : sym_id) : state :=
  set_sym_irs st s (set_irs_hint_dot (irs (syms st s)) true).

(** [int32_t] conversion of an immediate. *)
Definition int32 (x : Z) : Z := s32 x.

Definition str_ir_post (n : node) (st : state) : outcome :=
  let ptr := arg n 0 in
  let? ns := node_sym n in
  let st := hint_stack_on st ns in
  let st := ir_init_sym st ns in
  let st := ir_emit_bzero st (stack (irs (syms st ns)))
                          (usize (type_sizeof (type_of st ns))) in
  let st := ir_emit_ldbp st BPF_REG_1 (stack (irs (syms st ns))) in
  let st := ir_emit_insn st (MOV_IMM (int32 (type_sizeof (type_of st ns))))
                         BPF_REG_2 0 in
  let? p := ptr in
  let? yp := node_sym p in
  let st := ir_emit_sym_to_reg st BPF_REG_3 yp in
  Returned 0 (ir_emit_insn st (CALL BPF_FUNC_probe_read_str) 0 0).

Definition mem_ir_post (n : node) (st : state) : outcome :=
  let ptr := arg n 0 in
  let? ns := node_sym n in
  let st := hint_stack_on st ns in
  let st := ir_init_sym st ns in
  let? p := ptr in
  let? yp := node_sym p in
  let st := ir_emit_sym_to_reg st BPF_REG_3 yp in
  Returned 0 (ir_emit_read_to_sym st ns BPF_REG_3).

Definition struct_dot_ir_pre (n : node) (st : state) : outcome :=
  let sou := arg n 0 in
  if node_is sou "u*"
  then
    let? s := sou in
    let? ys := node_sym s in
    let st := hint_dot_on st ys in
    let? ns := node_sym n in
    Returned 0 (hint_stack_on st ns)
  else Returned 0 st.

(** Modelled from the spec: [bpf_width], the "explicit access width" of a
    load of [size] bytes. *)
Definition bpf_width (size : Z) : bpf_size :=
  if size =? 1 then BPF_B
  else if size =? 2 then BPF_H
  else if size =? 4 then BPF_W
  else BPF_DW.

(** The tail of [struct_dot_ir_post] at the label [probe_read]. *)
Definition struct_dot_probe_read (ns : sym_id) (st : state) : outcome :=
  let dst := irs (syms st ns) in
  let st := ir_emit_insn st (MOV_IMM (int32 (size dst))) BPF_REG_2 0 in
  let st := ir_emit_ldbp st BPF_REG_1 (stack dst) in
  Returned 0 (ir_emit_insn st (CALL BPF_FUNC_probe_read) 0 0).

Definition struct_dot_ir_post (n : node) (st : state) : outcome :=
  let? sou := arg n 0 in
  let member := arg n 1 in
  let? ns := node_sym n in
  let st := ir_init_sym st ns in
  let? ys := node_sym sou in
  let? ts := type_of st ys in
  let? m := member in
  let? name := string_data m in
  let offset := type_offsetof (type_base ts) name in
  if offset <? 0 then Aborted st
  else if irloc_eqb (loc (irs (syms st ys))) LOC_NONE
  then
    let? ptr := arg sou 0 in
    let? yp := node_sym ptr in
    let st := ir_emit_sym_to_reg st BPF_REG_3 yp in
    let st := ir_emit_insn st (ALU64_IMM BPF_ADD offset) BPF_REG_3 0 in
    struct_dot_probe_read ns st
  else
    let offset := ssize (offset + stack (irs (syms st ys))) in
    let dst := irs (syms st ns) in
    if irloc_eqb (loc dst) LOC_REG
    then
      Returned 0
        (ir_emit_insn st (LDX (bpf_width (size dst)) offset)
                      (reg dst) BPF_REG_BP)
    else
      let st := ir_emit_insn st (ALU_IMM BPF_ADD offset) BPF_REG_3 0 in
      struct_dot_probe_read ns st.

Definition deref_ir_post (n : node) (st : state) : outcome :=
  let ptr := arg n 0 in
  let? ns := node_sym n in
  if hint_dot (hint (irs (syms st ns))) then Returned 0 st
  else
    let st := ir_init_sym st ns in
    if hint_lval (hint (irs (syms st ns))) then Returned 0 st
    else
      let? p := ptr in
      let? yp := node_sym p in
      let st := ir_emit_sym_to_reg st BPF_REG_0 yp in
      Returned 0 (ir_emit_read_to_sym st ns BPF_REG_0).

(** [subscript_ir_post_map]; [up] is [n->up], the parent of [n]. *)
Definition subscript_ir_post_map (up : option node) (n : node) (st : state)
  : outcome :=
  let? map := arg n 0 in
  let? key := arg n 1 in
  let? ykey := node_sym key in
  let stk := stack (irs (syms st ykey)) in
  let? ns := node_sym n in
  let st := hint_stack_on st ns in
  let st := ir_init_sym st ns in
  if node_is up "=" then Returned 0 st
  else
    let? ymap := node_sym map in
    let st := ir_emit_ldmap st BPF_REG_1 ymap in
    let st := ir_emit_ldbp st BPF_REG_2 stk in
    let st := ir_emit_insn st (CALL BPF_FUNC_map_lookup_elem) 0 0 in
    let (lmiss, st) := ir_alloc_label st in
    let (lhit, st) := ir_alloc_label st in
    let st := ir_emit_insn st (JMP_IMM BPF_JEQ 0 lmiss) BPF_REG_0 0 in
    let st := ir_emit_read_to_sym st ns BPF_REG_0 in
    let st := ir_emit_insn st (JMP_IMM BPF_JA 0 lhit) 0 0 in
    let st := ir_emit_label st lmiss in
    let st := ir_emit_bzero st (stack (irs (syms st ns)))
                            (size (irs (syms st ns))) in
    let st := ir_emit_label st lhit in
    Returned 0 st.

Definition subscript_ir_post (up : option node) (n : node) (st : state)
  : outcome :=
  let? src := arg n 0 in
  let? ysrc := node_sym src in
  let? tsrc := type_of st ysrc in
  match type_base tsrc with
  | Tarray _ _ => Aborted st
  | Tpointer _ => Aborted st
  | Tmap _ _ _ _ => subscript_ir_post_map up n st
  | _ => Aborted st
  end.

(** [t->sou.fields] of the base type; reading it from a type that is not a
    struct is undefined and modelled as a crash. *)
Definition sou_fields (t : type) : option (list tfield) :=
  match t with
  | Tstruct _ fs => Some fs
  | _ => None
  end.

(** The [tfields_foreach] loop of [struct_ir_pre]: [fs] are the fields
    left, [args] is [arg] and its successors, [offset] and [size] are the
    two [size_t] locals. [f[1].name] is the name of the next field; past
    the last field it is the NULL name of the terminator. *)
Fixpoint struct_ir_pre_loop (t : type) (stk : Z) (fs : list tfield)
         (args : list node) (offset size : Z) (st : state)
  : option (Z * Z * state) :=
  match fs with
  | [] => Some (offset, size, st)
  | f :: fs' =>
      let offset := usize (type_offsetof t (fst f)) in
      let size := usize (type_sizeof (Some (snd f))) in
      match args with
      | [] => None
      | a :: args' =>
          match node_sym a with
          | None => None
          | Some y =>
              let st :=
                if irloc_eqb (loc (irs (syms st y))) LOC_NONE
                then
                  let st := hint_stack_on st y in
                  set_sym_irs st y
                    (set_irs_stack (irs (syms st y)) (ssize (stk + offset)))
                else st in
              match args' with
              | [] => struct_ir_pre_loop t stk fs' args' offset size st
              | _ :: _ =>
                  match fs' with
                  | [] => None
                  | f1 :: _ =>
                      let pad :=
                        usize (type_offsetof t (fst f1) - (offset + size)) in
                      let st :=
                        if pad =? 0 then st
                        else ir_emit_bzero st (ssize (stk + offset + size))
                                           pad in
                      struct_ir_pre_loop t stk fs' args' offset size st
                  end
              end
          end
      end
  end.

Definition struct_ir_pre (n : node) (st : state) : outcome :=
  let? ns := node_sym n in
  let? tn := type_of st ns in
  let t := type_base tn in
  let st := hint_stack_on st ns in
  let st := ir_init_sym st ns in
  let stk := stack (irs (syms st ns)) in
  let? fs := sou_fields t in
  let? r := struct_ir_pre_loop t stk fs (node_args n) 0 0 st in
  let '(offset, size, st) := r in
  let pad := usize (type_sizeof (Some t) - (offset + size)) in
  let st := if pad =? 0 then st
            else ir_emit_bzero st (ssize (stk + offset + size)) pad in
  Returned 0 st.

Fixpoint struct_ir_post_loop (t : type) (stk : Z) (fs : list tfield)
         (args : list node) (st : state) : option state :=
  match fs with
  | [] => Some st
  | f :: fs' =>
      let offset := usize (type_offsetof t (fst f)) in
      match args with
      | [] => None
      | a :: args' =>
          match node_sym a with
          | None => None
          | Some y =>
              struct_ir_post_loop t stk fs' args'
                (ir_emit_sym_to_stack st (ssize (stk + offset)) y)
          end
      end
  end.

Definition struct_ir_post (n : node) (st : state) : outcome :=
  let? ns := node_sym n in
  let? tn := type_of st ns in
  let t := type_base tn in
  let stk := stack (irs (syms st ns)) in
  let? fs := sou_fields t in
  let? st := struct_ir_post_loop t stk fs (node_args n) st in
  Returned 0 st.

Definition map_ir_update (n : node) (st : state) : outcome :=
  let? map := arg n 0 in
  let? key := arg n 1 in
  let? ymap := node_sym map in
  let st := ir_emit_ldmap st BPF_REG_1 ymap in
  let? ykey := node_sym key in
  let st := ir_emit_ldbp st BPF_REG_2 (stack (irs (syms st ykey))) in
  let? ns := node_sym n in
  let st := ir_emit_ldbp st BPF_REG_3 (stack (irs (syms st ns))) in
  let st := ir_emit_insn st (MOV_IMM 0) BPF_REG_4 0 in
  Returned 0 (ir_emit_insn st (CALL BPF_FUNC_map_update_elem) 0 0).

Definition assign_ir_pre (n : node) (st : state) : outcome :=
  let? lval := arg n 0 in
  let rval := arg n 1 in
  let? ns := node_sym n in
  let st := hint_stack_on st ns in
  let? yl := node_sym lval in
  let r := ir_init_irs (ir st) (irs (syms st ns)) (type_of st yl) in
  let st := set_sym_irs (set_ir st (fst r)) ns (snd r) in
  let st := hint_lval_on st yl in
  let st := hint_stack_on st yl in
  let st := set_sym_irs st yl
              (set_irs_stack (irs (syms st yl)) (stack (irs (syms st ns)))) in
  let? rv := rval in
  let? yr := node_sym rv in
  let st := hint_stack_on st yr in
  let st := set_sym_irs st yr
              (set_irs_stack (irs (syms st yr)) (stack (irs (syms st ns)))) in
  if node_is (Some lval) "[]"
  then
    let? key := arg lval 1 in
    let? ykey := node_sym key in
    Returned 0 (hint_stack_on st ykey)
  else Returned 0 st.

Definition assign_ir_post (n : node) (st : state) : outcome :=
  let? lval := arg n 0 in
  let? rval := arg n 1 in
  let? yl := node_sym lval in
  let? yr := node_sym rval in
  let st := ir_emit_sym_to_sym st yl yr in
  if negb (node_is (Some lval) "[]") then Returned 0 st
  else map_ir_update lval st.

Definition delete_ir_pre (n : node) (st : state) : outcome :=
  let? a := arg n 0 in
  let? ya := node_sym a in
  let st := hint_lval_on st ya in
  Returned 0 (hint_stack_on st ya).

Definition delete_ir_post (n : node) (st : state) : outcome :=
  let? sub := arg n 0 in
  let? _ := expr_func sub in
  let? map := arg sub 0 in
  let? key := arg sub 1 in
  let? ymap := node_sym map in
  let st := ir_emit_ldmap st BPF_REG_1 ymap in
  let? ykey := node_sym key in
  let st := ir_emit_ldbp st BPF_REG_2 (stack (irs (syms st ykey))) in
  Returned 0 (ir_emit_insn st (CALL BPF_FUNC_map_delete_elem) 0 0).

(** ** Operator registry *)

(** [struct func]: the hook bundle of a built-in. An absent hook is a NULL
    function pointer. The code-generation hooks receive [n->up]. *)
Record func : Type := mk_func {
  name : string;
  static_ret : bool;
  type_infer : option (node -> state -> outcome);
  rewrite : option (node -> node_id -> option (Z * node * node_id));
  static_validate : option (node -> state -> outcome);
  ir_pre : option (option node -> node -> state -> outcome);
  ir_post : option (option node -> node -> state -> outcome)
}.

Definition strcmp_func : func :=
  mk_func "strcmp" false (Some strcmp_type_infer) None None None
          (Some (fun _ => strcmp_ir_post)).

Definition mem_func : func :=
  mk_func "mem" false (Some mem_type_infer) None None None
          (Some (fun _ => mem_ir_post)).

Definition str_func : func :=
  mk_func "str" false (Some mem_type_infer) None None None
          (Some (fun _ => str_ir_post)).

Definition struct_deref_func : func :=
  mk_func "->" false (Some struct_deref_type_infer)
          (Some struct_deref_rewrite) None None None.

Definition struct_dot_func : func :=
  mk_func "." false (Some struct_dot_type_infer) None None
          (Some (fun _ => struct_dot_ir_pre))
          (Some (fun _ => struct_dot_ir_post)).

Definition deref_func : func :=
  mk_func "u*" false (Some deref_type_infer) None None None
          (Some (fun _ => deref_ir_post)).

Definition subscript_func : func :=
  mk_func "[]" false (Some subscript_type_infer) None None None
          (Some subscript_ir_post).

Definition struct_func : func :=
  mk_func ":struct" false (Some struct_type_infer) None None
          (Some (fun _ => struct_ir_pre))
          (Some (fun _ => struct_ir_post)).

Definition assign_func : func :=
  mk_func "=" false (Some assign_type_infer) None
          (Some assign_static_validate)
          (Some (fun _ => assign_ir_pre))
          (Some (fun _ => assign_ir_post)).

Definition delete_func : func :=
  mk_func "delete" true None None (Some delete_static_validate)
          (Some (fun _ => delete_ir_pre))
          (Some (fun _ => delete_ir_post)).

(** The built-ins this file registers ([__ply_built_in]). *)
Definition built_ins : list func :=
  [ strcmp_func; mem_func; str_func; struct_deref_func; struct_dot_func;
    deref_func; subscript_func; struct_func; assign_func; delete_func ].

(** Modelled from the spec: "Dispatch for a given AST node looks up the
    operator by name". *)
Definition func_get (fname : string) : option func :=
  find (fun f => String.eqb (name f) fname) built_ins.

(** ** Traversals *)

(** Run an optional hook; a NULL hook does nothing. *)
Definition run_hook (h : option (node -> state -> outcome)) (n : node)
           (st : state) : outcome :=
  match h with
  | Some f => f n st
  | None => Returned 0 st
  end.

Definition hook_of {A : Type} (fname : string) (sel : func -> option A)
  : option A :=
  match func_get fname with
  | Some f => sel f
  | None => None
  end.

(** Sequencing of two steps of a traversal: the first non-zero return
    code, failed assertion or crash ends it. *)
Definition and_then (o : outcome) (k : state -> outcome) : outcome :=
  match o with
  | Returned rc st => if rc =? 0 then k st else Returned rc st
  | Aborted st => Aborted st
  | Crashed => Crashed
  end.

(** Modelled from the spec: one pass of the type inference engine, which
    is missing from the sources: "visit every node in a stable traversal
    order and invoke its operator's type_infer hook", arguments in list
    order before their parent. Operators registered by other files and
    literals are outside this file and are skipped. *)
Fixpoint type_infer_pass (n : node) (st : state) : outcome :=
  match n with
  | Expr _ _ _ f _ args =>
      and_then
        ((fix pass_args (args : list node) (st : state) : outcome :=
            match args with
            | [] => Returned 0 st
            | a :: args' =>
                and_then (type_infer_pass a st) (pass_args args')
            end) args st)
        (run_hook (hook_of f type_infer) n)
  | _ => Returned 0 st
  end.

(** Modelled from the spec: the code generation walk, which is missing
    from the sources: "ir_pre: pre-order hook run before children are
    code-generated ... ir_post: post-order hook run after children",
    "argument-list order, depth-first". [up] is the parent of [n]. *)
Fixpoint ir_walk (up : option node) (n : node) (st : state) : outcome :=
  match n with
  | Expr _ _ _ f _ args =>
      and_then
        (match hook_of f ir_pre with
         | Some h => h up n st
         | None => Returned 0 st
         end)
        (fun st =>
           and_then
             ((fix walk_args (args : list node) (st : state) : outcome :=
                 match args with
                 | [] => Returned 0 st
                 | a :: args' =>
                     and_then (ir_walk (Some n) a st) (walk_args args')
                 end) args st)
             (fun st =>
                match hook_of f ir_post with
                | Some h => h up n st
                | None => Returned 0 st
                end))
  | _ => Returned 0 st
  end.

(** ** Execution of the instruction stream *)

(** The machine the stream runs on: the registers and the bytes of the
    stack frame, addressed relative to the frame pointer. *)
Record machine : Type := mk_machine {
  regs : Z -> Z;
  stk : Z -> Z
}.

Definition updz {A : Type} (f : Z -> A) (k : Z) (v : A) : Z -> A :=
  fun k' => if k =? k' then v else f k'.

Definition set_reg (m : machine) (r v : Z) : machine :=
  mk_machine (updz (regs m) r v) (stk m).

(** The effect of one entry: fall through, a taken jump to a label, or an
    entry this model gives no meaning to. *)
Inductive step_result : Type :=
| Next (m : machine)
| Jump (label : Z) (m : machine)
| Stuck.

Definition alu (op : bpf_alu_op) (a b : Z) : Z :=
  match op with
  | BPF_ADD => a + b
  | BPF_SUB => a - b
  | BPF_NEG => - a
  end.

(** Modelled from the spec: the meaning of the emitted entries. BPF_ALU
    operates on the low 32 bits and zero-extends, BPF_ALU64 on 64 bits; a
    byte load from the frame zero-extends; a conditional jump compares the
    register with the sign-extended immediate; [ir_emit_bzero] zero-fills
    [len] bytes of the frame from [offset]. Helper calls and the symbol
    movers are not given a meaning here. *)
Definition step (v : vinsn) (m : machine) : step_result :=
  match v with
  | VI_INSN (LDX BPF_B off) dst src =>
      if src =? BPF_REG_BP then Next (set_reg m dst (stk m off mod 256))
      else Stuck
  | VI_INSN (ALU op) dst src =>
      Next (set_reg m dst (u32 (alu op (regs m dst) (regs m src))))
  | VI_INSN (ALU_IMM op imm) dst _ =>
      Next (set_reg m dst (u32 (alu op (regs m dst) imm)))
  | VI_INSN (ALU64_IMM op imm) dst _ =>
      Next (set_reg m dst (u64 (alu op (regs m dst) imm)))
  | VI_INSN (MOV_IMM imm) dst _ => Next (set_reg m dst (u64 imm))
  | VI_INSN (JMP_IMM BPF_JA _ l) _ _ => Jump l m
  | VI_INSN (JMP_IMM BPF_JEQ imm l) dst _ =>
      if regs m dst =? u64 imm then Jump l m else Next m
  | VI_INSN (JMP_IMM BPF_JNE imm l) dst _ =>
      if regs m dst =? u64 imm then Next m else Jump l m
  | VI_LABEL _ => Next m
  | VI_BZERO offset len =>
      Next (mk_machine (regs m)
              (fun o => if (offset <=? o) && (o <? offset + len) then 0
                        else stk m o))
  | _ => Stuck
  end.

(** Run a stream whose jumps all go forward: after a taken jump to [l]
    ([pending = Some l]) entries are skipped up to the label [l]. [None]
    when an entry is stuck or a jump target is not in the stream. *)
Fixpoint run (p : list vinsn) (pending : option Z) (m : machine)
  : option machine :=
  match p with
  | [] => match pending with None => Some m | Some _ => None end
  | v :: p' =>
      match pending with
      | Some l =>
          match v with
          | VI_LABEL l' => if l =? l' then run p' None m
                           else run p' pending m
          | _ => run p' pending m
          end
      | None =>
          match step v m with
          | Next m' => run p' None m'
          | Jump l m' => run p' (Some l) m'
          | Stuck => None
          end
      end
  end.

(** * Properties *)

Definition rc_of (o : outcome) : option Z :=
  match o with
  | Returned rc _ => Some rc
  | _ => None
  end.

(** A hook succeeds when it returns 0. *)
Definition succeeds (o : outcome) : Prop := exists st, o = Returned 0 st.

(** The node is an expression of the subscript operator. *)
Definition is_subscript_expr (n : option node) : Prop :=
  exists id l s i args, n = Some (Expr id l s "[]" i args).

Lemma node_is_subscript (n : option node) :
  node_is n "[]" = true <-> is_subscript_expr n.
Proof.
  unfold is_subscript_expr. split.
  - destruct n as [[id l s f i args | |] |]; simpl; try discriminate.
    intros H. apply String.eqb_eq in H. subst f. now exists id, l, s, i, args.
  - intros (id & l & s & i & args & ->). reflexivity.
Qed.

(** ** Static validation of an assignment (C5) *)

(** C5. Static validation of an assignment succeeds exactly when the
    left-hand side is a subscript expression (a map subscript, as far as the
    structure of the graph tells); any other left-hand side is rejected with
    [-EINVAL] and one error diagnostic at the assignment. The verdict does
    not depend on the state, hence on no symbol's type, so it is available
    before type inference has run. *)
Theorem assign_static_validate_subscript_only (n : node) (st : state) :
  (succeeds (assign_static_validate n st) <-> is_subscript_expr (arg n 0))
  /\ (~ is_subscript_expr (arg n 0) <->
      exists st',
        assign_static_validate n st = Returned (- EINVAL) st'
        /\ diags st' =
           (diags st
            ++ [mk_diag Error (node_addr n) "can't assign a value to %N.\n"])%list
        /\ syms st' = syms st /\ types st' = types st)
  /\ (forall st2,
         rc_of (assign_static_validate n st2)
         = rc_of (assign_static_validate n st)).
Proof.
  unfold assign_static_validate, succeeds.
  rewrite <- node_is_subscript.
  destruct (node_is (arg n 0) "[]") eqn:E.
  - split; [| split].
    + split; [reflexivity | intros _; now exists st].
    + split; [intros H; now elim H | intros (st' & H & _); discriminate H].
    + reflexivity.
  - split; [| split].
    + split; [intros (st' & H); discriminate H | discriminate].
    + split; [| discriminate].
      intros _. eexists. split; [reflexivity |]. simpl. auto.
    + reflexivity.
Qed.

(** ** Stack residence of the operands of [strcmp] (C10) *)

(** The operands of [strcmp_ir_post] after the literal swap. *)
Definition strcmp_swapped (a0 b0 : node) : node * node :=
  match node_ntype a0 with
  | N_STRING => (b0, a0)
  | _ => (a0, b0)
  end.

Lemma string_data_ntype (b : node) :
  string_data b = None <-> node_ntype b <> N_STRING.
Proof.
  destruct b; simpl; split; congruence.
Qed.

(** C10. Code generation of [strcmp] ends in a failed assertion, with the
    state as it was (no diagnostic is reported), exactly when the first
    operand after the literal swap is not on the stack, or the second
    operand is not a string literal and is not on the stack. *)
Theorem strcmp_ir_post_asserts_stack_operands
        (id : node_id) (l : Z) (s : option sym_id) (f : string) (i : bool)
        (a0 b0 : node) (rest : list node) (st : state) (ya yb : sym_id) :
  node_sym (fst (strcmp_swapped a0 b0)) = Some ya ->
  node_sym (snd (strcmp_swapped a0 b0)) = Some yb ->
  strcmp_ir_post (Expr id l s f i (a0 :: b0 :: rest)) st = Aborted st
  <-> (sym_on_stack (syms st ya) = false
       \/ (node_ntype (snd (strcmp_swapped a0 b0)) <> N_STRING
           /\ sym_on_stack (syms st yb) = false)).
Proof.
  intros Ha Hb. unfold strcmp_ir_post, arg. simpl.
  unfold strcmp_swapped in *.
  rewrite <- string_data_ntype.
  destruct (node_ntype a0); simpl in Ha, Hb |- *; rewrite Ha, Hb;
    destruct (sym_on_stack (syms st ya)); simpl;
      try (split; [intros _; now left | reflexivity]).
  all: match goal with
       | |- context [string_data ?b] => destruct (string_data b) eqn:Eb
       end; simpl.
  all: destruct (sym_on_stack (syms st yb)); simpl.
  all: try (split; [intros _; right; split; reflexivity | reflexivity]).
  all: split;
    [ destruct s; discriminate
    | intros [H | [H1 H2]]; congruence ].
Qed.

(** ** Bookkeeping lemmas on the state *)

Lemma type_of_set_sym_type (st : state) (a y : sym_id) (v : option type) :
  type_of (set_sym_type st a v) y = if Nat.eqb a y then v else type_of st y.
Proof.
  unfold type_of, set_sym_type, upd. simpl. now destruct (Nat.eqb a y).
Qed.

Lemma type_of_set_sym_type_same (st : state) (a : sym_id) (v : option type) :
  type_of (set_sym_type st a v) a = v.
Proof.
  rewrite type_of_set_sym_type. now rewrite Nat.eqb_refl.
Qed.

Lemma type_of_set_sym_type_other (st : state) (a y : sym_id)
      (v : option type) :
  a <> y -> type_of (set_sym_type st a v) y = type_of st y.
Proof.
  intros H. rewrite type_of_set_sym_type.
  apply Nat.eqb_neq in H. now rewrite H.
Qed.

Lemma type_of__ne (st : state) (n : node) (f : string) (y : sym_id) :
  type_of (_ne st n f) y = type_of st y.
Proof. reflexivity. Qed.

Lemma type_of__nw (st : state) (n : node) (f : string) (y : sym_id) :
  type_of (_nw st n f) y = type_of st y.
Proof. reflexivity. Qed.

Lemma type_of_set_virtual (st : state) (n : node) (y : sym_id) :
  type_of (set_virtual st n) y = type_of st y.
Proof. reflexivity. Qed.

Lemma type_of_type_add (st : state) (t : type) (y : sym_id) :
  type_of (type_add st t) y = type_of st y.
Proof. reflexivity. Qed.

Lemma typed_true (st : state) (y : sym_id) :
  typed st y = true <-> exists t, type_of st y = Some t.
Proof.
  unfold typed. destruct (type_of st y).
  - split; [eauto | reflexivity].
  - split; [discriminate | intros [t H]; discriminate].
Qed.

Lemma typed_false (st : state) (y : sym_id) :
  typed st y = false <-> type_of st y = None.
Proof.
  unfold typed. destruct (type_of st y); split; congruence.
Qed.

Lemma typed_some (st : state) (y : sym_id) (t : type) :
  type_of st y = Some t -> typed st y = true.
Proof. intros H. unfold typed. now rewrite H. Qed.

(** The state an outcome carries keeps the type [t] of symbol [y]. *)
Definition keeps_type (o : outcome) (y : sym_id) (t : option type) : Prop :=
  match o with
  | Returned _ st | Aborted st => type_of st y = t
  | Crashed => True
  end.

Ltac break_match :=
  match goal with
  | |- context [match ?x with _ => _ end] => destruct x eqn:?
  end.

Ltac types_simpl :=
  repeat first
         [ rewrite type_of__ne
         | rewrite type_of__nw
         | rewrite type_of_set_virtual
         | rewrite type_of_type_add ].

(** ** String comparison typing (C2) *)

(** The warning [strcmp_type_infer] raises for operand [s]: none for a
    string literal or a string-typed operand. *)
Definition strcmp_warning (n s : node) (st : state) : list diag :=
  match node_ntype s with
  | N_STRING => []
  | _ =>
      match node_sym s with
      | Some y =>
          match type_of st y with
          | Some t =>
              if type_is_string t then []
              else [mk_diag Warning (node_addr n)
                            "'%N' is of type '%T', a string was expected."]
          | None => []
          end
      | None => []
      end
  end.

Lemma strcmp_check_operand_spec (n s : node) (st : state) (y : sym_id)
      (t : type) :
  node_sym s = Some y -> type_of st y = Some t ->
  exists st',
    strcmp_check_operand n s st = Some st'
    /\ syms st' = syms st /\ types st' = types st /\ ir st' = ir st
    /\ diags st' = (diags st ++ strcmp_warning n s st)%list.
Proof.
  intros Hs Ht. unfold strcmp_check_operand, strcmp_warning.
  rewrite Hs, Ht.
  destruct (node_ntype s); simpl.
  - destruct (type_is_string t); simpl; eexists; split; try reflexivity;
      simpl; repeat split; now rewrite ?app_nil_r.
  - destruct (type_is_string t); simpl; eexists; split; try reflexivity;
      simpl; repeat split; now rewrite ?app_nil_r.
  - eexists; split; [reflexivity |]. simpl. repeat split.
    now rewrite app_nil_r.
Qed.

(** C2 (amended). When both operands of an untyped [strcmp] node have known
    types, type inference succeeds and gives the node the signed integer
    type [t_int], whatever the operand types are: an operand that is
    neither a string literal nor string-typed only raises a warning. No
    error is reported, no other symbol changes type and the type registry
    is untouched. *)
Theorem strcmp_type_infer_types_int (n s0 s1 : node) (st : state)
        (ns y0 y1 : sym_id) (t0 t1 : type) :
  node_sym n = Some ns -> type_of st ns = None ->
  arg n 0 = Some s0 -> arg n 1 = Some s1 ->
  node_sym s0 = Some y0 -> node_sym s1 = Some y1 ->
  type_of st y0 = Some t0 -> type_of st y1 = Some t1 ->
  exists st',
    strcmp_type_infer n st = Returned 0 st'
    /\ type_of st' ns = Some t_int
    /\ (forall y, y <> ns -> type_of st' y = type_of st y)
    /\ types st' = types st
    /\ diags st' =
       (diags st ++ strcmp_warning n s0 st ++ strcmp_warning n s1 st)%list
    /\ Forall (fun d => sev d = Warning)
              (strcmp_warning n s0 st ++ strcmp_warning n s1 st).
Proof.
  intros Hn Hnt Ha0 Ha1 Hs0 Hs1 Ht0 Ht1.
  unfold strcmp_type_infer.
  rewrite Hn. apply typed_false in Hnt. rewrite Hnt.
  rewrite Ha0, Ha1, Hs0, Hs1.
  rewrite (typed_some _ _ _ Ht0), (typed_some _ _ _ Ht1). simpl.
  destruct (strcmp_check_operand_spec n s0 st y0 t0 Hs0 Ht0)
    as (st1 & E1 & Hsy1 & Hty1 & Hir1 & Hd1).
  rewrite E1.
  assert (Ht1' : type_of st1 y1 = Some t1)
    by (unfold type_of; now rewrite Hsy1).
  destruct (strcmp_check_operand_spec n s1 st1 y1 t1 Hs1 Ht1')
    as (st2 & E2 & Hsy2 & Hty2 & Hir2 & Hd2).
  rewrite E2.
  assert (W1 : strcmp_warning n s1 st1 = strcmp_warning n s1 st).
  { unfold strcmp_warning, type_of. now rewrite Hsy1. }
  eexists. split; [reflexivity |].
  split; [apply type_of_set_sym_type_same |].
  split.
  { intros y Hy. rewrite type_of_set_sym_type_other by congruence.
    unfold type_of. now rewrite Hsy2, Hsy1. }
  split; [simpl; congruence |].
  split.
  { simpl. rewrite Hd2, Hd1, W1. now rewrite app_assoc. }
  apply Forall_app. split.
  - unfold strcmp_warning.
    repeat break_match; constructor; try reflexivity; constructor.
  - unfold strcmp_warning.
    repeat break_match; constructor; try reflexivity; constructor.
Qed.

(** ** Typed symbols keep their type *)

Ltac untyped_contra :=
  match goal with
  | H : typed ?st ?a = false, H' : type_of ?st ?a = Some _ |- _ =>
      apply typed_false in H; congruence
  | H : type_of ?st ?a = None, H' : type_of ?st ?a = Some _ |- _ =>
      congruence
  end.

Ltac keeps_step :=
  first
    [ assumption
    | progress types_simpl
    | rewrite type_of_set_sym_type_other;
      [| let E := fresh in intros E; subst; untyped_contra ] ].

Ltac norm_negb :=
  repeat match goal with
         | H : negb _ = true |- _ => apply negb_true_iff in H
         | H : negb _ = false |- _ => apply negb_false_iff in H
         end.

Ltac solve_keeps := norm_negb; simpl; try exact I; repeat keeps_step.

Lemma strcmp_check_operand_type_of (n s : node) (st st' : state)
      (y : sym_id) :
  strcmp_check_operand n s st = Some st' -> type_of st' y = type_of st y.
Proof.
  unfold strcmp_check_operand.
  repeat break_match; intros H; inversion H; subst; reflexivity.
Qed.

Lemma strcmp_type_infer_keeps (n : node) (st : state) (y : sym_id)
      (t : type) :
  type_of st y = Some t -> keeps_type (strcmp_type_infer n st) y (Some t).
Proof.
  intros Hy. unfold strcmp_type_infer.
  repeat break_match; solve_keeps.
  erewrite strcmp_check_operand_type_of by eassumption.
  erewrite strcmp_check_operand_type_of by eassumption.
  assumption.
Qed.

Lemma mem_type_infer_keeps (n : node) (st : state) (y : sym_id) (t : type) :
  type_of st y = Some t -> keeps_type (mem_type_infer n st) y (Some t).
Proof.
  intros Hy. unfold mem_type_infer.
  repeat break_match; solve_keeps.
Qed.

Lemma struct_deref_type_infer_keeps (n : node) (st : state) (y : sym_id)
      (t : type) :
  type_of st y = Some t ->
  keeps_type (struct_deref_type_infer n st) y (Some t).
Proof.
  intros Hy. unfold struct_deref_type_infer.
  repeat break_match; solve_keeps.
Qed.

Lemma struct_dot_type_infer_keeps (n : node) (st : state) (y : sym_id)
      (t : type) :
  type_of st y = Some t -> keeps_type (struct_dot_type_infer n st) y (Some t).
Proof.
  intros Hy. unfold struct_dot_type_infer.
  repeat break_match; solve_keeps.
Qed.

Lemma deref_type_infer_keeps (n : node) (st : state) (y : sym_id)
      (t : type) :
  type_of st y = Some t -> keeps_type (deref_type_infer n st) y (Some t).
Proof.
  intros Hy. unfold deref_type_infer.
  repeat break_match; solve_keeps.
Qed.

Lemma subscript_type_infer_keeps (n : node) (st : state) (y : sym_id)
      (t : type) :
  type_of st y = Some t -> keeps_type (subscript_type_infer n st) y (Some t).
Proof.
  intros Hy.
  unfold subscript_type_infer, subscript_type_infer_up,
    subscript_type_infer_down.
  repeat break_match; solve_keeps.
Qed.

Lemma assign_type_infer_keeps (n : node) (st : state) (y : sym_id)
      (t : type) :
  type_of st y = Some t -> keeps_type (assign_type_infer n st) y (Some t).
Proof.
  intros Hy. unfold assign_type_infer.
  repeat break_match; solve_keeps.
Qed.

Lemma struct_type_infer_keeps (n : node) (st : state) (y : sym_id)
      (t : type) :
  node_sym n <> Some y ->
  type_of st y = Some t -> keeps_type (struct_type_infer n st) y (Some t).
Proof.
  intros Hn Hy. unfold struct_type_infer.
  repeat break_match; simpl; try exact I; try assumption.
  rewrite type_of_set_sym_type_other by congruence.
  now rewrite type_of_type_add.
Qed.

(** No type inference hook of this file changes the type of a symbol that
    is already typed; the struct literal, which has no such guard, may only
    retype its own symbol. *)
Lemma type_infer_keeps_types (f : func) (n : node) (st : state)
      (y : sym_id) (t : type) :
  In f built_ins ->
  (name f = ":struct" -> node_sym n <> Some y) ->
  type_of st y = Some t ->
  keeps_type (run_hook (type_infer f) n st) y (Some t).
Proof.
  intros Hf Hs Hy. unfold built_ins in Hf. simpl in Hf.
  repeat (destruct Hf as [<- | Hf]); simpl;
    auto using strcmp_type_infer_keeps, mem_type_infer_keeps,
      struct_deref_type_infer_keeps, struct_dot_type_infer_keeps,
      deref_type_infer_keeps, subscript_type_infer_keeps,
      assign_type_infer_keeps.
  - apply struct_type_infer_keeps; auto.
  - contradiction.
Qed.

(** ** Map materialization (C6) *)

(** Upward inference over a typed map: the subscript gets the map's value
    type. *)
Lemma subscript_type_infer_map_value (n src key : node) (st : state)
      (ns ysrc ykey : sym_id) (tk tv tk2 : type) (mt : bpf_map_type)
      (len : Z) :
  arg n 0 = Some src -> arg n 1 = Some key ->
  node_sym n = Some ns -> node_sym src = Some ysrc ->
  node_sym key = Some ykey ->
  type_of st ysrc = Some (Tmap tk tv mt len) ->
  type_of st ns = None -> type_of st ykey = Some tk2 ->
  subscript_type_infer n st = Returned 0 (set_sym_type st ns (Some tv)).
Proof.
  intros Ha0 Ha1 Hn Hs Hk Hts Htn Htk.
  unfold subscript_type_infer, subscript_type_infer_up.
  rewrite Ha0, Ha1, Hk, Hn, Hs.
  rewrite (typed_some _ _ _ Htk), (typed_some _ _ _ Hts).
  apply typed_false in Htn. rewrite Htn. simpl.
  rewrite Hts, Htk. simpl.
  now rewrite andb_false_r.
Qed.

(** C6. A subscript node whose own type is set (by the assignment above
    it) and whose key is typed, over a symbol that is still untyped, gives
    that symbol the map type built from the key type and the node's type,
    with hash-table backing. From then on the map's type is fixed: no type
    inference hook of this file changes it again, and every other subscript
    of the same symbol whose own type is still open receives this value
    type. *)
Theorem subscript_type_infer_materializes_map
        (n src key : node) (st : state) (ns ysrc ykey : sym_id)
        (tv tk : type) :
  arg n 0 = Some src -> arg n 1 = Some key ->
  node_sym n = Some ns -> node_sym src = Some ysrc ->
  node_sym key = Some ykey ->
  type_of st ns = Some tv -> type_of st ykey = Some tk ->
  type_of st ysrc = None ->
  exists st',
    subscript_type_infer n st = Returned 0 st'
    /\ type_of st' ysrc = Some (Tmap tk tv BPF_MAP_TYPE_HASH 0)
    /\ (forall y, y <> ysrc -> type_of st' y = type_of st y)
    /\ types st' = types st /\ diags st' = diags st
    /\ (forall f n2 st2,
           In f built_ins ->
           (name f = ":struct" -> node_sym n2 <> Some ysrc) ->
           type_of st2 ysrc = type_of st' ysrc ->
           keeps_type (run_hook (type_infer f) n2 st2) ysrc
                      (Some (Tmap tk tv BPF_MAP_TYPE_HASH 0)))
    /\ (forall n2 src2 key2 ns2 yk2 tk2 st2,
           arg n2 0 = Some src2 -> arg n2 1 = Some key2 ->
           node_sym n2 = Some ns2 -> node_sym src2 = Some ysrc ->
           node_sym key2 = Some yk2 ->
           type_of st2 ysrc = type_of st' ysrc ->
           type_of st2 ns2 = None -> type_of st2 yk2 = Some tk2 ->
           exists st3,
             subscript_type_infer n2 st2 = Returned 0 st3
             /\ type_of st3 ns2 = Some tv
             /\ type_of st3 ysrc = Some (Tmap tk tv BPF_MAP_TYPE_HASH 0)).
Proof.
  intros Ha0 Ha1 Hn Hs Hk Htn Htk Hts.
  exists (set_sym_type st ysrc (Some (type_map_of tk tv BPF_MAP_TYPE_HASH 0))).
  assert (Hm : type_of (set_sym_type st ysrc
                          (Some (type_map_of tk tv BPF_MAP_TYPE_HASH 0))) ysrc
               = Some (Tmap tk tv BPF_MAP_TYPE_HASH 0))
    by apply type_of_set_sym_type_same.
  split.
  { unfold subscript_type_infer, subscript_type_infer_down.
    rewrite Ha0, Ha1, Hk, Hn, Hs.
    rewrite (typed_some _ _ _ Htk), (typed_some _ _ _ Htn).
    apply typed_false in Hts. rewrite Hts. simpl.
    now rewrite Htk, Htn. }
  split; [exact Hm |].
  split; [intros y Hy; now apply type_of_set_sym_type_other |].
  split; [reflexivity |]. split; [reflexivity |].
  split.
  - intros f n2 st2 Hf Hstruct H2. rewrite Hm in H2.
    now apply type_infer_keeps_types.
  - intros n2 src2 key2 ns2 yk2 tk2 st2 Hb0 Hb1 Hn2 Hs2 Hk2 H2 Hu Htk2.
    rewrite Hm in H2.
    exists (set_sym_type st2 ns2 (Some tv)).
    split.
    { eapply subscript_type_infer_map_value; eassumption. }
    split; [apply type_of_set_sym_type_same |].
    rewrite type_of_set_sym_type_other; [assumption |].
    intros ->. congruence.
Qed.

(** ** Re-running type inference (C1) *)

(** A property of every node of a graph. *)
Fixpoint forall_nodes (p : node -> bool) (n : node) : bool :=
  p n
  && match n with
     | Expr _ _ _ _ _ args =>
         (fix all (args : list node) : bool :=
            match args with
            | [] => true
            | a :: args' => forall_nodes p a && all args'
            end) args
     | _ => true
     end.

(** The node has a symbol and the symbol has a type. *)
Definition node_typed (st : state) (n : node) : bool :=
  match node_sym n with
  | Some y => typed st y
  | None => false
  end.

(** Every node of the graph is typed. *)
Definition graph_typed (st : state) (n : node) : bool :=
  forall_nodes (node_typed st) n.

(** No node of the graph is a struct literal. *)
Definition no_struct_literal (n : node) : bool :=
  forall_nodes (fun n => negb (node_is (Some n) ":struct")) n.

(** Every subscript of the graph has its two arguments. *)
Definition subscripts_binary (n : node) : bool :=
  forall_nodes
    (fun n => if node_is (Some n) "[]"
              then (2 <=? List.length (node_args n))%nat
              else true) n.

(** A subscript node that downward inference has nothing to do for: both
    arguments are there with their symbols, and the subscripted symbol is
    typed or the key is not. *)
Definition subscript_settled (st : state) (n : node) : bool :=
  match arg n 0, arg n 1 with
  | Some src, Some key =>
      match node_sym src, node_sym key with
      | Some ysrc, Some ykey => typed st ysrc || negb (typed st ykey)
      | _, _ => false
      end
  | _, _ => false
  end.

Lemma node_forall_ind (P : node -> Prop) :
  (forall id l s f i args, Forall P args -> P (Expr id l s f i args)) ->
  (forall id l s v, P (Num id l s v)) ->
  (forall id l s d, P (Str id l s d)) ->
  forall n, P n.
Proof.
  intros HE HN HS.
  refine (fix IH (n : node) : P n :=
            match n with
            | Expr id l s f i args =>
                HE id l s f i args
                   ((fix go (a : list node) : Forall P a :=
                       match a with
                       | [] => Forall_nil P
                       | x :: a' => Forall_cons x (IH x) (go a')
                       end) args)
            | Num id l s v => HN id l s v
            | Str id l s d => HS id l s d
            end).
Qed.

Lemma func_get_some (fname : string) (f : func) :
  func_get fname = Some f -> In f built_ins /\ name f = fname.
Proof.
  unfold func_get. intros H. apply find_some in H.
  destruct H as [H1 H2]. apply String.eqb_eq in H2. auto.
Qed.

Lemma subscript_type_infer_settled (n : node) (ns : sym_id) (st : state) :
  node_sym n = Some ns -> typed st ns = true ->
  subscript_settled st n = true ->
  subscript_type_infer n st = Returned 0 st.
Proof.
  intros Hn Ht. unfold subscript_settled, subscript_type_infer.
  destruct (arg n 0) as [src |]; [| discriminate].
  destruct (arg n 1) as [key |]; [| discriminate].
  destruct (node_sym src) as [ysrc |]; [| discriminate].
  destruct (node_sym key) as [ykey |]; [| discriminate].
  rewrite Hn, Ht. simpl.
  destruct (typed st ykey); simpl; [| reflexivity].
  rewrite orb_false_r. now intros ->.
Qed.

(** A hook of this file other than the struct literal's, run on a node
    whose symbol is typed, returns 0 and leaves the state as it was. *)
Lemma type_infer_hook_typed_noop (f : func) (n : node) (ns : sym_id)
      (st : state) :
  In f built_ins -> name f <> ":struct" ->
  node_sym n = Some ns -> typed st ns = true ->
  (name f = "[]" -> subscript_settled st n = true) ->
  run_hook (type_infer f) n st = Returned 0 st.
Proof.
  intros Hf Hstruct Hn Ht Hsub. unfold built_ins in Hf. simpl in Hf.
  repeat (destruct Hf as [<- | Hf]); simpl in *;
    try (unfold strcmp_type_infer, mem_type_infer, struct_deref_type_infer,
         struct_dot_type_infer, deref_type_infer, assign_type_infer;
         now rewrite Hn, Ht).
  - apply subscript_type_infer_settled with ns; auto.
  - now elim Hstruct.
  - reflexivity.
  - contradiction.
Qed.

Lemma forall_nodes_expr (p : node -> bool) (id : node_id) (l : Z)
      (s : option sym_id) (f : string) (i : bool) (args : list node) :
  forall_nodes p (Expr id l s f i args)
  = p (Expr id l s f i args) && forallb (forall_nodes p) args.
Proof.
  reflexivity.
Qed.

Lemma node_typed_sym (st : state) (n : node) :
  node_typed st n = true ->
  exists y, node_sym n = Some y /\ typed st y = true.
Proof.
  unfold node_typed. destruct (node_sym n) as [y |]; [| discriminate].
  intros H. now exists y.
Qed.

Lemma forall_nodes_here (p : node -> bool) (n : node) :
  forall_nodes p n = true -> p n = true.
Proof.
  destruct n; simpl; intros H; apply andb_true_iff in H;
    destruct H as [H _]; exact H.
Qed.

(** One pass over a graph in which every node is typed, with no struct
    literal, changes nothing. *)
Lemma type_infer_pass_typed_noop (g : node) (st : state) :
  graph_typed st g = true -> no_struct_literal g = true ->
  subscripts_binary g = true ->
  type_infer_pass g st = Returned 0 st.
Proof.
  unfold graph_typed, no_struct_literal, subscripts_binary.
  induction g as [id l s f i args IH | |] using node_forall_ind;
    [| reflexivity | reflexivity].
  rewrite !forall_nodes_expr. intros Ht Hs Hb.
  apply andb_true_iff in Ht. destruct Ht as [Ht Hta].
  apply andb_true_iff in Hs. destruct Hs as [Hs Hsa].
  apply andb_true_iff in Hb. destruct Hb as [Hb Hba].
  assert (Hargs :
            (fix pass_args (args : list node) (st : state) : outcome :=
               match args with
               | [] => Returned 0 st
               | a :: args' =>
                   and_then (type_infer_pass a st) (pass_args args')
               end) args st = Returned 0 st).
  { clear Ht Hs Hb.
    induction args as [| a args IHa]; [reflexivity |].
    simpl in Hta, Hsa, Hba.
    apply andb_true_iff in Hta. destruct Hta as [Hta1 Hta2].
    apply andb_true_iff in Hsa. destruct Hsa as [Hsa1 Hsa2].
    apply andb_true_iff in Hba. destruct Hba as [Hba1 Hba2].
    inversion IH as [| ? ? IH1 IH2]; subst.
    rewrite (IH1 Hta1 Hsa1 Hba1). simpl.
    now apply IHa. }
  simpl type_infer_pass. rewrite Hargs. simpl.
  unfold hook_of. destruct (func_get f) as [fn |] eqn:Ef; [| reflexivity].
  apply func_get_some in Ef. destruct Ef as [Hin Hname].
  apply node_typed_sym in Ht. destruct Ht as (ns & Hns & Hty).
  apply type_infer_hook_typed_noop with ns; auto.
  - rewrite Hname. simpl in Hs. apply negb_true_iff in Hs.
    now apply String.eqb_neq in Hs.
  - intros Hsub. subst f. rewrite Hsub in Hb |- *.
    simpl in Hb.
    destruct args as [| src [| key rest]]; try discriminate.
    simpl in Hta.
    apply andb_true_iff in Hta. destruct Hta as [Hsrc Hta].
    apply andb_true_iff in Hta. destruct Hta as [Hkey _].
    apply forall_nodes_here in Hsrc. apply forall_nodes_here in Hkey.
    apply node_typed_sym in Hsrc. destruct Hsrc as (ysrc & Hy1 & Ht1).
    apply node_typed_sym in Hkey. destruct Hkey as (ykey & Hy2 & Ht2).
    unfold subscript_settled, arg. simpl.
    now rewrite Hy1, Hy2, Ht1.
Qed.

(** C1 (amended). For a node whose symbol is typed, the type inference
    hook of [strcmp], [mem], [str], [->], [.], [u*] and [=] returns at once
    and mutates nothing, and so does the hook of [[]] unless the key is
    typed and the subscripted symbol is not (it then types the map, C6).
    Consequently one pass of type inference over a fully typed graph
    without struct literals leaves the whole state, hence every symbol and
    the type registry, as it was. *)
Theorem type_infer_typed_graph_is_fixed (st : state) :
  (forall f n ns,
      In f built_ins -> name f <> ":struct" ->
      node_sym n = Some ns -> typed st ns = true ->
      (name f = "[]" -> subscript_settled st n = true) ->
      run_hook (type_infer f) n st = Returned 0 st)
  /\ (forall g,
         graph_typed st g = true -> no_struct_literal g = true ->
         subscripts_binary g = true ->
         type_infer_pass g st = Returned 0 st).
Proof.
  split.
  - intros f n ns. apply type_infer_hook_typed_noop.
  - intros g. apply type_infer_pass_typed_noop.
Qed.

(** ** Rewrite of the pointer member access *)

(** The structure of a graph: nodes without their addresses, source
    locations and symbols. *)
Inductive shape : Type :=
| SExpr (func : string) (ident : bool) (args : list shape)
| SNum (v : Z)
| SStr (data : string).

Fixpoint shape_of (n : node) : shape :=
  match n with
  | Expr _ _ _ f i args => SExpr f i (map shape_of args)
  | Num _ _ _ v => SNum v
  | Str _ _ _ d => SStr d
  end.

(** The graph of [( *p ).m] for an operand [p] and a member name [m]. *)
Definition deref_dot_shape (p : shape) (m : string) : shape :=
  SExpr "." false [SExpr "u*" false [p]; SStr m].

(** What the rewrite builds: below the dereference stands a fresh
    identifier named by the operator of the operand, whatever the
    operand's arguments are. *)
Lemma struct_deref_rewrite_result
      (id : node_id) (l : Z) (s : option sym_id) (f : string) (i : bool)
      (sid : node_id) (sl : Z) (ss : option sym_id) (sf : string)
      (si : bool) (sargs : list node)
      (mid : node_id) (ml : Z) (ms : option sym_id) (md : string)
      (brk : node_id) :
  exists new,
    struct_deref_rewrite
      (Expr id l s f i [Expr sid sl ss sf si sargs; Str mid ml ms md]) brk
    = Some (1, new, (brk + 4)%nat)
    /\ shape_of new = deref_dot_shape (SExpr sf true []) md.
Proof.
  eexists. split; reflexivity.
Qed.

(** For an operand that is an identifier the replacement is the graph of
    [( *p ).m]. *)
Lemma struct_deref_rewrite_ident
      (id : node_id) (l : Z) (s : option sym_id) (f : string) (i : bool)
      (sid : node_id) (sl : Z) (ss : option sym_id) (sf : string)
      (mid : node_id) (ml : Z) (ms : option sym_id) (md : string)
      (brk : node_id) :
  exists new,
    struct_deref_rewrite
      (Expr id l s f i [Expr sid sl ss sf true []; Str mid ml ms md]) brk
    = Some (1, new, (brk + 4)%nat)
    /\ shape_of new
       = deref_dot_shape (shape_of (Expr sid sl ss sf true [])) md.
Proof.
  eexists. split; reflexivity.
Qed.

(** ** Code generation of the map subscript and of [delete] *)

(** The entries [subscript_ir_post_map] appends for a read: the lookup
    call, the branch on its result, the copy on a hit and the zero-fill on
    a miss. *)
Definition subscript_read_code (ymap : sym_id) (key_stack : Z) (ns : sym_id)
           (dst : irstate) (lmiss lhit : Z) : list vinsn :=
  [ VI_LDMAP BPF_REG_1 ymap;
    VI_LDBP BPF_REG_2 key_stack;
    VI_INSN (CALL BPF_FUNC_map_lookup_elem) 0 0;
    VI_INSN (JMP_IMM BPF_JEQ 0 lmiss) BPF_REG_0 0;
    VI_READ_TO_SYM ns dst BPF_REG_0;
    VI_INSN (JMP_IMM BPF_JA 0 lhit) 0 0;
    VI_LABEL lmiss;
    VI_BZERO (stack dst) (size dst);
    VI_LABEL lhit ].

(** Below anything but an assignment the subscript emits the read. *)
Lemma subscript_ir_post_map_read (up : option node) (n map key : node)
      (st : state) (ns ymap ykey : sym_id) :
  node_is up "=" = false ->
  arg n 0 = Some map -> arg n 1 = Some key ->
  node_sym n = Some ns -> node_sym map = Some ymap ->
  node_sym key = Some ykey ->
  let st1 := ir_init_sym (hint_stack_on st ns) ns in
  exists st',
    subscript_ir_post_map up n st = Returned 0 st'
    /\ syms st' = syms st1
    /\ vi (ir st') =
       (vi (ir st1)
        ++ subscript_read_code ymap (stack (irs (syms st ykey))) ns
             (irs (syms st1 ns)) (next_label (ir st1))
             (next_label (ir st1) - 1))%list.
Proof.
  intros Hup Ha0 Ha1 Hn Hm Hk st1.
  unfold subscript_ir_post_map.
  rewrite Ha0, Ha1, Hk, Hn, Hup, Hm. fold st1.
  eexists. split; [reflexivity |]. split; [reflexivity |].
  simpl. rewrite <- !app_assoc. reflexivity.
Qed.

(** Below an assignment the subscript emits nothing, whether it is the
    assignment's target or its source. *)
Lemma subscript_ir_post_map_skips_under_assign (up : option node)
      (n map key : node) (st : state) (ns ykey : sym_id) :
  node_is up "=" = true ->
  arg n 0 = Some map -> arg n 1 = Some key ->
  node_sym n = Some ns -> node_sym key = Some ykey ->
  subscript_ir_post_map up n st
  = Returned 0 (ir_init_sym (hint_stack_on st ns) ns).
Proof.
  intros Hup Ha0 Ha1 Hn Hk. unfold subscript_ir_post_map.
  now rewrite Ha0, Ha1, Hk, Hn, Hup.
Qed.

(** [delete_ir_post] itself appends the delete call on the key's
    storage. *)
Lemma delete_ir_post_code (n sub map key : node) (st : state)
      (ymap ykey : sym_id) (f : string) :
  arg n 0 = Some sub -> expr_func sub = Some f ->
  arg sub 0 = Some map -> arg sub 1 = Some key ->
  node_sym map = Some ymap -> node_sym key = Some ykey ->
  exists st',
    delete_ir_post n st = Returned 0 st'
    /\ syms st' = syms st
    /\ vi (ir st') =
       (vi (ir st)
        ++ [ VI_LDMAP BPF_REG_1 ymap;
             VI_LDBP BPF_REG_2 (stack (irs (syms st ykey)));
             VI_INSN (CALL BPF_FUNC_map_delete_elem) 0 0 ])%list.
Proof.
  intros Ha Hf Hs0 Hs1 Hm Hk. unfold delete_ir_post.
  rewrite Ha, Hf, Hs0, Hs1, Hm, Hk.
  eexists. split; [reflexivity |]. split; [reflexivity |].
  simpl. rewrite <- !app_assoc. reflexivity.
Qed.

(** ** The comparison emitted for [strcmp] (C3) *)

(** The entries one run of the loop of [strcmp_emit] appends. *)
Fixpoint strcmp_code (len : nat) (dst a b : Z) (blit : option string)
         (done : Z) : list vinsn :=
  match len with
  | O => []
  | S len' =>
      (VI_INSN (LDX BPF_B a) dst BPF_REG_BP
       :: match blit with
          | Some l => [VI_INSN (ALU_IMM BPF_SUB (deref_char l)) dst 0]
          | None => [VI_INSN (LDX BPF_B b) BPF_REG_1 BPF_REG_BP;
                     VI_INSN (ALU BPF_SUB) dst BPF_REG_1]
          end)
      ++ match len' with
         | O => []
         | S _ =>
             match blit with
             | None =>
                 VI_INSN (JMP_IMM BPF_JEQ 0 done) BPF_REG_1 0
                 :: VI_INSN (JMP_IMM BPF_JNE 0 done) dst 0
                 :: strcmp_code len' dst (a + 1) (b + 1) None done
             | Some l =>
                 if deref_char l =? 0 then []
                 else
                   VI_INSN (JMP_IMM BPF_JNE 0 done) dst 0
                   :: strcmp_code len' dst (a + 1) (b + 1)
                        (Some (next_char l)) done
             end
         end
  end.

Lemma emit_vi (st : state) (v : vinsn) :
  vi (ir (emit st v)) = (vi (ir st) ++ [v])%list.
Proof. reflexivity. Qed.

(** Emitting touches nothing but the stream. *)
Definition same_but_stream (st st' : state) : Prop :=
  syms st' = syms st /\ types st' = types st /\ virt st' = virt st
  /\ diags st' = diags st /\ next_label (ir st') = next_label (ir st)
  /\ sp (ir st') = sp (ir st).

Lemma same_but_stream_refl (st : state) : same_but_stream st st.
Proof. repeat split. Qed.

Lemma same_but_stream_emit (st st' : state) (v : vinsn) :
  same_but_stream st st' -> same_but_stream st (emit st' v).
Proof.
  unfold same_but_stream. simpl. tauto.
Qed.

Lemma strcmp_emit_loop_code (len : nat) :
  forall (dst a b : Z) (blit : option string) (done : Z) (st : state),
    vi (ir (strcmp_emit_loop len dst a b blit done st))
    = (vi (ir st) ++ strcmp_code len dst a b blit done)%list
    /\ same_but_stream st (strcmp_emit_loop len dst a b blit done st).
Proof.
  induction len as [| len IH]; intros dst a b blit done st.
  - simpl. rewrite app_nil_r. split; [reflexivity | apply same_but_stream_refl].
  - cbn [strcmp_emit_loop strcmp_code].
    destruct len as [| len'].
    + destruct blit as [l |]; unfold ir_emit_insn; rewrite ?emit_vi;
        rewrite <- ?app_assoc; simpl; split; try reflexivity;
          repeat apply same_but_stream_emit; apply same_but_stream_refl.
    + destruct blit as [l |].
      * destruct (deref_char l =? 0).
        -- unfold ir_emit_insn; rewrite ?emit_vi;
             rewrite <- ?app_assoc; simpl; split; try reflexivity;
               repeat apply same_but_stream_emit; apply same_but_stream_refl.
        -- match goal with
           | |- context [strcmp_emit_loop _ _ _ _ _ _ ?s] =>
               destruct (IH dst (a + 1) (b + 1) (Some (next_char l)) done s)
                 as [E S]
           end.
           rewrite E. unfold ir_emit_insn in *. rewrite ?emit_vi.
           rewrite <- ?app_assoc. simpl. split; [reflexivity |].
           unfold same_but_stream in *. simpl in S. exact S.
      * match goal with
        | |- context [strcmp_emit_loop _ _ _ _ _ _ ?s] =>
            destruct (IH dst (a + 1) (b + 1) None done s) as [E S]
        end.
        rewrite E. unfold ir_emit_insn in *. rewrite ?emit_vi.
        rewrite <- ?app_assoc. simpl. split; [reflexivity |].
        unfold same_but_stream in *. simpl in S. exact S.
Qed.

(** The bytes of the frame from [off] on. *)
Fixpoint frame_bytes (s : Z -> Z) (off : Z) (len : nat) : list Z :=
  match len with
  | O => []
  | S len' => s off mod 256 :: frame_bytes s (off + 1) len'
  end.

(** The byte a literal starts with; the terminating NUL when it is
    empty. *)
Definition first_byte (l : string) : Z :=
  match l with
  | EmptyString => 0
  | String c _ => Z.of_nat (nat_of_ascii c)
  end.

(** The first [len] bytes of a literal and its NUL padding. *)
Fixpoint literal_bytes (l : string) (len : nat) : list Z :=
  match len with
  | O => []
  | S len' => first_byte l :: literal_bytes (next_char l) len'
  end.

(** All characters of the literal are 7-bit. *)
Fixpoint ascii7 (l : string) : bool :=
  match l with
  | EmptyString => true
  | String c rest => (Z.of_nat (nat_of_ascii c) <? 128) && ascii7 rest
  end.

(** What the emitted comparison computes on two byte sequences: the
    difference at the first position where the bytes differ, the second
    sequence has a NUL, or the sequences end. *)
Fixpoint cmp_ref (A B : list Z) : Z :=
  match A, B with
  | x :: A', y :: B' =>
      match A' with
      | [] => x - y
      | _ :: _ =>
          if y =? 0 then x - y
          else if x - y =? 0 then cmp_ref A' B'
               else x - y
      end
  | _, _ => 0
  end.

Lemma regs_set_reg_same (m : machine) (r v : Z) : regs (set_reg m r v) r = v.
Proof. unfold set_reg, updz. simpl. now rewrite Z.eqb_refl. Qed.

Lemma regs_set_reg_other (m : machine) (r r' v : Z) :
  r <> r' -> regs (set_reg m r v) r' = regs m r'.
Proof.
  intros H. unfold set_reg, updz. simpl.
  apply Z.eqb_neq in H. now rewrite H.
Qed.

Lemma run_next (v : vinsn) (p : list vinsn) (m m' : machine) :
  step v m = Next m' -> run (v :: p) None m = run p None m'.
Proof. intros H. simpl. now rewrite H. Qed.

Lemma run_jump (v : vinsn) (p : list vinsn) (m m' : machine) (l : Z) :
  step v m = Jump l m' -> run (v :: p) None m = run p (Some l) m'.
Proof. intros H. simpl. now rewrite H. Qed.

Definition not_label (v : vinsn) : Prop :=
  match v with
  | VI_LABEL _ => False
  | _ => True
  end.

(** A pending jump skips everything up to its label. *)
Lemma run_skip (p rest : list vinsn) (l : Z) (m : machine) :
  Forall not_label p ->
  run (p ++ VI_LABEL l :: rest) (Some l) m = run rest None m.
Proof.
  induction 1 as [| v p Hv Hp IH]; simpl.
  - now rewrite Z.eqb_refl.
  - destruct v; simpl in Hv; try contradiction; exact IH.
Qed.

Lemma strcmp_code_no_label (len : nat) :
  forall dst a b blit done,
    Forall not_label (strcmp_code len dst a b blit done).
Proof.
  induction len as [| len IH]; intros dst a b blit done; simpl.
  - constructor.
  - constructor; [exact I |].
    destruct blit as [l |]; simpl.
    + constructor; [exact I |].
      destruct len; [constructor |].
      destruct (deref_char l =? 0); [constructor |].
      constructor; [exact I | apply IH].
    + constructor; [exact I |]. constructor; [exact I |].
      destruct len; [constructor |].
      constructor; [exact I |]. constructor; [exact I | apply IH].
Qed.

Lemma byte_range (x : Z) : 0 <= x mod 256 < 256.
Proof. apply Z.mod_pos_bound. lia. Qed.

Lemma u32_small_diff (d : Z) :
  - 256 < d < 256 -> (u32 d =? 0) = (d =? 0).
Proof.
  intros H. unfold u32.
  destruct (Z_lt_le_dec d 0) as [Hn | Hp].
  - replace (d mod 2 ^ 32) with (d + 2 ^ 32)
      by (apply Z.mod_unique with (q := -1); lia).
    destruct (Z.eqb_spec (d + 2 ^ 32) 0); destruct (Z.eqb_spec d 0); lia.
  - rewrite Z.mod_small by lia. reflexivity.
Qed.

Lemma s32_u32_small (d : Z) : - 256 < d < 256 -> s32 (u32 d) = d.
Proof.
  intros H. unfold s32, u32. rewrite Z.mod_mod by lia.
  destruct (Z_lt_le_dec d 0) as [Hn | Hp].
  - replace (d mod 2 ^ 32) with (d + 2 ^ 32)
      by (apply Z.mod_unique with (q := -1); lia).
    destruct (Z.ltb_spec (d + 2 ^ 32) (2 ^ 31)); lia.
  - rewrite Z.mod_small by lia.
    destruct (Z.ltb_spec d (2 ^ 31)); lia.
Qed.

Lemma u32_neg_u32 (d : Z) : u32 (- u32 d) = u32 (- d).
Proof.
  unfold u32.
  rewrite <- (Z.sub_0_l (d mod 2 ^ 32)), <- (Z.sub_0_l d).
  rewrite Zminus_mod_idemp_r. reflexivity.
Qed.

Lemma deref_char_ascii7 (l : string) :
  ascii7 l = true -> deref_char l = first_byte l.
Proof.
  destruct l as [| c rest]; simpl; [reflexivity |].
  intros H. apply andb_true_iff in H. destruct H as [H _].
  apply Z.ltb_lt in H.
  destruct (Z.leb_spec 128 (Z.of_nat (nat_of_ascii c))); [lia |].
  now rewrite andb_false_r.
Qed.

Lemma ascii7_next_char (l : string) :
  ascii7 l = true -> ascii7 (next_char l) = true.
Proof.
  destruct l as [| c rest]; simpl; [reflexivity |].
  intros H. apply andb_true_iff in H. tauto.
Qed.

Lemma first_byte_range (l : string) : 0 <= first_byte l < 256.
Proof.
  destruct l as [| c rest]; simpl; [lia |].
  pose proof (nat_ascii_bounded c). lia.
Qed.

(** The bytes the first operand is compared with: those of the second
    operand in the frame, or those of the literal. *)
Definition second_bytes (s : Z -> Z) (b : Z) (blit : option string)
           (len : nat) : list Z :=
  match blit with
  | None => frame_bytes s b len
  | Some l => literal_bytes l len
  end.

Lemma run_jeq (imm l dst src : Z) (p : list vinsn) (m : machine) :
  run (VI_INSN (JMP_IMM BPF_JEQ imm l) dst src :: p) None m
  = if regs m dst =? u64 imm then run p (Some l) m else run p None m.
Proof. simpl. now destruct (regs m dst =? u64 imm). Qed.

Lemma run_jne (imm l dst src : Z) (p : list vinsn) (m : machine) :
  run (VI_INSN (JMP_IMM BPF_JNE imm l) dst src :: p) None m
  = if regs m dst =? u64 imm then run p None m else run p (Some l) m.
Proof. simpl. now destruct (regs m dst =? u64 imm). Qed.

Lemma strcmp_code_mem_last (dst a b done : Z) :
  strcmp_code 1 dst a b None done
  = [ VI_INSN (LDX BPF_B a) dst BPF_REG_BP;
      VI_INSN (LDX BPF_B b) BPF_REG_1 BPF_REG_BP;
      VI_INSN (ALU BPF_SUB) dst BPF_REG_1 ].
Proof. reflexivity. Qed.

Lemma strcmp_code_mem_step (len : nat) (dst a b done : Z) :
  strcmp_code (S (S len)) dst a b None done
  = VI_INSN (LDX BPF_B a) dst BPF_REG_BP
    :: VI_INSN (LDX BPF_B b) BPF_REG_1 BPF_REG_BP
    :: VI_INSN (ALU BPF_SUB) dst BPF_REG_1
    :: VI_INSN (JMP_IMM BPF_JEQ 0 done) BPF_REG_1 0
    :: VI_INSN (JMP_IMM BPF_JNE 0 done) dst 0
    :: strcmp_code (S len) dst (a + 1) (b + 1) None done.
Proof. reflexivity. Qed.

Lemma strcmp_code_lit_last (dst a b done : Z) (l : string) :
  strcmp_code 1 dst a b (Some l) done
  = [ VI_INSN (LDX BPF_B a) dst BPF_REG_BP;
      VI_INSN (ALU_IMM BPF_SUB (deref_char l)) dst 0 ].
Proof. reflexivity. Qed.

Lemma strcmp_code_lit_step (len : nat) (dst a b done : Z) (l : string) :
  strcmp_code (S (S len)) dst a b (Some l) done
  = VI_INSN (LDX BPF_B a) dst BPF_REG_BP
    :: VI_INSN (ALU_IMM BPF_SUB (deref_char l)) dst 0
    :: (if deref_char l =? 0 then []
        else VI_INSN (JMP_IMM BPF_JNE 0 done) dst 0
             :: strcmp_code (S len) dst (a + 1) (b + 1)
                  (Some (next_char l)) done).
Proof. reflexivity. Qed.

(** Two machines agree on the frame and on every register but [dst] and
    the scratch register. *)
Definition agree_but (dst : Z) (m m' : machine) : Prop :=
  stk m' = stk m
  /\ forall r, r <> dst -> r <> BPF_REG_1 -> regs m' r = regs m r.

Lemma agree_but_trans (dst : Z) (m1 m2 m3 : machine) :
  agree_but dst m1 m2 -> agree_but dst m2 m3 -> agree_but dst m1 m3.
Proof.
  intros [S1 R1] [S2 R2]. split; [congruence |].
  intros r H1 H2. rewrite R2, R1; auto.
Qed.

Lemma agree_but_set_dst (dst v : Z) (m : machine) :
  agree_but dst m (set_reg m dst v).
Proof.
  split; [reflexivity |]. intros r H _. now apply regs_set_reg_other.
Qed.

Lemma agree_but_set_r1 (dst v : Z) (m : machine) :
  agree_but dst m (set_reg m BPF_REG_1 v).
Proof.
  split; [reflexivity |]. intros r _ H. now apply regs_set_reg_other.
Qed.

(** Running the comparison of two operands in the frame. *)
Lemma run_strcmp_code_mem (len : nat) :
  forall (dst a b done : Z) (rest : list vinsn) (m : machine),
    dst <> BPF_REG_1 ->
    exists m',
      run (strcmp_code (S len) dst a b None done ++ VI_LABEL done :: rest)
          None m
      = run rest None m'
      /\ agree_but dst m m'
      /\ regs m' dst
         = u32 (cmp_ref (frame_bytes (stk m) a (S len))
                        (frame_bytes (stk m) b (S len))).
Proof.
  induction len as [| len IH]; intros dst a b done rest m Hd.
  - rewrite strcmp_code_mem_last.
    rewrite <- ?app_comm_cons, ?app_nil_l.
    eexists. split; [do 4 (erewrite run_next by reflexivity); reflexivity |].
    split.
    + eapply agree_but_trans; [apply agree_but_set_dst |].
      eapply agree_but_trans; [apply agree_but_set_r1 |].
      apply agree_but_set_dst.
    + rewrite regs_set_reg_same. cbn [alu].
      rewrite regs_set_reg_other by congruence.
      rewrite !regs_set_reg_same. reflexivity.
  - rewrite strcmp_code_mem_step.
    set (x := stk m a mod 256). set (y := stk m b mod 256).
    set (m1 := set_reg m dst x).
    set (m2 := set_reg m1 BPF_REG_1 y).
    set (m3 := set_reg m2 dst (u32 (x - y))).
    assert (A3 : agree_but dst m m3).
    { eapply agree_but_trans; [apply agree_but_set_dst |].
      eapply agree_but_trans; [apply agree_but_set_r1 |].
      apply agree_but_set_dst. }
    assert (E :
              run ((VI_INSN (LDX BPF_B a) dst BPF_REG_BP
                    :: VI_INSN (LDX BPF_B b) BPF_REG_1 BPF_REG_BP
                    :: VI_INSN (ALU BPF_SUB) dst BPF_REG_1
                    :: VI_INSN (JMP_IMM BPF_JEQ 0 done) BPF_REG_1 0
                    :: VI_INSN (JMP_IMM BPF_JNE 0 done) dst 0
                    :: strcmp_code (S len) dst (a + 1) (b + 1) None done)
                   ++ VI_LABEL done :: rest) None m
              = run (VI_INSN (JMP_IMM BPF_JEQ 0 done) BPF_REG_1 0
                     :: VI_INSN (JMP_IMM BPF_JNE 0 done) dst 0
                     :: strcmp_code (S len) dst (a + 1) (b + 1) None done
                     ++ VI_LABEL done :: rest) None m3).
    { rewrite <- ?app_comm_cons.
      erewrite (run_next _ _ m m1) by reflexivity.
      erewrite (run_next _ _ m1 m2) by reflexivity.
      apply run_next. cbn [step alu]. unfold m2 at 2 3.
      rewrite regs_set_reg_same.
      rewrite regs_set_reg_other by congruence.
      unfold m1. rewrite regs_set_reg_same. reflexivity. }
    rewrite E. clear E.
    assert (R1 : regs m3 BPF_REG_1 = y).
    { unfold m3. rewrite regs_set_reg_other by congruence.
      unfold m2. apply regs_set_reg_same. }
    assert (Rd : regs m3 dst = u32 (x - y)) by apply regs_set_reg_same.
    assert (F : frame_bytes (stk m) a (S (S len))
                = x :: frame_bytes (stk m) (a + 1) (S len)) by reflexivity.
    assert (G : frame_bytes (stk m) b (S (S len))
                = y :: frame_bytes (stk m) (b + 1) (S len)) by reflexivity.
    rewrite F, G.
    assert (C : cmp_ref (x :: frame_bytes (stk m) (a + 1) (S len))
                        (y :: frame_bytes (stk m) (b + 1) (S len))
                = if y =? 0 then x - y
                  else if x - y =? 0
                       then cmp_ref (frame_bytes (stk m) (a + 1) (S len))
                                    (frame_bytes (stk m) (b + 1) (S len))
                       else x - y) by reflexivity.
    rewrite C. clear C F G.
    rewrite run_jeq, R1. change (u64 0) with 0.
    destruct (y =? 0) eqn:Ey.
    + rewrite app_comm_cons.
      rewrite run_skip
        by (constructor; [exact I | apply strcmp_code_no_label]).
      exists m3. auto.
    + rewrite run_jne, Rd. change (u64 0) with 0.
      pose proof (byte_range (stk m a)) as Hx.
      pose proof (byte_range (stk m b)) as Hy.
      fold x in Hx. fold y in Hy.
      rewrite u32_small_diff by lia.
      destruct (x - y =? 0) eqn:Exy.
      * destruct (IH dst (a + 1) (b + 1) done rest m3 Hd)
          as (m' & Hrun & Hag & Hres).
        exists m'. split; [exact Hrun |]. split.
        -- eapply agree_but_trans; eassumption.
        -- rewrite Hres. destruct A3 as [S3 _]. now rewrite S3.
      * rewrite run_skip by apply strcmp_code_no_label.
        exists m3. auto.
Qed.

(** Running the comparison of an operand in the frame with a literal. *)
Lemma run_strcmp_code_lit (len : nat) :
  forall (dst a b done : Z) (rest : list vinsn) (m : machine) (l : string),
    ascii7 l = true ->
    exists m',
      run (strcmp_code (S len) dst a b (Some l) done ++ VI_LABEL done :: rest)
          None m
      = run rest None m'
      /\ agree_but dst m m'
      /\ regs m' dst
         = u32 (cmp_ref (frame_bytes (stk m) a (S len))
                        (literal_bytes l (S len))).
Proof.
  induction len as [| len IH]; intros dst a b done rest m l Hl.
  - rewrite strcmp_code_lit_last.
    rewrite <- ?app_comm_cons, ?app_nil_l.
    eexists. split; [do 3 (erewrite run_next by reflexivity); reflexivity |].
    split.
    + eapply agree_but_trans; apply agree_but_set_dst.
    + rewrite regs_set_reg_same. cbn [alu].
      rewrite regs_set_reg_same.
      rewrite (deref_char_ascii7 l Hl). reflexivity.
  - rewrite strcmp_code_lit_step.
    rewrite (deref_char_ascii7 l Hl).
    set (x := stk m a mod 256). set (y := first_byte l).
    set (m1 := set_reg m dst x).
    set (m2 := set_reg m1 dst (u32 (x - y))).
    assert (A2 : agree_but dst m m2)
      by (eapply agree_but_trans; apply agree_but_set_dst).
    assert (Rd : regs m2 dst = u32 (x - y)) by apply regs_set_reg_same.
    assert (C : cmp_ref (frame_bytes (stk m) a (S (S len)))
                        (literal_bytes l (S (S len)))
                = if y =? 0 then x - y
                  else if x - y =? 0
                       then cmp_ref (frame_bytes (stk m) (a + 1) (S len))
                                    (literal_bytes (next_char l) (S len))
                       else x - y) by reflexivity.
    rewrite C. clear C.
    rewrite <- !app_comm_cons.
    erewrite (run_next _ _ m m1) by reflexivity.
    erewrite (run_next _ _ m1 m2)
      by (cbn [step alu]; unfold m1; now rewrite regs_set_reg_same).
    destruct (y =? 0) eqn:Ey.
    + rewrite app_nil_l.
      erewrite run_next by reflexivity.
      exists m2. auto.
    + rewrite <- app_comm_cons.
      rewrite run_jne, Rd. change (u64 0) with 0.
      pose proof (byte_range (stk m a)) as Hx.
      pose proof (first_byte_range l) as Hy.
      fold x in Hx. fold y in Hy.
      rewrite u32_small_diff by lia.
      destruct (x - y =? 0) eqn:Exy.
      * destruct (IH dst (a + 1) (b + 1) done rest m2 (next_char l)
                     (ascii7_next_char l Hl))
          as (m' & Hrun & Hag & Hres).
        exists m'. split; [exact Hrun |]. split.
        -- eapply agree_but_trans; eassumption.
        -- rewrite Hres. destruct A2 as [S2 _]. now rewrite S2.
      * rewrite run_skip by apply strcmp_code_no_label.
        exists m2. auto.
Qed.

(** A byte sequence read as a C string: the bytes before the first NUL. *)
Fixpoint cstr (l : list Z) : list Z :=
  match l with
  | [] => []
  | x :: l' => if x =? 0 then [] else x :: cstr l'
  end.

(** [r] is the byte difference at the first position where [A] and [B]
    differ, and no NUL comes before that position. *)
Definition differ_first (A B : list Z) (r : Z) : Prop :=
  exists i x y,
    nth_error A i = Some x /\ nth_error B i = Some y /\ x <> y
    /\ firstn i A = firstn i B /\ ~ In 0 (firstn i A) /\ r = x - y.

(** The result [r] of comparing [A] with [B] as [strcmp] does: 0 exactly
    when they are equal as C strings, otherwise the difference at the first
    differing byte (negative when the byte of [A] is the smaller one). *)
Definition strcmp_result (A B : list Z) (r : Z) : Prop :=
  (r = 0 <-> cstr A = cstr B) /\ (r <> 0 -> differ_first A B r).

Lemma differ_first_cons (x : Z) (A B : list Z) (r : Z) :
  x <> 0 -> differ_first A B r -> differ_first (x :: A) (x :: B) r.
Proof.
  intros Hx (i & a & b & HA & HB & Hab & Hf & Hn & Hr).
  exists (S i), a, b. simpl. repeat split; auto.
  - now rewrite Hf.
  - intros [H | H]; [congruence | contradiction].
Qed.

Lemma differ_first_here (x y : Z) (A B : list Z) :
  x <> y -> differ_first (x :: A) (y :: B) (x - y).
Proof.
  intros H. exists 0%nat, x, y. simpl. repeat split; auto.
Qed.

Lemma differ_first_cstr (A B : list Z) (r : Z) :
  differ_first A B r -> r <> 0 /\ cstr A <> cstr B.
Proof.
  intros (i & x & y & HA & HB & Hxy & Hf & Hn & Hr).
  split; [lia |]. clear Hr r.
  revert A B HA HB Hf Hn.
  induction i as [| i IH]; intros [| a A] [| b B]; simpl;
    try discriminate.
  - intros HA HB _ _. inversion HA; inversion HB; subst.
    destruct (Z.eqb_spec x 0), (Z.eqb_spec y 0); try congruence.
  - intros HA HB Hf Hn. inversion Hf; subst.
    destruct (Z.eqb_spec b 0) as [-> | Hb]; [elim Hn; now left |].
    intros E. inversion E.
    eapply IH; eauto.
Qed.

Lemma differ_first_swap (A B : list Z) (r : Z) :
  differ_first A B r -> differ_first B A (- r).
Proof.
  intros (i & x & y & HA & HB & Hxy & Hf & Hn & Hr).
  exists i, y, x. repeat split; auto.
  - now rewrite <- Hf.
  - lia.
Qed.

Lemma strcmp_result_swap (A B : list Z) (r : Z) :
  strcmp_result A B r -> strcmp_result B A (- r).
Proof.
  intros [H0 Hd]. split.
  - split.
    + intros H. symmetry. apply H0. lia.
    + intros H. symmetry in H. apply H0 in H. lia.
  - intros H. apply differ_first_swap. apply Hd. lia.
Qed.

Lemma cmp_ref_cases (A B : list Z) :
  List.length A = List.length B -> A <> [] ->
  (cmp_ref A B = 0 /\ cstr A = cstr B) \/ differ_first A B (cmp_ref A B).
Proof.
  revert B. induction A as [| x A IH]; intros [| y B] Hlen Hne;
    try discriminate; [congruence |].
  simpl in Hlen. injection Hlen as Hlen.
  destruct A as [| a A'].
  - destruct B; [| discriminate]. simpl.
    destruct (Z.eq_dec x y) as [-> | Hxy].
    + left. split; [lia | reflexivity].
    + right. now apply differ_first_here.
  - change (cmp_ref (x :: a :: A') (y :: B))
      with (if y =? 0 then x - y
            else if x - y =? 0 then cmp_ref (a :: A') B else x - y).
    destruct (Z.eqb_spec y 0) as [-> | Hy].
    + destruct (Z.eq_dec x 0) as [-> | Hx].
      * left. split; reflexivity.
      * right. now apply differ_first_here.
    + destruct (Z.eqb_spec (x - y) 0) as [E | E].
      * assert (x = y) by lia. subst x.
        destruct (IH B Hlen) as [[H1 H2] | H]; [discriminate | |].
        -- left. split; [exact H1 |].
           change (cstr (y :: a :: A'))
             with (if y =? 0 then [] else y :: cstr (a :: A')).
           change (cstr (y :: B)) with (if y =? 0 then [] else y :: cstr B).
           rewrite H2. reflexivity.
        -- right. now apply differ_first_cons.
      * right. apply differ_first_here. lia.
Qed.

Lemma cmp_ref_result (A B : list Z) :
  List.length A = List.length B -> A <> [] ->
  strcmp_result A B (cmp_ref A B).
Proof.
  intros Hlen Hne.
  destruct (cmp_ref_cases A B Hlen Hne) as [[H1 H2] | H].
  - split; [tauto | congruence].
  - destruct (differ_first_cstr _ _ _ H) as [Hr Hc].
    split; [tauto | auto].
Qed.

Definition is_byte (x : Z) : Prop := 0 <= x < 256.

Lemma cmp_ref_range (A B : list Z) :
  Forall is_byte A -> Forall is_byte B -> - 256 < cmp_ref A B < 256.
Proof.
  intros HA. revert B.
  induction HA as [| x A Hx HA IH]; intros B HB; [simpl; lia |].
  destruct HB as [| y B Hy HB]; [simpl; lia |].
  unfold is_byte in *.
  destruct A as [| a A']; [simpl; lia |].
  change (cmp_ref (x :: a :: A') (y :: B))
    with (if y =? 0 then x - y
          else if x - y =? 0 then cmp_ref (a :: A') B else x - y).
  destruct (y =? 0); [lia |].
  destruct (x - y =? 0); [now apply IH | lia].
Qed.

Lemma frame_bytes_are_bytes (s : Z -> Z) (len : nat) :
  forall off, Forall is_byte (frame_bytes s off len).
Proof.
  induction len as [| len IH]; intros off; simpl; constructor.
  - apply byte_range.
  - apply IH.
Qed.

Lemma literal_bytes_are_bytes (len : nat) :
  forall l, Forall is_byte (literal_bytes l len).
Proof.
  induction len as [| len IH]; intros l; simpl; constructor.
  - apply first_byte_range.
  - apply IH.
Qed.

Lemma frame_bytes_length (s : Z -> Z) (len : nat) :
  forall off, List.length (frame_bytes s off len) = len.
Proof.
  induction len as [| len IH]; intros off; simpl; [reflexivity |].
  now rewrite IH.
Qed.

Lemma literal_bytes_length (len : nat) :
  forall l, List.length (literal_bytes l len) = len.
Proof.
  induction len as [| len IH]; intros l; simpl; [reflexivity |].
  now rewrite IH.
Qed.

Lemma cstr_no_nul (A : list Z) : ~ In 0 A -> cstr A = A.
Proof.
  induction A as [| x A IH]; simpl; [reflexivity |].
  intros H. destruct (Z.eqb_spec x 0) as [-> | Hx]; [elim H; now left |].
  rewrite IH; [reflexivity | tauto].
Qed.

Lemma strcmp_emit_code (st : state) (dst a b : Z) (blit : option string)
      (len : Z) :
  vi (ir (strcmp_emit st dst a b blit len))
  = (vi (ir st)
     ++ strcmp_code (Z.to_nat (usize len)) dst a b blit (next_label (ir st))
     ++ [VI_LABEL (next_label (ir st))])%list
  /\ syms (strcmp_emit st dst a b blit len) = syms st.
Proof.
  unfold strcmp_emit, ir_alloc_label.
  match goal with
  | |- context [strcmp_emit_loop ?n ?d ?x ?y ?bl ?dn ?s] =>
      destruct (strcmp_emit_loop_code n d x y bl dn s) as [E S]
  end.
  unfold ir_emit_label. rewrite emit_vi, E. simpl.
  split; [now rewrite <- app_assoc |].
  destruct S as [S _]. exact S.
Qed.

(** The bytes an operand of [strcmp] stands for: those of its storage in
    the frame, or those of the literal. *)
Definition operand_bytes (st : state) (m : machine) (o : node) (len : nat)
  : list Z :=
  match o with
  | Str _ _ _ d => literal_bytes d len
  | _ =>
      match node_sym o with
      | Some y => frame_bytes (stk m) (stack (irs (syms st y))) len
      | None => []
      end
  end.

(** An operand code generation can handle: on the stack, or a literal of
    7-bit characters. *)
Definition operand_ready (st : state) (o : node) : bool :=
  match o with
  | Str _ _ _ d => ascii7 d
  | _ =>
      match node_sym o with
      | Some y => sym_on_stack (syms st y)
      | None => false
      end
  end.

Definition is_literal (o : node) : bool :=
  match o with
  | Str _ _ _ _ => true
  | _ => false
  end.

Lemma operand_bytes_length (st : state) (m : machine) (o : node) (len : nat)
      (y : sym_id) :
  node_sym o = Some y -> List.length (operand_bytes st m o len) = len.
Proof.
  intros H. unfold operand_bytes. rewrite H.
  destruct o; auto using frame_bytes_length, literal_bytes_length.
Qed.

Lemma s32_cmp_ref (A B : list Z) :
  Forall is_byte A -> Forall is_byte B -> s32 (u32 (cmp_ref A B)) = cmp_ref A B.
Proof.
  intros HA HB. apply s32_u32_small. now apply cmp_ref_range.
Qed.

Lemma s32_neg_cmp_ref (A B : list Z) :
  Forall is_byte A -> Forall is_byte B ->
  s32 (u32 (- u32 (cmp_ref A B))) = - cmp_ref A B.
Proof.
  intros HA HB. rewrite u32_neg_u32. apply s32_u32_small.
  pose proof (cmp_ref_range A B HA HB). lia.
Qed.

Lemma strcmp_result_no_nul (A B : list Z) (r : Z) :
  strcmp_result A B r -> ~ In 0 A -> ~ In 0 B -> (r = 0 <-> A = B).
Proof.
  intros [H _] HA HB. now rewrite H, (cstr_no_nul A HA), (cstr_no_nul B HB).
Qed.

Lemma syms_emit (st : state) (v : vinsn) : syms (emit st v) = syms st.
Proof. reflexivity. Qed.

(** The entries [strcmp_ir_post] appends between the allocation of the
    node's storage and the final store of the result. *)
Definition strcmp_body (len : nat) (dst a b : Z) (blit : option string)
           (done : Z) (invert : bool) : list vinsn :=
  (strcmp_code len dst a b blit done
   ++ VI_LABEL done
   :: (if invert then [VI_INSN (ALU_IMM BPF_NEG 0) dst 0] else []))%list.

Lemma strcmp_ir_post_tail (st1 : state) (dst a b : Z) (blit : option string)
      (len : Z) (invert : bool) (ns : sym_id) :
  let st2 := strcmp_emit st1 dst a b blit len in
  let st3 := if invert then ir_emit_insn st2 (ALU_IMM BPF_NEG 0) dst 0
             else st2 in
  vi (ir (ir_emit_reg_to_sym st3 ns dst))
  = (vi (ir st1)
     ++ strcmp_body (Z.to_nat (usize len)) dst a b blit (next_label (ir st1))
          invert
     ++ [VI_REG_TO_SYM ns (irs (syms st1 ns)) dst])%list.
Proof.
  intros st2 st3.
  destruct (strcmp_emit_code st1 dst a b blit len) as [E S].
  fold st2 in E, S. unfold strcmp_body, ir_emit_reg_to_sym.
  rewrite emit_vi.
  destruct invert; unfold st3, ir_emit_insn.
  - rewrite emit_vi, E, syms_emit, S.
    rewrite <- !app_assoc. reflexivity.
  - rewrite E, S. rewrite <- !app_assoc. reflexivity.
Qed.

Lemma run_strcmp_body (k : nat) (dst a b : Z) (blit : option string)
      (done : Z) (invert : bool) (m : machine) :
  dst <> BPF_REG_1 ->
  match blit with Some l => ascii7 l = true | None => True end ->
  exists m',
    run (strcmp_body (S k) dst a b blit done invert) None m = Some m'
    /\ stk m' = stk m
    /\ s32 (regs m' dst)
       = let r := cmp_ref (frame_bytes (stk m) a (S k))
                          (second_bytes (stk m) b blit (S k)) in
         if invert then - r else r.
Proof.
  intros Hd Hl. unfold strcmp_body.
  set (rest := if invert then [VI_INSN (ALU_IMM BPF_NEG 0) dst 0] else []).
  assert (H : exists m1,
             run (strcmp_code (S k) dst a b blit done
                  ++ VI_LABEL done :: rest) None m
             = run rest None m1
             /\ stk m1 = stk m
             /\ regs m1 dst
                = u32 (cmp_ref (frame_bytes (stk m) a (S k))
                               (second_bytes (stk m) b blit (S k)))).
  { destruct blit as [l |]; unfold second_bytes.
    - destruct (run_strcmp_code_lit k dst a b done rest m l Hl)
        as (m1 & E1 & [S1 _] & R1).
      exists m1. auto.
    - destruct (run_strcmp_code_mem k dst a b done rest m Hd)
        as (m1 & E1 & [S1 _] & R1).
      exists m1. auto. }
  destruct H as (m1 & E1 & S1 & R1). rewrite E1.
  assert (HA : Forall is_byte (frame_bytes (stk m) a (S k)))
    by apply frame_bytes_are_bytes.
  assert (HB : Forall is_byte (second_bytes (stk m) b blit (S k))).
  { destruct blit; [apply literal_bytes_are_bytes
                   | apply frame_bytes_are_bytes]. }
  destruct invert; unfold rest.
  - eexists. split; [reflexivity |]. split; [exact S1 |].
    rewrite regs_set_reg_same. cbn [alu]. rewrite R1.
    now apply s32_neg_cmp_ref.
  - exists m1. split; [reflexivity |]. split; [exact S1 |].
    rewrite R1. now apply s32_cmp_ref.
Qed.
Lemma frame_bytes_nonempty (s : Z -> Z) (off : Z) (k : nat) :
  frame_bytes s off (S k) <> [].
Proof. discriminate. Qed.

Lemma literal_bytes_nonempty (l : string) (k : nat) :
  literal_bytes l (S k) <> [].
Proof. discriminate. Qed.

(** C3 (amended). Let the operands of [strcmp] be ready for code
    generation: each on the stack or a literal of 7-bit characters, not both
    literals, with at least one byte to compare and a result register other
    than the scratch register r1. Then the entries emitted between the
    allocation of the node's storage and the final store of the result run
    to completion on every machine, leave the frame as it was, and leave in
    the result register, read as a signed 32-bit integer, the comparison of
    the two byte sequences as C strings: 0 exactly when the sequences are
    equal up to their first NUL (so, for sequences without NUL, exactly when
    they are byte-identical), and otherwise the difference of the bytes at
    the first differing position, in the order the operands were written,
    also when they were swapped for the literal. *)
Theorem strcmp_ir_post_compares
        (id : node_id) (l : Z) (f : string) (i : bool) (a0 b0 : node)
        (st : state) (ns ya yb : sym_id) :
  node_sym a0 = Some ya -> node_sym b0 = Some yb ->
  operand_ready st a0 = true -> operand_ready st b0 = true ->
  is_literal a0 && is_literal b0 = false ->
  let st1 := ir_init_sym st ns in
  let len :=
    Z.to_nat (usize (Z.min (type_sizeof (type_of st1 ya))
                           (type_sizeof (type_of st1 yb)))) in
  let dst := if sym_in_reg (syms st1 ns) then reg (irs (syms st1 ns))
             else BPF_REG_0 in
  (1 <= len)%nat -> dst <> BPF_REG_1 ->
  exists st' body,
    strcmp_ir_post (Expr id l (Some ns) f i [a0; b0]) st = Returned 0 st'
    /\ vi (ir st') =
       (vi (ir st1) ++ body
        ++ [VI_REG_TO_SYM ns (irs (syms st1 ns)) dst])%list
    /\ forall m,
        exists m',
          run body None m = Some m' /\ stk m' = stk m
          /\ strcmp_result (operand_bytes st1 m a0 len)
                           (operand_bytes st1 m b0 len)
                           (s32 (regs m' dst))
          /\ (~ In 0 (operand_bytes st1 m a0 len) ->
              ~ In 0 (operand_bytes st1 m b0 len) ->
              (s32 (regs m' dst) = 0
               <-> operand_bytes st1 m a0 len = operand_bytes st1 m b0 len)).
Proof.
  intros Hya Hyb Ra Rb Hlit st1 len dst Hlen Hdst.
  assert (Hk : exists k, len = S k)
    by (destruct len as [| k]; [lia | now exists k]).
  destruct Hk as [k Hk].
  unfold strcmp_ir_post, arg. cbn [node_args nth_error].
  destruct a0 as [ai al asym af aid aargs | ai al asym av | ai al asym ad];
    destruct b0 as [bi bl bsym bf bid bargs | bi bl bsym bv | bi bl bsym bd];
    try discriminate Hlit;
    cbn [node_ntype node_sym string_data] in *; subst asym bsym;
      cbn [operand_ready node_sym] in Ra, Rb;
      rewrite ?Ra, ?Rb; cbn [negb]; fold st1;
        rewrite ?(Z.min_comm (type_sizeof (type_of st1 yb))); fold dst.
  all: eexists;
    match goal with
    | |- context [strcmp_emit ?s1 ?d ?a ?b ?bl ?z] =>
        match goal with
        | |- context [ir_emit_insn _ (ALU_IMM BPF_NEG 0)] =>
            exists (strcmp_body (Z.to_nat (usize z)) d a b bl
                                (next_label (ir s1)) true)
        | _ =>
            exists (strcmp_body (Z.to_nat (usize z)) d a b bl
                                (next_label (ir s1)) false)
        end
    end.
  all: split; [reflexivity |].
  all: split;
    [ match goal with
      | |- context [strcmp_body _ _ ?a ?b ?bl _ ?inv] =>
          apply (strcmp_ir_post_tail _ _ a b bl _ inv)
      end |].
  all: intros m; fold len; rewrite Hk.
  all: match goal with
       | |- context [strcmp_body _ ?d ?a ?b ?bl ?dn ?inv] =>
           destruct (run_strcmp_body k d a b bl dn inv m)
             as (m' & Hrun & Hstk & Hres);
           [assumption | first [exact I | assumption] |]
       end.
  all: exists m'; split; [exact Hrun |]; split; [exact Hstk |].
  all: cbn [operand_bytes node_sym second_bytes] in *.
  all: match goal with
       | |- strcmp_result ?A ?B ?r /\ _ =>
           assert (HR : strcmp_result A B r)
       end.
  all: try (rewrite Hres; first
              [ apply cmp_ref_result;
                [ now rewrite ?frame_bytes_length, ?literal_bytes_length
                | discriminate ]
              | apply strcmp_result_swap; apply cmp_ref_result;
                [ now rewrite ?frame_bytes_length, ?literal_bytes_length
                | discriminate ] ]).
  all: split; [exact HR | now apply strcmp_result_no_nul].
Qed.

(** ** Zero-filled padding of a struct literal (C9) *)

(** The offset at which a field of type [ft] is placed when the fields
    before it end at [e]. *)
Definition place (e : Z) (ft : type) : Z :=
  e + type_padding e (type_alignof ft).

(** The end of the last field when [fs] is laid out from [e]. *)
Fixpoint walk_end (fs : list tfield) (e : Z) : Z :=
  match fs with
  | [] => e
  | (_, ft) :: fs' => walk_end fs' (place e ft + type_sizeof_t ft)
  end.

Lemma type_sizeof_struct (nm : string) (fs : list tfield) :
  type_sizeof_t (Tstruct nm fs)
  = match fs with
    | [] => 0
    | _ => walk_end fs 0
           + type_padding (walk_end fs 0) (type_alignof (Tstruct nm fs))
    end.
Proof.
  destruct fs; reflexivity.
Qed.

(** Whether the byte at offset [d] lies in the gap before some field of
    [fs], laid out from [e]. *)
Fixpoint gap_at (fs : list tfield) (e d : Z) : bool :=
  match fs with
  | [] => false
  | (_, ft) :: fs' =>
      ((e <=? d) && (d <? place e ft))
      || gap_at fs' (place e ft + type_sizeof_t ft) d
  end.

(** Whether the byte at offset [d] lies in some field of [fs], laid out
    from [e]. *)
Fixpoint field_at (fs : list tfield) (e d : Z) : bool :=
  match fs with
  | [] => false
  | (_, ft) :: fs' =>
      ((place e ft <=? d) && (d <? place e ft + type_sizeof_t ft))
      || field_at fs' (place e ft + type_sizeof_t ft) d
  end.

(** Every field has a positive alignment and a size that is not
    negative. *)
Definition fields_sized (fs : list tfield) : Prop :=
  Forall (fun f => 0 < type_alignof (snd f) /\ 0 <= type_sizeof_t (snd f)) fs.

Lemma type_padding_range (e a : Z) : 0 < a -> 0 <= type_padding e a < a.
Proof.
  intros H. unfold type_padding. apply Z.mod_pos_bound. exact H.
Qed.

Lemma type_padding_zero (a : Z) : 0 < a -> type_padding 0 a = 0.
Proof.
  intros H. unfold type_padding.
  rewrite Z.mod_0_l by lia. rewrite Z.sub_0_r. apply Z.mod_same. lia.
Qed.

Lemma place_ge (e : Z) (ft : type) : 0 < type_alignof ft -> e <= place e ft.
Proof.
  intros H. unfold place. pose proof (type_padding_range e _ H). lia.
Qed.

Lemma walk_end_ge (fs : list tfield) :
  fields_sized fs -> forall e, e <= walk_end fs e.
Proof.
  induction 1 as [| [nm ft] fs [Ha Hs] Hfs IH]; intros e; simpl; [lia |].
  simpl in Ha, Hs. pose proof (place_ge e ft Ha).
  specialize (IH (place e ft + type_sizeof_t ft)). lia.
Qed.

(** Gaps and fields tile the bytes between [e] and the end of the last
    field. *)
Lemma gap_field_tiling (fs : list tfield) :
  fields_sized fs ->
  forall e d,
    (e <= d < walk_end fs e -> gap_at fs e d = negb (field_at fs e d))
    /\ (~ e <= d < walk_end fs e ->
        gap_at fs e d = false /\ field_at fs e d = false).
Proof.
  induction 1 as [| [nm ft] fs [Ha Hs] Hfs IH]; intros e d; simpl.
  - split; [lia | auto].
  - simpl in Ha, Hs.
    pose proof (place_ge e ft Ha) as Hp.
    pose proof (walk_end_ge fs Hfs (place e ft + type_sizeof_t ft)) as Hw.
    destruct (IH (place e ft + type_sizeof_t ft) d) as [IH1 IH2].
    split; intros Hd.
    + destruct (Z_lt_le_dec d (place e ft)) as [H1 | H1].
      * destruct (IH2 ltac:(lia)) as [-> ->].
        replace (e <=? d) with true by (symmetry; apply Z.leb_le; lia).
        replace (d <? place e ft) with true by (symmetry; apply Z.ltb_lt; lia).
        replace (place e ft <=? d) with false
          by (symmetry; apply Z.leb_gt; lia).
        reflexivity.
      * replace (d <? place e ft) with false
          by (symmetry; apply Z.ltb_ge; lia).
        replace (place e ft <=? d) with true by (symmetry; apply Z.leb_le; lia).
        rewrite andb_false_r. simpl.
        destruct (Z_lt_le_dec d (place e ft + type_sizeof_t ft)) as [H2 | H2].
        -- destruct (IH2 ltac:(lia)) as [-> ->].
           replace (d <? place e ft + type_sizeof_t ft) with true
             by (symmetry; apply Z.ltb_lt; lia).
           reflexivity.
        -- replace (d <? place e ft + type_sizeof_t ft) with false
             by (symmetry; apply Z.ltb_ge; lia).
           simpl. apply IH1. lia.
    + destruct (IH2 ltac:(lia)) as [-> ->].
      rewrite !orb_false_r.
      destruct (Z_lt_le_dec d e) as [H1 | H1].
      * replace (e <=? d) with false by (symmetry; apply Z.leb_gt; lia).
        replace (place e ft <=? d) with false
          by (symmetry; apply Z.leb_gt; lia).
        auto.
      * replace (d <? place e ft) with false
          by (symmetry; apply Z.ltb_ge; lia).
        replace (d <? place e ft + type_sizeof_t ft) with false
          by (symmetry; apply Z.ltb_ge; lia).
        rewrite !andb_false_r. auto.
Qed.

(** With distinct field names, [offsetof_fields] finds every field at the
    place the layout gives it. *)
Lemma field_at_offsetof (fs : list tfield) :
  NoDup (map fst fs) ->
  forall e d,
    field_at fs e d = true
    <-> exists nm ft,
        In (nm, ft) fs
        /\ offsetof_fields fs nm e <= d
           < offsetof_fields fs nm e + type_sizeof_t ft.
Proof.
  induction fs as [| [n0 t0] fs IH]; intros Hnd e d; simpl.
  - split; [discriminate | intros (nm & ft & [] & _)].
  - inversion Hnd as [| ? ? Hn0 Hnd']; subst.
    fold (place e t0). rewrite orb_true_iff, (IH Hnd'). split.
    + intros [H | (nm & ft & Hin & Hr)].
      * apply andb_true_iff in H. destruct H as [H1 H2].
        apply Z.leb_le in H1. apply Z.ltb_lt in H2.
        exists n0, t0. rewrite String.eqb_refl. auto.
      * exists nm, ft. split; [now right |].
        destruct (String.eqb_spec n0 nm) as [-> | Hne]; [| exact Hr].
        elim Hn0. apply in_map_iff. now exists (nm, ft).
    + intros (nm & ft & [Heq | Hin] & Hr).
      * inversion Heq; subst. rewrite String.eqb_refl in Hr.
        left. apply andb_true_iff. split; [apply Z.leb_le | apply Z.ltb_lt];
          lia.
      * destruct (String.eqb_spec n0 nm) as [-> | Hne].
        -- elim Hn0. apply in_map_iff. now exists (nm, ft).
        -- right. now exists nm, ft.
Qed.

Lemma walk_end_app (pre rest : list tfield) (e : Z) :
  walk_end (pre ++ rest) e = walk_end rest (walk_end pre e).
Proof.
  revert e. induction pre as [| [nm ft] pre IH]; intros e; simpl;
    [reflexivity | apply IH].
Qed.

Lemma offsetof_fields_app (pre rest : list tfield) (nm : string) :
  ~ In nm (map fst pre) ->
  forall e,
    offsetof_fields (pre ++ rest) nm e
    = offsetof_fields rest nm (walk_end pre e).
Proof.
  induction pre as [| [n0 t0] pre IH]; intros Hn e; simpl; [reflexivity |].
  simpl in Hn.
  destruct (String.eqb_spec n0 nm) as [-> | Hne]; [elim Hn; now left |].
  apply IH. intros H. apply Hn. now right.
Qed.

Lemma offsetof_fields_head (nm : string) (ft : type) (fs : list tfield)
      (e : Z) :
  offsetof_fields ((nm, ft) :: fs) nm e = place e ft.
Proof.
  simpl. now rewrite String.eqb_refl.
Qed.

Lemma fields_sized_app (pre rest : list tfield) :
  fields_sized (pre ++ rest) -> fields_sized pre /\ fields_sized rest.
Proof.
  unfold fields_sized. intros H. apply Forall_app in H. exact H.
Qed.

Lemma usize_small (x : Z) : 0 <= x <= MAX_BPF_STACK -> usize x = x.
Proof.
  unfold usize, MAX_BPF_STACK. intros H. apply Z.mod_small. lia.
Qed.

Lemma ssize_small (x : Z) :
  - MAX_BPF_STACK <= x <= MAX_BPF_STACK -> ssize x = x.
Proof.
  unfold ssize, MAX_BPF_STACK. intros H. rewrite Z.mod_small; lia.
Qed.

(** [ir_emit_bzero] under the test [if (pad)]. *)
Definition bzero_if (off pad : Z) : list vinsn :=
  if pad =? 0 then [] else [VI_BZERO off pad].

(** The zero-fills the loop of [struct_ir_pre] emits for the fields [fs]
    laid out from [e]: one for each gap between two consecutive fields. *)
Fixpoint inner_pads (stk : Z) (fs : list tfield) (e : Z) : list vinsn :=
  match fs with
  | [] => []
  | (_, ft) :: fs' =>
      let e' := place e ft + type_sizeof_t ft in
      match fs' with
      | [] => []
      | (_, ft1) :: _ =>
          (bzero_if (stk + e') (place e' ft1 - e')
           ++ inner_pads stk fs' e')%list
      end
  end.

(** Each argument of the literal has a symbol. *)
Definition args_have_syms (args : list node) : Prop :=
  Forall (fun a => exists y, node_sym a = Some y) args.

Lemma vi_set_sym_irs (st : state) (y : sym_id) (i : irstate) :
  vi (ir (set_sym_irs st y i)) = vi (ir st).
Proof. reflexivity. Qed.

Lemma struct_ir_pre_loop_pads (nm : string) (full : list tfield) (stk : Z) :
  NoDup (map fst full) -> fields_sized full ->
  walk_end full 0 <= MAX_BPF_STACK -> - MAX_BPF_STACK <= stk <= 0 ->
  forall (rest pre : list tfield) (args : list node) (offset size : Z)
         (st : state),
    full = (pre ++ rest)%list ->
    List.length args = List.length rest -> args_have_syms args ->
    exists offset' size' st',
      struct_ir_pre_loop (Tstruct nm full) stk rest args offset size st
      = Some (offset', size', st')
      /\ vi (ir st') = (vi (ir st) ++ inner_pads stk rest (walk_end pre 0))%list
      /\ match rest with
         | [] => offset' = offset /\ size' = size
         | _ => offset' + size' = walk_end full 0
         end.
Proof.
  intros Hnd Hsz Hmax Hstk.
  induction rest as [| [fn ft] rest IH];
    intros pre args offset size st Hfull Hlen Hargs.
  - exists offset, size, st. simpl. rewrite app_nil_r. auto.
  - destruct args as [| a args]; [discriminate |].
    simpl in Hlen. injection Hlen as Hlen.
    destruct (Forall_inv Hargs) as [y Hy].
    pose proof (Forall_inv_tail Hargs) as Hargs'.
    set (e := walk_end pre 0).
    assert (Hpre : ~ In fn (map fst pre)).
    { rewrite Hfull, map_app in Hnd. simpl in Hnd.
      apply NoDup_remove_2 in Hnd. intros H. apply Hnd.
      apply in_or_app. now left. }
    assert (Hoff : type_offsetof (Tstruct nm full) fn = place e ft).
    { simpl. rewrite Hfull, offsetof_fields_app by exact Hpre.
      apply offsetof_fields_head. }
    assert (Hsz' := Hsz). rewrite Hfull in Hsz'.
    apply fields_sized_app in Hsz'. destruct Hsz' as [Hszp Hszr].
    destruct (Forall_inv Hszr) as [Ha Hs].
    pose proof (Forall_inv_tail Hszr) as Hszr'. simpl in Ha, Hs.
    assert (He0 : 0 <= e) by apply (walk_end_ge pre Hszp 0).
    pose proof (place_ge e ft Ha) as Hpl.
    assert (Hwe : walk_end full 0
                  = walk_end rest (place e ft + type_sizeof_t ft)).
    { rewrite Hfull, walk_end_app. reflexivity. }
    pose proof (walk_end_ge rest Hszr' (place e ft + type_sizeof_t ft)) as Hge.
    cbn [struct_ir_pre_loop fst snd type_sizeof]. rewrite Hy, Hoff.
    rewrite (usize_small (place e ft)) by lia.
    rewrite (usize_small (type_sizeof_t ft)) by lia.
    match goal with
    | |- context [if irloc_eqb ?l LOC_NONE then ?x else ?y] =>
        set (stA := if irloc_eqb l LOC_NONE then x else y)
    end.
    assert (HvA : vi (ir stA) = vi (ir st)).
    { unfold stA. destruct (irloc_eqb _ _); reflexivity. }
    destruct args as [| a1 args].
    + destruct rest as [| f1 rest]; [| discriminate].
      exists (place e ft), (type_sizeof_t ft), stA.
      cbn [struct_ir_pre_loop inner_pads].
      rewrite app_nil_r. split; [reflexivity |]. split; [exact HvA |].
      rewrite Hwe. reflexivity.
    + destruct rest as [| [f1n f1t] rest]; [discriminate |].
      cbn [fst].
      set (e' := place e ft + type_sizeof_t ft).
      assert (Hfull' : full = ((pre ++ [(fn, ft)]) ++ (f1n, f1t) :: rest)%list)
        by (rewrite <- app_assoc; exact Hfull).
      assert (He' : walk_end (pre ++ [(fn, ft)]) 0 = e')
        by (rewrite walk_end_app; reflexivity).
      assert (Hpre1 : ~ In f1n (map fst (pre ++ [(fn, ft)]))).
      { rewrite Hfull', map_app in Hnd. simpl in Hnd.
        apply NoDup_remove_2 in Hnd. intros H. apply Hnd.
        apply in_or_app. now left. }
      assert (Hoff1 : type_offsetof (Tstruct nm full) f1n = place e' f1t).
      { simpl. rewrite Hfull', offsetof_fields_app by exact Hpre1.
        rewrite He'. apply offsetof_fields_head. }
      destruct (Forall_inv Hszr') as [Ha1 Hs1].
      pose proof (Forall_inv_tail Hszr') as Hszr''.
      simpl in Ha1, Hs1.
      pose proof (place_ge e' f1t Ha1) as Hpl1.
      assert (Hwe1 : walk_end full 0
                     = walk_end rest (place e' f1t + type_sizeof_t f1t)).
      { rewrite Hwe. reflexivity. }
      pose proof (walk_end_ge rest Hszr''
                    (place e' f1t + type_sizeof_t f1t)) as Hge1.
      rewrite Hoff1. fold e'.
      rewrite (usize_small (place e' f1t - e')) by lia.
      replace (stk + place e ft + type_sizeof_t ft) with (stk + e')
        by (unfold e'; lia).
      rewrite (ssize_small (stk + e')) by (unfold e' in *; lia).
      match goal with
      | |- context [struct_ir_pre_loop _ _ _ _ _ _ ?s] => set (stB := s)
      end.
      assert (HvB : vi (ir stB)
                    = (vi (ir st)
                       ++ bzero_if (stk + e') (place e' f1t - e'))%list).
      { unfold stB, bzero_if.
        destruct (place e' f1t - e' =? 0).
        - rewrite app_nil_r. exact HvA.
        - unfold ir_emit_bzero. rewrite emit_vi, HvA. reflexivity. }
      destruct (IH (pre ++ [(fn, ft)])%list (a1 :: args)
                   (place e ft) (type_sizeof_t ft) stB Hfull' Hlen Hargs')
        as (o' & s' & st' & E & V & L).
      exists o', s', st'. split; [exact E |]. split; [| exact L].
      rewrite V, HvB, He'.
      cbn [inner_pads]. fold e'. now rewrite <- app_assoc.
Qed.

(** The largest alignment among [fs], starting from [acc]. *)
Fixpoint max_align (fs : list tfield) (acc : Z) : Z :=
  match fs with
  | [] => acc
  | (_, ft) :: fs' => max_align fs' (Z.max acc (type_alignof ft))
  end.

Lemma type_alignof_struct (nm : string) (fs : list tfield) :
  type_alignof (Tstruct nm fs) = max_align fs (- EINVAL).
Proof. reflexivity. Qed.

Lemma max_align_ge (fs : list tfield) : forall acc, acc <= max_align fs acc.
Proof.
  induction fs as [| [nm ft] fs IH]; intros acc; simpl; [lia |].
  specialize (IH (Z.max acc (type_alignof ft))). lia.
Qed.

Lemma struct_align_pos (nm : string) (fs : list tfield) :
  fields_sized fs -> fs <> [] -> 0 < type_alignof (Tstruct nm fs).
Proof.
  intros Hsz Hne. rewrite type_alignof_struct.
  destruct fs as [| [n0 t0] fs]; [congruence |].
  destruct (Forall_inv Hsz) as [Ha _]. simpl in Ha.
  cbn [max_align].
  pose proof (max_align_ge fs (Z.max (- EINVAL) (type_alignof t0))). lia.
Qed.

(** Whether entry [v] zero-fills the byte of the frame at [o]. *)
Definition zeroes (v : vinsn) (o : Z) : bool :=
  match v with
  | VI_BZERO off len => (off <=? o) && (o <? off + len)
  | _ => false
  end.

(** Whether some entry of [zs] zero-fills the byte at [o]. *)
Definition covered (zs : list vinsn) (o : Z) : bool :=
  existsb (fun v => zeroes v o) zs.

Definition is_bzero (v : vinsn) : Prop :=
  match v with
  | VI_BZERO _ _ => True
  | _ => False
  end.

Lemma covered_app (a b : list vinsn) (o : Z) :
  covered (a ++ b) o = covered a o || covered b o.
Proof. apply existsb_app. Qed.

Lemma covered_bzero_if (off pad o : Z) :
  covered (bzero_if off pad) o = (off <=? o) && (o <? off + pad).
Proof.
  unfold bzero_if. destruct (Z.eqb_spec pad 0) as [-> | Hp]; simpl.
  - destruct (Z.leb_spec off o), (Z.ltb_spec o (off + 0)); simpl; lia.
  - now rewrite orb_false_r.
Qed.

Lemma bzero_if_is_bzero (off pad : Z) : Forall is_bzero (bzero_if off pad).
Proof.
  unfold bzero_if. destruct (pad =? 0); repeat constructor.
Qed.

Lemma inner_pads_is_bzero (stk : Z) (fs : list tfield) :
  forall e, Forall is_bzero (inner_pads stk fs e).
Proof.
  induction fs as [| [n0 t0] fs IH]; intros e; simpl; [constructor |].
  destruct fs as [| [n1 t1] fs']; [constructor |].
  apply Forall_app. split; [apply bzero_if_is_bzero | apply IH].
Qed.

Lemma inner_pads_step (stk : Z) (n0 n1 : string) (t0 t1 : type)
      (fs : list tfield) (e : Z) :
  inner_pads stk ((n0, t0) :: (n1, t1) :: fs) e
  = (bzero_if (stk + (place e t0 + type_sizeof_t t0))
              (place (place e t0 + type_sizeof_t t0) t1
               - (place e t0 + type_sizeof_t t0))
     ++ inner_pads stk ((n1, t1) :: fs) (place e t0 + type_sizeof_t t0))%list.
Proof. reflexivity. Qed.

Lemma covered_inner_pads (stk : Z) (fs : list tfield) :
  forall e o,
    covered (inner_pads stk fs e) o
    = match fs with
      | [] => false
      | (_, ft) :: fs' =>
          gap_at fs' (place e ft + type_sizeof_t ft) (o - stk)
      end.
Proof.
  induction fs as [| [n0 t0] fs IH]; intros e o; [reflexivity |].
  destruct fs as [| [n1 t1] fs']; [reflexivity |].
  rewrite inner_pads_step, covered_app, covered_bzero_if, IH.
  cbn [gap_at]. f_equal.
  set (e' := place e t0 + type_sizeof_t t0).
  destruct (Z.leb_spec (stk + e') o), (Z.leb_spec e' (o - stk));
    destruct (Z.ltb_spec o (stk + e' + (place e' t1 - e'))),
             (Z.ltb_spec (o - stk) (place e' t1)); simpl; lia.
Qed.

Lemma type_sizeof_struct_cons (nm : string) (f : tfield)
      (fs : list tfield) :
  type_sizeof_t (Tstruct nm (f :: fs))
  = walk_end (f :: fs) 0
    + type_padding (walk_end (f :: fs) 0)
                   (type_alignof (Tstruct nm (f :: fs))).
Proof. destruct f. reflexivity. Qed.

Lemma type_sizeof_struct_nonempty (nm : string) (fs : list tfield) :
  fs <> [] ->
  type_sizeof_t (Tstruct nm fs)
  = walk_end fs 0
    + type_padding (walk_end fs 0) (type_alignof (Tstruct nm fs)).
Proof.
  intros H. rewrite type_sizeof_struct. destruct fs; [congruence |].
  reflexivity.
Qed.

(** The first field stands at offset 0: there is no gap before it. *)
Lemma gap_at_first (fs : list tfield) (d : Z) :
  fields_sized fs ->
  gap_at fs 0 d
  = match fs with
    | [] => false
    | (_, ft) :: fs' => gap_at fs' (place 0 ft + type_sizeof_t ft) d
    end.
Proof.
  intros Hsz. destruct fs as [| [n0 t0] fs']; [reflexivity |].
  destruct (Forall_inv Hsz) as [Ha0 _]. simpl in Ha0.
  cbn [gap_at]. unfold place at 1. rewrite (type_padding_zero _ Ha0).
  destruct (Z.leb_spec 0 d), (Z.ltb_spec d (0 + 0)); simpl; try lia;
    reflexivity.
Qed.

(** The byte at offset [d] of a struct is padding: it is inside the struct
    and inside no field. *)
Definition is_padding (t : type) (d : Z) : Prop :=
  0 <= d < type_sizeof_t t
  /\ forall nm ft,
      In (nm, ft) (match t with Tstruct _ fs => fs | _ => [] end) ->
      ~ type_offsetof t nm <= d < type_offsetof t nm + type_sizeof_t ft.

(** All the zero-fills of [struct_ir_pre]: the gaps between the fields and
    the padding after the last one. *)
Definition struct_pads (stk : Z) (nm : string) (fs : list tfield)
  : list vinsn :=
  (inner_pads stk fs 0
   ++ bzero_if (stk + walk_end fs 0)
        (type_sizeof_t (Tstruct nm fs) - walk_end fs 0))%list.

Lemma struct_pads_cover_padding (stk : Z) (nm : string) (fs : list tfield)
      (o : Z) :
  NoDup (map fst fs) -> fields_sized fs ->
  covered (struct_pads stk nm fs) o = true
  <-> is_padding (Tstruct nm fs) (o - stk).
Proof.
  intros Hnd Hsz. unfold struct_pads, is_padding.
  rewrite covered_app, covered_bzero_if, covered_inner_pads.
  set (d := o - stk).
  assert (Hfield :
            (forall nm0 ft,
                In (nm0, ft) fs ->
                ~ type_offsetof (Tstruct nm fs) nm0 <= d
                  < type_offsetof (Tstruct nm fs) nm0 + type_sizeof_t ft)
            <-> field_at fs 0 d = false).
  { split.
    - intros H. destruct (field_at fs 0 d) eqn:E; [| reflexivity].
      apply (field_at_offsetof fs Hnd) in E.
      destruct E as (n1 & ft & Hin & Hr). elim (H n1 ft Hin). exact Hr.
    - intros H n1 ft Hin Hr.
      assert (field_at fs 0 d = true)
        by (apply (field_at_offsetof fs Hnd); now exists n1, ft).
      congruence. }
  rewrite Hfield. clear Hfield.
  assert (Hcase : fs = [] \/ fs <> [])
    by (destruct fs; [left | right]; congruence).
  destruct Hcase as [-> | Hne].
  - rewrite type_sizeof_struct. simpl.
    destruct (Z.leb_spec (stk + 0) o), (Z.ltb_spec o (stk + 0 + (0 - 0)));
      simpl; split; try discriminate; intros; lia.
  - rewrite !(type_sizeof_struct_nonempty nm fs Hne).
    pose proof (struct_align_pos nm fs Hsz Hne) as Hal.
    rewrite <- (gap_at_first fs d Hsz).
    remember (walk_end fs 0) as W eqn:EW.
    pose proof (type_padding_range W _ Hal) as Hpad.
    remember (type_padding W (type_alignof (Tstruct nm fs))) as P eqn:EP.
    clear EP Hal.
    pose proof (walk_end_ge fs Hsz 0) as HW. rewrite <- EW in HW.
    destruct (gap_field_tiling fs Hsz 0 d) as [T1 T2]. rewrite <- EW in T1, T2.
    assert (Hd : d = o - stk) by reflexivity. clearbody d.
    destruct (Z_lt_le_dec d 0) as [Hneg | Hpos];
      [| destruct (Z_lt_le_dec d W) as [Hin | Hout]].
    + destruct (T2 ltac:(lia)) as [-> ->].
      destruct (Z.leb_spec (stk + W) o); cbn [andb orb];
        split; try discriminate; intros; lia.
    + rewrite (T1 ltac:(lia)).
      destruct (Z.leb_spec (stk + W) o); [lia |].
      cbn [andb]. rewrite orb_false_r.
      destruct (field_at fs 0 d); cbn [negb]; split; try discriminate;
        intros; try tauto; try lia;
          try (split; [lia | reflexivity]).
    + destruct (T2 ltac:(lia)) as [-> ->]. cbn [orb].
      destruct (Z.leb_spec (stk + W) o); [| lia].
      destruct (Z.ltb_spec o (stk + W + (W + P - W))); cbn [andb];
        split; try discriminate; intros; try lia;
          try (split; [lia | reflexivity]).
Qed.

(** Running zero-fills clears the bytes they cover and nothing else. *)
Lemma run_bzeros (zs : list vinsn) :
  Forall is_bzero zs ->
  forall m,
    exists m',
      run zs None m = Some m' /\ regs m' = regs m
      /\ forall o, stk m' o = if covered zs o then 0 else stk m o.
Proof.
  induction 1 as [| v zs Hv Hzs IH]; intros m.
  - exists m. simpl. auto.
  - destruct v; simpl in Hv; try contradiction.
    simpl run.
    match goal with
    | |- context [run zs None ?m1] => destruct (IH m1) as (m' & R & G & S)
    end.
    exists m'. split; [exact R |]. split; [exact G |].
    intros o. rewrite S. simpl.
    destruct (covered zs o); [now rewrite orb_true_r |].
    rewrite orb_false_r. reflexivity.
Qed.

Lemma fmt_d_injective (i j : nat) : fmt_d i = fmt_d j -> i = j.
Proof.
  unfold fmt_d. intros H.
  apply (f_equal NilEmpty.uint_of_string) in H.
  rewrite !NilEmpty.usu in H. injection H as H.
  apply (f_equal Nat.of_uint) in H.
  now rewrite !DecimalNat.Unsigned.of_to in H.
Qed.

(** The name [struct_type_infer] gives to field [k]. *)
Definition field_name (k : nat) : string := "f" ++ fmt_d k.

Lemma field_names_nodup (i n : nat) : NoDup (map field_name (seq i n)).
Proof.
  apply NoDup_map_NoDup_ForallPairs; [| apply seq_NoDup].
  intros a b _ _ H. unfold field_name in H. simpl in H.
  injection H as H. now apply fmt_d_injective.
Qed.

(** The fields [struct_type_infer] synthesizes: one per argument, named
    [f0], [f1], ... *)
Lemma struct_fields_spec (args : list node) (st : state) :
  forall i fs,
    struct_fields args i st = Some fs ->
    List.length args = List.length fs
    /\ args_have_syms args
    /\ map fst fs = map field_name (seq i (List.length args)).
Proof.
  induction args as [| a args IH]; intros i fs H; simpl in H.
  - injection H as <-. repeat split. constructor.
  - destruct (node_sym a) as [y |] eqn:Hy; [| discriminate].
    destruct (type_of st y) as [t |]; [| discriminate].
    destruct (struct_fields args (S i) st) as [fs' |] eqn:E; [| discriminate].
    injection H as <-.
    destruct (IH (S i) fs' E) as (L & S & N).
    simpl. split; [now rewrite L |]. split.
    + constructor; [now exists y | exact S].
    + now rewrite N.
Qed.

(** C9. For a struct literal whose type is the one [struct_type_infer]
    synthesizes from its arguments, pre-order code generation appends
    zero-fills only, and these cover exactly the padding bytes of the struct
    in the literal's stack region: the bytes inside the struct that lie in
    no field, that is the gaps between consecutive fields and the padding
    after the last field. Executed, they set every padding byte to zero and
    change no other byte. *)
Theorem struct_ir_pre_zero_fills_padding
        (n : node) (st : state) (ns : sym_id) (tn : type) (nm : string)
        (fs : list tfield) :
  node_sym n = Some ns -> type_of st ns = Some tn ->
  type_base tn = Tstruct nm fs ->
  struct_fields (node_args n) 0 st = Some fs ->
  fields_sized fs ->
  let st1 := ir_init_sym (hint_stack_on st ns) ns in
  let base := stack (irs (syms st1 ns)) in
  type_sizeof_t (Tstruct nm fs) <= MAX_BPF_STACK ->
  - MAX_BPF_STACK <= base <= 0 ->
  exists st' zs,
    struct_ir_pre n st = Returned 0 st'
    /\ vi (ir st') = (vi (ir st1) ++ zs)%list
    /\ Forall is_bzero zs
    /\ (forall o,
           covered zs o = true <-> is_padding (Tstruct nm fs) (o - base))
    /\ forall m,
        exists m',
          run zs None m = Some m' /\ regs m' = regs m
          /\ forall o,
              (is_padding (Tstruct nm fs) (o - base) -> stk m' o = 0)
              /\ (~ is_padding (Tstruct nm fs) (o - base) ->
                  stk m' o = stk m o).
Proof.
  intros Hn Ht Hbase Hfields Hsz st1 base Hmax Hstk.
  destruct (struct_fields_spec _ _ _ _ Hfields) as (Hlen & Hargs & Hnames).
  assert (Hnd : NoDup (map fst fs))
    by (rewrite Hnames; apply field_names_nodup).
  assert (Hcover :
            forall o,
              covered (struct_pads base nm fs) o = true
              <-> is_padding (Tstruct nm fs) (o - base))
    by (intros o; now apply struct_pads_cover_padding).
  assert (Hbz : Forall is_bzero (struct_pads base nm fs)).
  { unfold struct_pads. apply Forall_app. split;
      [apply inner_pads_is_bzero | apply bzero_if_is_bzero]. }
  assert (HW : 0 <= walk_end fs 0 <= type_sizeof_t (Tstruct nm fs)).
  { pose proof (walk_end_ge fs Hsz 0).
    assert (Hcase : fs = [] \/ fs <> [])
      by (destruct fs; [left | right]; congruence).
    destruct Hcase as [-> | Hne]; [simpl; lia |].
    rewrite (type_sizeof_struct_nonempty nm fs Hne).
    pose proof (type_padding_range (walk_end fs 0) _
                  (struct_align_pos nm fs Hsz Hne)). lia. }
  destruct (struct_ir_pre_loop_pads nm fs base Hnd Hsz ltac:(lia) Hstk
              fs [] (node_args n) 0 0 st1 eq_refl Hlen Hargs)
    as (o' & s' & st' & E & V & L).
  exists (if type_sizeof_t (Tstruct nm fs) - walk_end fs 0 =? 0 then st'
          else ir_emit_bzero st' (base + walk_end fs 0)
                 (type_sizeof_t (Tstruct nm fs) - walk_end fs 0)),
    (struct_pads base nm fs).
  split; [| split; [| split; [exact Hbz | split; [exact Hcover |]]]].
  - unfold struct_ir_pre. rewrite Hn, Ht, Hbase. cbn [sou_fields].
    fold st1. fold base. rewrite E. cbn [type_sizeof].
    assert (Hos : o' + s' = walk_end fs 0).
    { destruct fs; [destruct L; subst; reflexivity | exact L]. }
    rewrite Hos.
    replace (base + o' + s') with (base + walk_end fs 0) by lia.
    rewrite usize_small by lia.
    rewrite ssize_small by lia.
    reflexivity.
  - unfold struct_pads, bzero_if.
    destruct (type_sizeof_t (Tstruct nm fs) - walk_end fs 0 =? 0).
    + rewrite V. simpl walk_end. now rewrite app_nil_r.
    + unfold ir_emit_bzero. rewrite emit_vi, V. simpl walk_end.
      now rewrite <- app_assoc.
  - intros m. destruct (run_bzeros _ Hbz m) as (m' & R & G & S).
    exists m'. split; [exact R |]. split; [exact G |].
    intros o. rewrite S. split; intros H.
    + apply Hcover in H. now rewrite H.
    + destruct (covered (struct_pads base nm fs) o) eqn:C; [| reflexivity].
      apply Hcover in C. contradiction.
Qed.

(** * Further properties of the hooks *)

(** ** Error behaviour of type inference *)

(** From [st] to [st'] nothing happened but one error report. *)
Definition only_error_added (st st' : state) : Prop :=
  syms st' = syms st /\ types st' = types st /\ virt st' = virt st
  /\ ir st' = ir st
  /\ exists d, diags st' = (diags st ++ [d])%list /\ sev d = Error.


Lemma only_error_added__ne (st : state) (n : node) (f : string) :
  only_error_added st (_ne st n f).
Proof.
  unfold only_error_added. simpl. repeat split. eexists. split; reflexivity.
Qed.



(** ** Type inference and code generation keep to their own state *)

(** [st'] has the stream, the allocator state and every symbol's storage
    decision of [st]. *)
Definition same_storage (st st' : state) : Prop :=
  ir st' = ir st /\ forall y, irs (syms st' y) = irs (syms st y).

Definition storage_kept (st : state) (o : outcome) : Prop :=
  match o with
  | Returned _ st' | Aborted st' => same_storage st st'
  | Crashed => True
  end.

Lemma same_storage_refl (st : state) : same_storage st st.
Proof. split; reflexivity. Qed.

Lemma same_storage_set_sym_type (st0 st : state) (a : sym_id)
      (t : option type) :
  same_storage st0 st -> same_storage st0 (set_sym_type st a t).
Proof.
  intros [H1 H2]. split; [exact H1 |].
  intros y. rewrite <- H2. unfold set_sym_type, upd. simpl.
  destruct (Nat.eqb_spec a y) as [-> | _]; reflexivity.
Qed.

Lemma same_storage__ne (st0 st : state) (n : node) (f : string) :
  same_storage st0 st -> same_storage st0 (_ne st n f).
Proof. intros H. exact H. Qed.

Lemma same_storage__nw (st0 st : state) (n : node) (f : string) :
  same_storage st0 st -> same_storage st0 (_nw st n f).
Proof. intros H. exact H. Qed.

Lemma same_storage_set_virtual (st0 st : state) (n : node) :
  same_storage st0 st -> same_storage st0 (set_virtual st n).
Proof. intros H. exact H. Qed.

Lemma same_storage_type_add (st0 st : state) (t : type) :
  same_storage st0 st -> same_storage st0 (type_add st t).
Proof. intros H. exact H. Qed.

Lemma strcmp_check_operand_storage (n s : node) (st0 st st' : state) :
  strcmp_check_operand n s st = Some st' ->
  same_storage st0 st -> same_storage st0 st'.
Proof.
  unfold strcmp_check_operand.
  repeat break_match; intros H; inversion H; subst; auto.
Qed.

Ltac solve_storage :=
  simpl; try exact I;
  repeat first
         [ apply same_storage_refl
         | apply same_storage_set_sym_type
         | apply same_storage__ne
         | apply same_storage__nw
         | apply same_storage_set_virtual
         | apply same_storage_type_add ].

(** Type inference decides types only: whatever a hook does, the
    instruction stream, the allocator state and the storage decision
    (location, size, offsets, hints) of every symbol stay as they were. *)
Theorem type_infer_keeps_storage (f : func) (n : node) (st : state) :
  In f built_ins -> storage_kept st (run_hook (type_infer f) n st).
Proof.
  intros Hf. unfold built_ins in Hf. simpl in Hf.
  repeat (destruct Hf as [<- | Hf]); try contradiction; simpl.
  - unfold strcmp_type_infer. repeat break_match; solve_storage.
    eapply strcmp_check_operand_storage; [eassumption |].
    eapply strcmp_check_operand_storage; [eassumption |].
    apply same_storage_refl.
  - unfold mem_type_infer. repeat break_match; solve_storage.
  - unfold mem_type_infer. repeat break_match; solve_storage.
  - unfold struct_deref_type_infer. repeat break_match; solve_storage.
  - unfold struct_dot_type_infer. repeat break_match; solve_storage.
  - unfold deref_type_infer. repeat break_match; solve_storage.
  - unfold subscript_type_infer, subscript_type_infer_up,
      subscript_type_infer_down.
    repeat break_match; solve_storage.
  - unfold struct_type_infer. repeat break_match; solve_storage.
  - unfold assign_type_infer. repeat break_match; solve_storage.
  - apply same_storage_refl.
Qed.

(** [st'] has the registered types, the diagnostics, the literal flags and
    every symbol's type of [st]. *)
Definition same_types (st st' : state) : Prop :=
  types st' = types st /\ diags st' = diags st /\ virt st' = virt st
  /\ forall y, type_of st' y = type_of st y.

Definition types_kept (st : state) (o : outcome) : Prop :=
  match o with
  | Returned _ st' | Aborted st' => same_types st st'
  | Crashed => True
  end.

(** Run an optional code generation hook; a NULL hook does nothing. *)
Definition run_ir_hook (h : option (option node -> node -> state -> outcome))
           (up : option node) (n : node) (st : state) : outcome :=
  match h with
  | Some g => g up n st
  | None => Returned 0 st
  end.

Lemma same_types_refl (st : state) : same_types st st.
Proof. repeat split. Qed.

Lemma same_types_set_sym_irs (st0 st : state) (a : sym_id) (i : irstate) :
  same_types st0 st -> same_types st0 (set_sym_irs st a i).
Proof.
  intros (H1 & H2 & H3 & H4). repeat split; auto.
  intros y. rewrite <- H4. unfold type_of, set_sym_irs, upd. simpl.
  destruct (Nat.eqb_spec a y) as [-> | _]; reflexivity.
Qed.

Lemma same_types_set_ir (st0 st : state) (i : ir_t) :
  same_types st0 st -> same_types st0 (set_ir st i).
Proof. intros H. exact H. Qed.

Lemma same_types_emit (st0 st : state) (v : vinsn) :
  same_types st0 st -> same_types st0 (emit st v).
Proof. intros H. exact H. Qed.

Lemma same_types_ir_init_sym (st0 st : state) (s : sym_id) :
  same_types st0 st -> same_types st0 (ir_init_sym st s).
Proof.
  intros H. unfold ir_init_sym.
  apply same_types_set_sym_irs. apply same_types_set_ir.
  intros. exact H.
Qed.

Lemma same_types_strcmp_emit (st0 st : state) (dst a b : Z)
      (blit : option string) (len : Z) :
  same_types st0 st -> same_types st0 (strcmp_emit st dst a b blit len).
Proof.
  intros (H1 & H2 & H3 & H4). unfold strcmp_emit, ir_alloc_label.
  match goal with
  | |- context [strcmp_emit_loop ?k ?d ?x ?y ?bl ?dn ?s] =>
      destruct (strcmp_emit_loop_code k d x y bl dn s)
        as [_ (S1 & S2 & S3 & S4 & _)]
  end.
  unfold ir_emit_label. apply same_types_emit.
  simpl in S1, S2, S3, S4.
  repeat split; try congruence.
  intros y. unfold type_of. rewrite S1. apply H4.
Qed.

Ltac types_step :=
  first
    [ apply same_types_refl
    | apply same_types_emit
    | apply same_types_set_sym_irs
    | apply same_types_set_ir
    | apply same_types_ir_init_sym
    | apply same_types_strcmp_emit ].

Ltac unfold_emitters :=
  unfold ir_emit_insn, ir_emit_label, ir_emit_bzero, ir_emit_ldbp,
    ir_emit_ldmap, ir_emit_sym_to_reg, ir_emit_reg_to_sym,
    ir_emit_read_to_sym, ir_emit_sym_to_sym, ir_emit_sym_to_stack,
    hint_stack_on, hint_lval_on, hint_dot_on, ir_alloc_label in *.

Lemma same_types_struct_ir_pre_loop (t : type) (base : Z)
      (fs : list tfield) :
  forall (args : list node) (offset size : Z) (st0 st : state) r,
    same_types st0 st ->
    struct_ir_pre_loop t base fs args offset size st = Some r ->
    same_types st0 (snd r).
Proof.
  induction fs as [| f fs IH]; intros args offset size st0 st r H E.
  - simpl in E. inversion E. exact H.
  - cbn [struct_ir_pre_loop] in E.
    destruct args as [| a args]; [discriminate |].
    destruct (node_sym a) as [y |]; [| discriminate].
    destruct args as [| a1 args].
    + eapply IH; [| exact E].
      destruct (irloc_eqb _ _); unfold_emitters; repeat types_step; exact H.
    + destruct fs as [| f1 fs]; [discriminate |].
      eapply IH; [| exact E].
      destruct (irloc_eqb _ _); destruct (_ =? 0); unfold_emitters;
        repeat types_step; exact H.
Qed.

Lemma same_types_struct_ir_post_loop (t : type) (base : Z)
      (fs : list tfield) :
  forall (args : list node) (st0 st st' : state),
    same_types st0 st ->
    struct_ir_post_loop t base fs args st = Some st' ->
    same_types st0 st'.
Proof.
  induction fs as [| f fs IH]; intros args st0 st st' H E.
  - simpl in E. inversion E. subst. exact H.
  - cbn [struct_ir_post_loop] in E.
    destruct args as [| a args]; [discriminate |].
    destruct (node_sym a) as [y |]; [| discriminate].
    eapply IH; [| exact E].
    unfold_emitters. apply same_types_emit. exact H.
Qed.

Ltac solve_types :=
  simpl; try exact I; unfold_emitters; cbn [fst snd];
  repeat types_step.

(** Code generation decides storage and emits instructions only: whatever a
    pre-order or post-order hook does, also when it ends in a failed
    assertion, every symbol keeps its type, and the type registry, the
    diagnostics and the literal flags stay as they were. *)
Theorem codegen_keeps_types (f : func) (up : option node) (n : node)
        (st : state) :
  In f built_ins ->
  types_kept st (run_ir_hook (ir_pre f) up n st)
  /\ types_kept st (run_ir_hook (ir_post f) up n st).
Proof.
  intros Hf. unfold built_ins in Hf. simpl in Hf.
  repeat (destruct Hf as [<- | Hf]); try contradiction; simpl; split;
    try apply same_types_refl.
  - unfold strcmp_ir_post. repeat break_match; solve_types.
  - unfold mem_ir_post. repeat break_match; solve_types.
  - unfold str_ir_post. repeat break_match; solve_types.
  - unfold struct_dot_ir_pre. repeat break_match; solve_types.
  - unfold struct_dot_ir_post, struct_dot_probe_read.
    repeat break_match; solve_types.
  - unfold deref_ir_post. repeat break_match; solve_types.
  - unfold subscript_ir_post, subscript_ir_post_map, ir_alloc_label.
    cbv beta iota zeta.
    repeat break_match; solve_types.
  - unfold struct_ir_pre.
    destruct (node_sym n) as [ns |]; [| exact I].
    destruct (type_of st ns) as [tn |]; [| exact I].
    destruct (sou_fields (type_base tn)) as [fs |]; [| exact I].
    match goal with
    | |- context [struct_ir_pre_loop ?t ?b ?l ?a ?o ?s ?x] =>
        destruct (struct_ir_pre_loop t b l a o s x) as [[[o' s'] st'] |] eqn:E;
        [| exact I];
        assert (H : same_types st st')
          by (apply (same_types_struct_ir_pre_loop t b l a o s st x _
                       ltac:(unfold_emitters; repeat types_step) E))
    end.
    destruct (_ =? 0); simpl; unfold_emitters; repeat types_step; exact H.
  - unfold struct_ir_post.
    destruct (node_sym n) as [ns |]; [| exact I].
    destruct (type_of st ns) as [tn |]; [| exact I].
    destruct (sou_fields (type_base tn)) as [fs |]; [| exact I].
    match goal with
    | |- context [struct_ir_post_loop ?t ?b ?l ?a ?x] =>
        destruct (struct_ir_post_loop t b l a x) as [st' |] eqn:E;
        [| exact I]
    end.
    simpl. eapply same_types_struct_ir_post_loop; [| exact E].
    apply same_types_refl.
  - unfold assign_ir_pre. repeat break_match; solve_types.
  - unfold assign_ir_post, map_ir_update. repeat break_match; solve_types.
  - unfold delete_ir_pre. repeat break_match; solve_types.
  - unfold delete_ir_post. repeat break_match; solve_types.
Qed.

(** ** Code generation only appends to the stream *)

(** The stream of [st'] is the stream of [st] with entries added at its
    end. *)
Definition stream_extended (st st' : state) : Prop :=
  exists code, vi (ir st') = (vi (ir st) ++ code)%list.

Definition appends_only (st : state) (o : outcome) : Prop :=
  match o with
  | Returned _ st' | Aborted st' => stream_extended st st'
  | Crashed => True
  end.

(** The storage allocator emits nothing. *)
Definition allocator_emits_nothing : Prop :=
  forall i s t, vi (fst (ir_init_irs i s t)) = vi i.

Lemma stream_extended_refl (st : state) : stream_extended st st.
Proof. exists []. now rewrite app_nil_r. Qed.

Lemma stream_extended_emit (st0 st : state) (v : vinsn) :
  stream_extended st0 st -> stream_extended st0 (emit st v).
Proof.
  intros [code H]. exists (code ++ [v])%list.
  rewrite emit_vi, H. now rewrite app_assoc.
Qed.

Lemma stream_extended_set_sym_irs (st0 st : state) (a : sym_id)
      (i : irstate) :
  stream_extended st0 st -> stream_extended st0 (set_sym_irs st a i).
Proof. intros H. exact H. Qed.

Lemma stream_extended_set_ir (st0 st : state) (i : ir_t) :
  vi i = vi (ir st) ->
  stream_extended st0 st -> stream_extended st0 (set_ir st i).
Proof. intros E [code H]. exists code. simpl. now rewrite E. Qed.

Lemma stream_extended_ir_init_sym (st0 st : state) (s : sym_id) :
  allocator_emits_nothing ->
  stream_extended st0 st -> stream_extended st0 (ir_init_sym st s).
Proof.
  intros Ha H. unfold ir_init_sym.
  apply stream_extended_set_sym_irs. apply stream_extended_set_ir; [| exact H].
  apply Ha.
Qed.

Lemma stream_extended_strcmp_emit (st0 st : state) (dst a b : Z)
      (blit : option string) (len : Z) :
  stream_extended st0 st ->
  stream_extended st0 (strcmp_emit st dst a b blit len).
Proof.
  intros [code H].
  destruct (strcmp_emit_code st dst a b blit len) as [E _].
  eexists. rewrite E, H. rewrite <- app_assoc. reflexivity.
Qed.

Lemma stream_extended_struct_ir_pre_loop (t : type) (base : Z)
      (fs : list tfield) :
  forall (args : list node) (offset size : Z) (st0 st : state) r,
    stream_extended st0 st ->
    struct_ir_pre_loop t base fs args offset size st = Some r ->
    stream_extended st0 (snd r).
Proof.
  induction fs as [| f fs IH]; intros args offset size st0 st r H E.
  - simpl in E. inversion E. exact H.
  - cbn [struct_ir_pre_loop] in E.
    destruct args as [| a args]; [discriminate |].
    destruct (node_sym a) as [y |]; [| discriminate].
    destruct args as [| a1 args].
    + eapply IH; [| exact E].
      destruct (irloc_eqb _ _); unfold hint_stack_on;
        repeat apply stream_extended_set_sym_irs; exact H.
    + destruct fs as [| f1 fs]; [discriminate |].
      eapply IH; [| exact E].
      destruct (irloc_eqb _ _); destruct (_ =? 0);
        unfold hint_stack_on, ir_emit_bzero;
        repeat first [ apply stream_extended_set_sym_irs
                     | apply stream_extended_emit ]; exact H.
Qed.

Lemma stream_extended_struct_ir_post_loop (t : type) (base : Z)
      (fs : list tfield) :
  forall (args : list node) (st0 st st' : state),
    stream_extended st0 st ->
    struct_ir_post_loop t base fs args st = Some st' ->
    stream_extended st0 st'.
Proof.
  induction fs as [| f fs IH]; intros args st0 st st' H E.
  - simpl in E. inversion E. subst. exact H.
  - cbn [struct_ir_post_loop] in E.
    destruct args as [| a args]; [discriminate |].
    destruct (node_sym a) as [y |]; [| discriminate].
    eapply IH; [| exact E].
    unfold ir_emit_sym_to_stack. apply stream_extended_emit. exact H.
Qed.

Ltac stream_step Ha :=
  first
    [ apply stream_extended_refl
    | apply stream_extended_strcmp_emit
    | apply (fun st0 st s => stream_extended_ir_init_sym st0 st s Ha)
    | apply stream_extended_emit
    | apply stream_extended_set_sym_irs
    | apply stream_extended_set_ir; [first [reflexivity | apply Ha] |] ].

Ltac solve_stream Ha :=
  cbn [appends_only]; try exact I; unfold_emitters; cbn [fst snd];
  repeat stream_step Ha.

(** Provided the storage allocator emits nothing, no pre-order or
    post-order hook of the file ever removes, reorders or rewrites an
    entry of the instruction stream: whatever it does, also when it ends in
    a failed assertion, the stream it leaves is the one it found with
    entries added at the end. *)
Theorem codegen_only_appends (f : func) (up : option node) (n : node)
        (st : state) :
  allocator_emits_nothing ->
  In f built_ins ->
  appends_only st (run_ir_hook (ir_pre f) up n st)
  /\ appends_only st (run_ir_hook (ir_post f) up n st).
Proof.
  intros Ha Hf. unfold built_ins in Hf. simpl in Hf.
  repeat (destruct Hf as [<- | Hf]); try contradiction; simpl; split;
    try apply stream_extended_refl.
  - unfold strcmp_ir_post. repeat break_match; solve_stream Ha.
  - unfold mem_ir_post. repeat break_match; solve_stream Ha.
  - unfold str_ir_post. repeat break_match; solve_stream Ha.
  - unfold struct_dot_ir_pre. repeat break_match; solve_stream Ha.
  - unfold struct_dot_ir_post, struct_dot_probe_read.
    repeat break_match; solve_stream Ha.
  - unfold deref_ir_post. repeat break_match; solve_stream Ha.
  - unfold subscript_ir_post, subscript_ir_post_map, ir_alloc_label.
    cbv beta iota zeta.
    repeat break_match; solve_stream Ha.
  - unfold struct_ir_pre.
    destruct (node_sym n) as [ns |]; [| exact I].
    destruct (type_of st ns) as [tn |]; [| exact I].
    destruct (sou_fields (type_base tn)) as [fs |]; [| exact I].
    match goal with
    | |- context [struct_ir_pre_loop ?t ?b ?l ?a ?o ?s ?x] =>
        destruct (struct_ir_pre_loop t b l a o s x) as [[[o' s'] st'] |] eqn:E;
        [| exact I];
        assert (H : stream_extended st st')
          by (apply (stream_extended_struct_ir_pre_loop t b l a o s st x _
                       ltac:(unfold_emitters; repeat stream_step Ha) E))
    end.
    destruct (_ =? 0); cbn [appends_only]; unfold_emitters;
      repeat stream_step Ha; exact H.
  - unfold struct_ir_post.
    destruct (node_sym n) as [ns |]; [| exact I].
    destruct (type_of st ns) as [tn |]; [| exact I].
    destruct (sou_fields (type_base tn)) as [fs |]; [| exact I].
    match goal with
    | |- context [struct_ir_post_loop ?t ?b ?l ?a ?x] =>
        destruct (struct_ir_post_loop t b l a x) as [st' |] eqn:E;
        [| exact I]
    end.
    simpl. eapply stream_extended_struct_ir_post_loop; [| exact E].
    apply stream_extended_refl.
  - unfold assign_ir_pre. repeat break_match; solve_stream Ha.
  - unfold assign_ir_post, map_ir_update. repeat break_match; solve_stream Ha.
  - unfold delete_ir_pre. repeat break_match; solve_stream Ha.
  - unfold delete_ir_post. repeat break_match; solve_stream Ha.
Qed.

(** ** A pass of type inference only adds types *)

Lemma keeps_type_and_then (o : outcome) (k : state -> outcome) (y : sym_id)
      (t : option type) :
  keeps_type o y t ->
  (forall st, type_of st y = t -> keeps_type (k st) y t) ->
  keeps_type (and_then o k) y t.
Proof.
  intros Ho Hk. destruct o as [rc st | st |]; simpl in *; auto.
  destruct (rc =? 0); simpl; auto.
Qed.

(** Across one pass of type inference over a graph without struct literals
    a symbol that has a type keeps exactly that type, wherever the pass
    stops: inference never retracts or replaces a type it has given. *)
Theorem type_infer_pass_keeps_types (g : node) (y : sym_id) (t : type) :
  no_struct_literal g = true ->
  forall st,
    type_of st y = Some t -> keeps_type (type_infer_pass g st) y (Some t).
Proof.
  unfold no_struct_literal.
  induction g as [id l s f i args IH | |] using node_forall_ind;
    [| intros _ st H; exact H | intros _ st H; exact H].
  rewrite forall_nodes_expr. intros Hs st Hy.
  apply andb_true_iff in Hs. destruct Hs as [Hs Hsa].
  simpl type_infer_pass.
  apply keeps_type_and_then.
  - clear Hs. revert st Hy.
    induction args as [| a args IHa]; intros st Hy; [exact Hy |].
    simpl in Hsa. apply andb_true_iff in Hsa. destruct Hsa as [Hsa1 Hsa2].
    apply keeps_type_and_then.
    + apply (Forall_inv IH); assumption.
    + intros st1 Hy1. apply IHa; [exact (Forall_inv_tail IH) | | ]; assumption.
  - intros st1 Hy1. unfold hook_of.
    destruct (func_get f) as [fn |] eqn:Ef; [| exact Hy1].
    apply func_get_some in Ef. destruct Ef as [Hin Hname].
    apply type_infer_keeps_types; auto.
    intros Hstruct. rewrite Hname in Hstruct. rewrite Hstruct in Hs.
    unfold node_is in Hs. rewrite String.eqb_refl in Hs. discriminate.
Qed.

(** ** Static validation of [delete] *)

(** Static validation of [delete] succeeds exactly when the operand is a
    subscript expression; any other operand, or none, is rejected with
    [-EINVAL] and one error at the [delete] node. The verdict does not
    depend on the state. *)
Theorem delete_static_validate_subscript_only (n : node) (st : state) :
  (succeeds (delete_static_validate n st) <-> is_subscript_expr (arg n 0))
  /\ (~ is_subscript_expr (arg n 0) <->
      exists st',
        delete_static_validate n st = Returned (- EINVAL) st'
        /\ only_error_added st st'
        /\ forall d, In d (diags st') -> ~ In d (diags st) ->
                     at_node d = node_addr n)
  /\ (forall st2,
         rc_of (delete_static_validate n st2)
         = rc_of (delete_static_validate n st)).
Proof.
  unfold delete_static_validate, succeeds.
  rewrite <- node_is_subscript.
  destruct (node_is (arg n 0) "[]") eqn:E.
  - split; [| split].
    + split; [reflexivity | intros _; now exists st].
    + split; [intros H; now elim H | intros (st' & H & _); discriminate H].
    + reflexivity.
  - split; [| split].
    + split; [intros (st' & H); discriminate H | discriminate].
    + split; [| discriminate].
      intros _. eexists. split; [reflexivity |].
      split; [apply only_error_added__ne |].
      simpl. intros d Hin Hnot. apply in_app_or in Hin.
      destruct Hin as [Hin | [<- | []]]; [contradiction | reflexivity].
    + reflexivity.
Qed.

(** ** [p->m] and [( *p ).m] infer the same type *)



(** ** Typing an assignment into a fresh map *)

(** For [m[k] = v] with [v] and [k] typed and nothing else: the assignment
    hook gives the subscript the type of [v] and the assignment the type
    void, and the subscript hook then gives [m] the hash map type from
    the type of [k] to the type of [v]; no other symbol changes and no
    diagnostic is reported. *)
Theorem assign_then_subscript_types_map
        (st : state) (m k v : node) (na yl ym yk yv : sym_id) (tk tv : type)
        (id id1 : node_id) (l l1 : Z) (f f1 : string) (i i1 : bool) :
  node_sym m = Some ym -> node_sym k = Some yk -> node_sym v = Some yv ->
  type_of st yv = Some tv -> type_of st yk = Some tk ->
  type_of st na = None -> type_of st yl = None -> type_of st ym = None ->
  na <> yl -> na <> ym -> yl <> ym ->
  let lval := Expr id1 l1 (Some yl) f1 i1 [m; k] in
  let assign := Expr id l (Some na) f i [lval; v] in
  exists st',
    and_then (assign_type_infer assign st) (subscript_type_infer lval)
    = Returned 0 st'
    /\ type_of st' na = Some t_void
    /\ type_of st' yl = Some tv
    /\ type_of st' ym = Some (Tmap tk tv BPF_MAP_TYPE_HASH 0)
    /\ (forall y, y <> na -> y <> yl -> y <> ym ->
                  type_of st' y = type_of st y)
    /\ diags st' = diags st /\ types st' = types st.
Proof.
  intros Hm Hk Hv Htv Htk Hna Hyl Hym N1 N2 N3 lval assign.
  assert (K1 : yk <> na) by (intros ->; congruence).
  assert (K2 : yk <> yl) by (intros ->; congruence).
  unfold assign_type_infer, arg.
  cbn [assign lval node_sym node_args nth_error].
  apply typed_false in Hna. rewrite Hna, Hv, Htv, Hyl.
  cbn [and_then Z.eqb].
  set (st1 := set_sym_type (set_sym_type st yl (Some tv)) na (Some t_void)).
  assert (T1 : type_of st1 yl = Some tv).
  { unfold st1. rewrite type_of_set_sym_type_other by exact N1.
    apply type_of_set_sym_type_same. }
  assert (T2 : type_of st1 yk = Some tk).
  { unfold st1. rewrite !type_of_set_sym_type_other by congruence.
    exact Htk. }
  assert (T3 : type_of st1 ym = None).
  { unfold st1. rewrite !type_of_set_sym_type_other by congruence.
    exact Hym. }
  unfold subscript_type_infer, subscript_type_infer_down, arg.
  cbn [lval node_sym node_args nth_error].
  rewrite Hk, Hm, (typed_some _ _ _ T2), (typed_some _ _ _ T1).
  apply typed_false in T3. rewrite T3. cbn [negb].
  rewrite T2, T1.
  eexists. split; [reflexivity |].
  unfold type_map_of.
  split.
  { rewrite type_of_set_sym_type_other by congruence.
    unfold st1. apply type_of_set_sym_type_same. }
  split.
  { rewrite type_of_set_sym_type_other by congruence. exact T1. }
  split; [apply type_of_set_sym_type_same |].
  split; [| split; reflexivity].
  intros y Y1 Y2 Y3.
  rewrite type_of_set_sym_type_other by congruence.
  unfold st1. rewrite !type_of_set_sym_type_other by congruence.
  reflexivity.
Qed.

(** ** The type [mem] and [str] infer *)

(** Whenever [mem_type_infer] gives a type to a node that had none, it has
    returned 0, the pointer argument is typed and no wider than a native
    pointer, and the type is an array of [char]: of the configured default
    length when no length is given, and otherwise of the given numeric
    literal, which does not exceed the stack limit. *)
Theorem mem_type_infer_result (n : node) (st st' : state) (rc : Z)
        (ns : sym_id) (t : type) :
  mem_type_infer n st = Returned rc st' ->
  node_sym n = Some ns -> type_of st ns = None ->
  type_of st' ns = Some t ->
  rc = 0
  /\ (exists a ya ta,
         arg n 0 = Some a /\ node_sym a = Some ya
         /\ type_of st ya = Some ta /\ type_sizeof_t ta <= 8)
  /\ match arg n 1 with
     | None => t = Tarray t_char string_size
     | Some len =>
         exists id l s v,
           len = Num id l s v
           /\ t = Tarray t_char (usize v)
           /\ 0 <= usize v <= MAX_BPF_STACK
           /\ type_sizeof_t t = usize v
     end.
Proof.
  intros H Hn Hns Ht. unfold mem_type_infer in H.
  rewrite Hn in H. pose proof Hns as Hu. apply typed_false in Hu.
  rewrite Hu in H.
  destruct (arg n 0) as [a |] eqn:Ea; [| discriminate].
  destruct (node_sym a) as [ya |] eqn:Eya; [| discriminate].
  destruct (type_of st ya) as [ta |] eqn:Eta;
    [| inversion H; subst; congruence].
  assert (Hrange : forall v, 0 <= usize v)
    by (intros v; unfold usize; apply Z.mod_pos_bound; lia).
  destruct (arg n 1) as [len |].
  - destruct (node_sym len) as [yl |]; [| discriminate].
    destruct (negb (typed st yl)); [inversion H; subst; congruence |].
    cbn [type_sizeof] in H.
    destruct (Z.gtb_spec (type_sizeof_t ta) 8) as [G | G];
      [inversion H; subst; rewrite type_of__ne in Ht; congruence |].
    destruct len as [| id l s v |];
      try (inversion H; subst; rewrite type_of__ne in Ht; congruence).
    destruct (Z.gtb_spec (usize v) MAX_BPF_STACK) as [G2 | G2];
      [inversion H; subst; rewrite type_of__ne in Ht; congruence |].
    inversion H; subst. rewrite type_of_set_sym_type_same in Ht.
    inversion Ht; subst. cbv beta iota.
    split; [reflexivity |].
    split; [exists a, ya, ta; repeat split; auto |].
    exists id, l, s, v. repeat split; auto.
    unfold type_array_of. simpl. lia.
  - cbn [type_sizeof] in H.
    destruct (Z.gtb_spec (type_sizeof_t ta) 8) as [G | G];
      [inversion H; subst; rewrite type_of__ne in Ht; congruence |].
    inversion H; subst. rewrite type_of_set_sym_type_same in Ht.
    inversion Ht; subst. cbv beta iota.
    split; [reflexivity |].
    split; [exists a, ya, ta; repeat split; auto | reflexivity].
Qed.

(** ** Subscripts of arrays and pointers are typed but not compiled *)

(** A subscript of an array or of a pointer by a scalar passes type
    inference, which gives it the element or pointee type, but code
    generation for the node so typed ends in a failed assertion and emits
    nothing: only map subscripts are compiled. *)
Theorem array_subscript_typed_but_not_compiled
        (up : option node) (n src key : node) (st : state)
        (ns ysrc ykey : sym_id) (tsrc tkey elem : type) :
  arg n 0 = Some src -> arg n 1 = Some key ->
  node_sym n = Some ns -> node_sym src = Some ysrc ->
  node_sym key = Some ykey ->
  type_of st ns = None -> type_of st ysrc = Some tsrc ->
  type_of st ykey = Some tkey ->
  type_ttype (type_base tkey) = T_SCALAR ->
  (exists len, type_base tsrc = Tarray elem len)
  \/ type_base tsrc = Tpointer elem ->
  exists st',
    subscript_type_infer n st = Returned 0 st'
    /\ type_of st' ns = Some elem
    /\ ir st' = ir st
    /\ subscript_ir_post up n st' = Aborted st'.
Proof.
  intros Ha0 Ha1 Hn Hs Hk Htn Hts Htk Hsc Hb.
  assert (Hne : ns <> ysrc) by congruence.
  unfold subscript_type_infer, subscript_type_infer_up, subscript_ir_post.
  rewrite Ha0, Ha1, Hk, Hn, Hs.
  rewrite (typed_some _ _ _ Htk), (typed_some _ _ _ Hts).
  pose proof Htn as Hu. apply typed_false in Hu. rewrite Hu.
  cbn [negb]. rewrite Hts, Htk, Hsc.
  destruct Hb as [[len Hb] | Hb]; rewrite Hb; cbn;
    eexists; (split; [reflexivity |]);
    rewrite type_of_set_sym_type_same;
    rewrite type_of_set_sym_type_other by exact Hne;
    rewrite Hts, Hb; repeat split.
Qed.

(** ** The type a struct literal synthesizes *)

Lemma struct_fields_types (args : list node) (st : state) :
  forall i fs,
    struct_args_sized args st = Some true ->
    struct_fields args i st = Some fs ->
    Forall2 (fun f a =>
               exists y,
                 node_sym a = Some y /\ type_of st y = Some (snd f)
                 /\ 0 <= type_sizeof_t (snd f))
            fs args.
Proof.
  induction args as [| a args IH]; intros i fs Hs Hf; simpl in Hs, Hf.
  - inversion Hf. constructor.
  - destruct (node_sym a) as [y |] eqn:Hy; [| discriminate].
    destruct (type_of st y) as [t |] eqn:Ht; [| discriminate].
    destruct (struct_fields args (S i) st) as [fs' |] eqn:E; [| discriminate].
    inversion Hf; subst. simpl in Hs.
    destruct (Z.ltb_spec (type_sizeof_t t) 0) as [L | L]; [discriminate |].
    constructor.
    + exists y. simpl. auto.
    + eapply IH; eassumption.
Qed.

(** [struct_type_infer] always returns 0. Either it defers and leaves the
    state as it was, or it registers one new struct type and gives it to the
    node: a struct named after the node's address with exactly one field
    per argument, in order, each typed as its argument (whose size is
    known), under pairwise distinct names. *)
Theorem struct_type_infer_synthesizes (n : node) (st st' : state) (rc : Z) :
  struct_type_infer n st = Returned rc st' ->
  rc = 0
  /\ (st' = st
      \/ exists ns fs,
          node_sym n = Some ns
          /\ st' = set_sym_type
                     (type_add st
                        (Tstruct (":anon_" ++ fmt_ptr (node_addr n)) fs))
                     ns
                     (Some (Tstruct (":anon_" ++ fmt_ptr (node_addr n)) fs))
          /\ List.length fs = node_nargs n
          /\ NoDup (map fst fs)
          /\ Forall2 (fun f a =>
                        exists y,
                          node_sym a = Some y /\ type_of st y = Some (snd f)
                          /\ 0 <= type_sizeof_t (snd f))
                     fs (node_args n)).
Proof.
  unfold struct_type_infer. intros H.
  destruct (struct_args_sized (node_args n) st) as [[|] |] eqn:Es;
    [| inversion H; auto | discriminate].
  cbn [negb] in H.
  destruct (struct_fields (node_args n) 0 st) as [fs |] eqn:Ef;
    [| discriminate].
  destruct (node_sym n) as [ns |] eqn:En; [| discriminate].
  inversion H; subst. split; [reflexivity |]. right.
  exists ns, fs.
  destruct (struct_fields_spec _ _ _ _ Ef) as (Hlen & _ & Hnames).
  repeat split.
  - unfold node_nargs. now rewrite Hlen.
  - rewrite Hnames. apply field_names_nodup.
  - eapply struct_fields_types; eassumption.
Qed.

(** ** The type of a subscript and of a member access *)

(** For a subscript that has no type yet, over a typed container and a
    typed key: inference succeeds exactly when the container is a map, or
    an array or a pointer subscripted by a scalar; the node then gets the
    map's value type, the array's element type or the pointee type. In
    every other case it returns [-EINVAL] and the node stays untyped. *)
Theorem subscript_type_infer_follows_container
        (n src key : node) (st : state) (ns ysrc ykey : sym_id)
        (tsrc tkey : type) :
  arg n 0 = Some src -> arg n 1 = Some key ->
  node_sym n = Some ns -> node_sym src = Some ysrc ->
  node_sym key = Some ykey ->
  type_of st ns = None -> type_of st ysrc = Some tsrc ->
  type_of st ykey = Some tkey ->
  let scalar := ttype_eqb (type_ttype (type_base tkey)) T_SCALAR in
  let result :=
    match type_base tsrc with
    | Tmap _ vtype _ _ => Some vtype
    | Tarray et _ => if scalar then Some et else None
    | Tpointer pt => if scalar then Some pt else None
    | _ => None
    end in
  exists st',
    subscript_type_infer n st
    = Returned (match result with Some _ => 0 | None => - EINVAL end) st'
    /\ type_of st' ns = result
    /\ (forall y, y <> ns -> type_of st' y = type_of st y).
Proof.
  intros Ha0 Ha1 Hn Hs Hk Htn Hts Htk scalar result.
  unfold subscript_type_infer, subscript_type_infer_up.
  rewrite Ha0, Ha1, Hk, Hn, Hs.
  rewrite (typed_some _ _ _ Htk), (typed_some _ _ _ Hts).
  pose proof Htn as Hu. apply typed_false in Hu. rewrite Hu.
  cbn [negb]. rewrite Hts, Htk. fold scalar. unfold result.
  destruct (type_base tsrc); destruct scalar; cbn;
    eexists; (split; [reflexivity |]);
    rewrite ?type_of__ne, ?type_of_set_sym_type_same;
    (split; [first [reflexivity | assumption] |]);
    intros y Hy; rewrite ?type_of__ne;
    rewrite ?type_of_set_sym_type_other by congruence; reflexivity.
Qed.

(** For a member access that has no type yet, over an operand whose type
    is, behind any typedefs, a struct: inference succeeds exactly when the
    struct has a field of that name; the node then gets the type of the
    first such field and the member name is marked virtual. Otherwise it
    returns [-EINVAL], the node stays untyped and the name unmarked. *)
Theorem struct_dot_type_infer_member
        (st : state) (sou : node) (ns ys : sym_id) (ts : type)
        (nm : string) (fs : list tfield)
        (id mid : node_id) (l ml : Z) (f : string) (i : bool)
        (ms : option sym_id) (md : string) :
  node_sym sou = Some ys -> type_of st ys = Some ts ->
  type_base ts = Tstruct nm fs -> type_of st ns = None ->
  let member := Str mid ml ms md in
  exists st',
    struct_dot_type_infer (Expr id l (Some ns) f i [sou; member]) st
    = Returned (match tfields_get fs md with
                | Some _ => 0
                | None => - EINVAL
                end) st'
    /\ type_of st' ns = option_map snd (tfields_get fs md)
    /\ (virt st' mid = match tfields_get fs md with
                        | Some _ => true
                        | None => virt st mid
                        end)
    /\ (In md (map fst fs) <-> tfields_get fs md <> None).
Proof.
  intros Hs Hts Hb Hn member.
  unfold struct_dot_type_infer, arg.
  cbn [member node_sym node_args nth_error string_data].
  pose proof Hn as Hu. apply typed_false in Hu.
  rewrite Hu, Hs, Hts, Hb.
  assert (Hin : In md (map fst fs) <-> tfields_get fs md <> None).
  { clear. induction fs as [| [n0 t0] fs IH]; simpl.
    - split; [contradiction | congruence].
    - destruct (String.eqb_spec n0 md) as [-> | Hne].
      + split; [discriminate | now left].
      + rewrite <- IH. split; [intros [H | H]; [congruence | exact H] |].
        now right. }
  destruct (tfields_get fs md) as [ft |]; eexists;
    (split; [reflexivity |]).
  - rewrite type_of_set_sym_type_same. repeat split; auto.
    + simpl. unfold upd. now rewrite Nat.eqb_refl.
    + apply Hin.
    + apply Hin.
  - rewrite type_of__ne. repeat split; auto; apply Hin.
Qed.

(** ** The shape of the comparison [strcmp_emit] emits *)

(** Every jump of the entry goes to [l]. *)
Definition jumps_only_to (l : Z) (v : vinsn) : Prop :=
  match v with
  | VI_INSN (JMP_IMM _ _ l') _ _ => l' = l
  | _ => True
  end.

Lemma strcmp_code_jumps (len : nat) :
  forall dst a b blit done,
    Forall (jumps_only_to done) (strcmp_code len dst a b blit done).
Proof.
  induction len as [| len IH]; intros dst a b blit done; simpl.
  - constructor.
  - constructor; [exact I |].
    destruct blit as [l |]; simpl.
    + constructor; [exact I |].
      destruct len; [constructor |].
      destruct (deref_char l =? 0); [constructor |].
      constructor; [reflexivity | apply IH].
    + constructor; [exact I |]. constructor; [exact I |].
      destruct len; [constructor |].
      constructor; [reflexivity |]. constructor; [reflexivity | apply IH].
Qed.

Lemma strcmp_code_length (len : nat) :
  forall dst a b blit done,
    (List.length (strcmp_code len dst a b blit done) <= 5 * len)%nat.
Proof.
  induction len as [| len IH]; intros dst a b blit done; [simpl; lia |].
  destruct len as [| len'].
  - destruct blit; simpl; lia.
  - destruct blit as [l |].
    + rewrite strcmp_code_lit_step. cbn [List.length].
      destruct (deref_char l =? 0); cbn [List.length]; [lia |].
      specialize (IH dst (a + 1) (b + 1) (Some (next_char l)) done). lia.
    + rewrite strcmp_code_mem_step. cbn [List.length].
      specialize (IH dst (a + 1) (b + 1) None done). lia.
Qed.

Lemma deref_char_empty : deref_char EmptyString = 0.
Proof. reflexivity. Qed.

(** Against a literal the unrolling stops at the literal's end at the
    latest: at most three entries per character and for the NUL. *)
Lemma strcmp_code_literal_length (len : nat) :
  forall dst a b l done,
    (List.length (strcmp_code len dst a b (Some l) done)
     <= 3 * (String.length l + 1))%nat.
Proof.
  induction len as [| len IH]; intros dst a b l done; [simpl; lia |].
  destruct len as [| len'].
  - simpl. lia.
  - rewrite strcmp_code_lit_step. cbn [List.length].
    destruct l as [| c rest].
    + rewrite deref_char_empty. simpl. lia.
    + destruct (deref_char (String c rest) =? 0); cbn [List.length];
        [simpl; lia |].
      specialize (IH dst (a + 1) (b + 1) rest done).
      cbn [next_char String.length]. lia.
Qed.

(** Against a literal the storage of the second operand is never
    addressed. *)
Lemma strcmp_code_literal_ignores_b (len : nat) :
  forall dst a b b' l done,
    strcmp_code len dst a b (Some l) done
    = strcmp_code len dst a b' (Some l) done.
Proof.
  induction len as [| len IH]; intros dst a b b' l done; [reflexivity |].
  destruct len as [| len']; [reflexivity |].
  rewrite !strcmp_code_lit_step.
  destruct (deref_char l =? 0); [reflexivity |].
  now rewrite (IH dst (a + 1) (b + 1) (b' + 1)).
Qed.

(** [strcmp_emit] appends straight-line code closed by one fresh label:
    the only label is the last entry, every jump goes forward to it, the
    label counter moves on, and there are at most five entries per compared
    byte. With a literal the second operand's storage is not addressed and
    the code has at most three entries per character of the literal and
    its NUL, however long the operands are. *)
Theorem strcmp_emit_straight_line (st : state) (dst a b : Z)
        (blit : option string) (len : Z) :
  let done := next_label (ir st) in
  let st' := strcmp_emit st dst a b blit len in
  exists code,
    vi (ir st') = (vi (ir st) ++ code ++ [VI_LABEL done])%list
    /\ Forall not_label code
    /\ Forall (jumps_only_to done) code
    /\ next_label (ir st') = done - 1
    /\ (List.length code <= 5 * Z.to_nat (usize len))%nat
    /\ match blit with
       | None => True
       | Some l =>
           (List.length code <= 3 * (String.length l + 1))%nat
           /\ forall b',
               vi (ir (strcmp_emit st dst a b' blit len)) = vi (ir st')
       end.
Proof.
  intros done st'.
  exists (strcmp_code (Z.to_nat (usize len)) dst a b blit done).
  destruct (strcmp_emit_code st dst a b blit len) as [E _].
  split; [exact E |].
  split; [apply strcmp_code_no_label |].
  split; [apply strcmp_code_jumps |].
  split.
  { unfold st', strcmp_emit, ir_alloc_label.
    match goal with
    | |- context [strcmp_emit_loop ?k ?d ?x ?y ?bl ?dn ?s] =>
        destruct (strcmp_emit_loop_code k d x y bl dn s)
          as [_ (_ & _ & _ & _ & L & _)]
    end.
    unfold ir_emit_label, emit. cbn [ir set_ir next_label].
    rewrite L. reflexivity. }
  split; [apply strcmp_code_length |].
  destruct blit as [l |]; [| exact I].
  split; [apply strcmp_code_literal_length |].
  intros b'. unfold st'.
  destruct (strcmp_emit_code st dst a b' (Some l) len) as [E' _].
  rewrite E', E. fold done.
  now rewrite (strcmp_code_literal_ignores_b _ dst a b' b l done).
Qed.

(** ** Code generation of [( *p ).m] reads the member only *)

(** The walk over the arguments of a node, in list order. *)
Fixpoint ir_walk_args (up : node) (args : list node) (st : state) : outcome :=
  match args with
  | [] => Returned 0 st
  | a :: args' => and_then (ir_walk (Some up) a st) (ir_walk_args up args')
  end.

Lemma and_then_ext (o : outcome) (k k' : state -> outcome) :
  (forall st, k st = k' st) -> and_then o k = and_then o k'.
Proof.
  intros H. destruct o as [rc st | |]; simpl; try reflexivity.
  destruct (rc =? 0); [apply H | reflexivity].
Qed.

Lemma ir_walk_expr (up : option node) (id : node_id) (l : Z)
      (s : option sym_id) (f : string) (i : bool) (args0 : list node)
      (st : state) :
  ir_walk up (Expr id l s f i args0) st
  = and_then
      (run_ir_hook (hook_of f ir_pre) up (Expr id l s f i args0) st)
      (fun st =>
         and_then (ir_walk_args (Expr id l s f i args0) args0 st)
                  (run_ir_hook (hook_of f ir_post) up
                               (Expr id l s f i args0))).
Proof.
  cbn [ir_walk]. unfold run_ir_hook.
  apply and_then_ext. intros st1.
  assert (E : forall a st2,
             (fix walk_args (args : list node) (st : state) : outcome :=
                match args with
                | [] => Returned 0 st
                | a :: args' =>
                    and_then (ir_walk (Some (Expr id l s f i args0)) a st)
                             (walk_args args')
                end) a st2
             = ir_walk_args (Expr id l s f i args0) a st2).
  { induction a as [| x a IH]; intros st2; [reflexivity |].
    cbn [ir_walk_args]. apply and_then_ext. exact IH. }
  rewrite E. reflexivity.
Qed.

Lemma func_get_dot : func_get "." = Some struct_dot_func.
Proof. reflexivity. Qed.

Lemma func_get_deref : func_get "u*" = Some deref_func.
Proof. reflexivity. Qed.

(** A node the walk passes without any hook of this file: a literal, or an
    expression without arguments whose operator is not one of the
    built-ins above (an identifier). *)
Definition plain_leaf (n : node) : Prop :=
  match n with
  | Expr _ _ _ f _ args => args = [] /\ func_get f = None
  | _ => True
  end.

Lemma ir_walk_plain_leaf (up : option node) (n : node) (st : state) :
  plain_leaf n -> ir_walk up n st = Returned 0 st.
Proof.
  destruct n as [id l s f i args | |]; simpl; try reflexivity.
  intros [-> H]. unfold hook_of. rewrite H. reflexivity.
Qed.

Lemma irs_hint_stack_on_other (st : state) (a y : sym_id) :
  a <> y -> irs (syms (hint_stack_on st a) y) = irs (syms st y).
Proof.
  intros H. unfold hint_stack_on, set_sym_irs, upd. simpl.
  apply Nat.eqb_neq in H. now rewrite H.
Qed.

Lemma irs_ir_init_sym_other (st : state) (a y : sym_id) :
  a <> y -> irs (syms (ir_init_sym st a) y) = irs (syms st y).
Proof.
  intros H. unfold ir_init_sym, set_sym_irs, upd. simpl.
  apply Nat.eqb_neq in H. now rewrite H.
Qed.

Lemma irs_hint_dot_on_same (st : state) (y : sym_id) :
  irs (syms (hint_dot_on st y) y) = set_irs_hint_dot (irs (syms st y)) true.
Proof.
  unfold hint_dot_on, set_sym_irs, upd. simpl. now rewrite Nat.eqb_refl.
Qed.

Lemma type_of_hint_on (st : state) (a y : sym_id) :
  type_of (hint_stack_on st a) y = type_of st y
  /\ type_of (hint_dot_on st a) y = type_of st y
  /\ type_of (ir_init_sym st a) y = type_of st y.
Proof.
  unfold type_of, hint_stack_on, hint_dot_on, ir_init_sym, set_sym_irs, upd.
  simpl. destruct (Nat.eqb_spec a y) as [-> | _]; auto.
Qed.

(** The walk over [( *p ).m], for an operand [p] that is an identifier or
    a literal and a dereference that is not loaded yet: the member access
    asks the dereference not to load, the dereference emits nothing and
    stays without storage, and the member access emits one bounds-checked
    read of the member alone, from the pointer plus the member's offset
    into its own storage. *)
Theorem dot_of_deref_reads_member_only
        (up : option node) (st : state) (p : node)
        (yp yd ns : sym_id) (td : type)
        (id did mid : node_id) (l dl ml : Z) (i di : bool)
        (ms : option sym_id) (md : string) :
  plain_leaf p -> node_sym p = Some yp ->
  type_of st yd = Some td ->
  0 <= type_offsetof (type_base td) md ->
  loc (irs (syms st yd)) = LOC_NONE -> yd <> ns ->
  let deref := Expr did dl (Some yd) "u*" di [p] in
  let dot := Expr id l (Some ns) "." i [deref; Str mid ml ms md] in
  let st1 := ir_init_sym (hint_stack_on (hint_dot_on st yd) ns) ns in
  exists st',
    ir_walk up dot st = Returned 0 st'
    /\ syms st' = syms st1
    /\ loc (irs (syms st' yd)) = LOC_NONE
    /\ vi (ir st') =
       (vi (ir st1)
        ++ [ VI_SYM_TO_REG BPF_REG_3 yp (irs (syms st1 yp));
             VI_INSN (ALU64_IMM BPF_ADD (type_offsetof (type_base td) md))
                     BPF_REG_3 0;
             VI_INSN (MOV_IMM (int32 (size (irs (syms st1 ns)))))
                     BPF_REG_2 0;
             VI_LDBP BPF_REG_1 (stack (irs (syms st1 ns)));
             VI_INSN (CALL BPF_FUNC_probe_read) 0 0 ])%list.
Proof.
  intros Hleaf Hp Htd Hoff Hloc Hne deref dot st1.
  assert (Hne' : ns <> yd) by congruence.
  set (stA := hint_stack_on (hint_dot_on st yd) ns) in *.
  assert (Hdot : hint_dot (hint (irs (syms stA yd))) = true).
  { unfold stA. rewrite irs_hint_stack_on_other by exact Hne'.
    rewrite irs_hint_dot_on_same. reflexivity. }
  assert (Hty : type_of st1 yd = Some td).
  { unfold st1, stA.
    destruct (type_of_hint_on (hint_stack_on (hint_dot_on st yd) ns) ns yd)
      as (_ & _ & ->).
    destruct (type_of_hint_on (hint_dot_on st yd) ns yd) as (-> & _ & _).
    destruct (type_of_hint_on st yd yd) as (_ & -> & _). exact Htd. }
  assert (Hl1 : loc (irs (syms st1 yd)) = LOC_NONE).
  { unfold st1. rewrite irs_ir_init_sym_other by exact Hne'.
    unfold stA. rewrite irs_hint_stack_on_other by exact Hne'.
    rewrite irs_hint_dot_on_same. exact Hloc. }
  subst deref dot.
  eexists. split; [| split; [| split]].
  - rewrite ir_walk_expr.
    unfold hook_of at 1 2. rewrite func_get_dot.
    cbn [struct_dot_func ir_pre ir_post run_ir_hook].
    unfold struct_dot_ir_pre at 1, arg.
    cbn [node_args nth_error node_sym].
    change (node_is (Some (Expr did dl (Some yd) "u*" di [p])) "u*")
      with true.
    cbn [and_then Z.eqb]. fold stA.
    (* the dereference emits nothing *)
    cbn [ir_walk_args]. rewrite ir_walk_expr.
    unfold hook_of at 1 2. rewrite func_get_deref.
    cbn [deref_func ir_pre ir_post run_ir_hook and_then Z.eqb ir_walk_args].
    rewrite (ir_walk_plain_leaf _ p _ Hleaf).
    cbn [and_then Z.eqb].
    unfold deref_ir_post at 1. cbn [run_ir_hook node_sym]. rewrite Hdot.
    cbn [and_then Z.eqb ir_walk].
    (* the member access reads through the pointer *)
    unfold struct_dot_ir_post, arg, struct_dot_probe_read.
    cbn [run_ir_hook node_args nth_error node_sym string_data].
    fold st1. rewrite Hty.
    destruct (Z.ltb_spec (type_offsetof (type_base td) md) 0) as [L | _];
      [lia |].
    rewrite Hl1. cbn [irloc_eqb]. rewrite Hp.
    reflexivity.
  - reflexivity.
  - exact Hl1.
  - unfold ir_emit_insn, ir_emit_ldbp, ir_emit_sym_to_reg.
    rewrite !emit_vi, !syms_emit. rewrite <- !app_assoc. reflexivity.
Qed.

(** ** A struct literal is built in place *)

(** Storage of an argument that [struct_ir_pre] has placed inside the
    struct: kept on the stack, at the address of its field. *)
Definition placed_at (i : irstate) (addr : Z) : irstate :=
  set_irs_stack (set_irs_hint_stack i true) addr.

(** [if (!arg->sym->irs.loc)]: only an argument without storage is
    placed. *)
Definition place_arg (i : irstate) (addr : Z) : irstate :=
  if irloc_eqb (loc i) LOC_NONE then placed_at i addr else i.

Lemma map_combine_pointwise {A B C : Type} (g : A * B -> C) (h : B -> C) :
  forall (fs : list A) (ys : list B),
    List.length ys = List.length fs ->
    (forall i f y,
        nth_error fs i = Some f -> nth_error ys i = Some y ->
        g (f, y) = h y) ->
    map g (combine fs ys) = map h ys.
Proof.
  induction fs as [| f fs IH]; intros [| y ys] Hlen H; try discriminate.
  - reflexivity.
  - simpl. f_equal.
    + apply (H 0%nat); reflexivity.
    + apply IH; [now injection Hlen |].
      intros i f' y' Hf Hy. apply (H (S i)); assumption.
Qed.

Lemma struct_ir_pre_loop_places (t : type) (stk : Z) (fs : list tfield) :
  forall (ys : list sym_id) (args : list node) (offset size : Z)
         (st : state),
    map node_sym args = map Some ys ->
    List.length ys = List.length fs -> NoDup ys ->
    exists offset' size' st' zs,
      struct_ir_pre_loop t stk fs args offset size st
      = Some (offset', size', st')
      /\ vi (ir st') = (vi (ir st) ++ zs)%list /\ Forall is_bzero zs
      /\ (forall y, ~ In y ys -> irs (syms st' y) = irs (syms st y))
      /\ (forall i f y,
             nth_error fs i = Some f -> nth_error ys i = Some y ->
             irs (syms st' y)
             = place_arg (irs (syms st y))
                         (ssize (stk + usize (type_offsetof t (fst f))))).
Proof.
  induction fs as [| f fs IH]; intros ys args offset size st Hm Hlen Hnd.
  - exists offset, size, st, []. simpl. rewrite app_nil_r.
    repeat split; auto.
    intros [| i] f y Hf; discriminate Hf.
  - destruct ys as [| y ys]; [discriminate |].
    destruct args as [| a args]; [discriminate |].
    simpl in Hm. injection Hm as Hy Hm. simpl in Hlen. injection Hlen as Hlen.
    apply NoDup_cons_iff in Hnd. destruct Hnd as [Hny Hnd].
    cbn [struct_ir_pre_loop]. rewrite Hy.
    set (addr := ssize (stk + usize (type_offsetof t (fst f)))).
    match goal with
    | |- context [if irloc_eqb ?l LOC_NONE then ?x else st] =>
        set (st1 := if irloc_eqb l LOC_NONE then x else st)
    end.
    assert (A1 : vi (ir st1) = vi (ir st))
      by (unfold st1; destruct (irloc_eqb _ _); reflexivity).
    assert (A2 : forall y', y' <> y ->
                            irs (syms st1 y') = irs (syms st y')).
    { intros y' Hne. unfold st1. destruct (irloc_eqb _ _); [| reflexivity].
      unfold hint_stack_on, set_sym_irs, upd. simpl.
      destruct (Nat.eqb_spec y y') as [E | _]; [now elim Hne | reflexivity]. }
    assert (A3 : irs (syms st1 y) = place_arg (irs (syms st y)) addr).
    { unfold st1, place_arg. destruct (irloc_eqb _ _); [| reflexivity].
      unfold hint_stack_on, set_sym_irs, upd. simpl.
      rewrite !Nat.eqb_refl. reflexivity. }
    clearbody st1.
    assert (Hstep :
              forall st2 zs0,
                vi (ir st2) = (vi (ir st1) ++ zs0)%list ->
                Forall is_bzero zs0 -> syms st2 = syms st1 ->
                exists offset' size' st' zs,
                  struct_ir_pre_loop t stk fs args
                    (usize (type_offsetof t (fst f)))
                    (usize (type_sizeof (Some (snd f)))) st2
                  = Some (offset', size', st')
                  /\ vi (ir st') = (vi (ir st) ++ zs)%list
                  /\ Forall is_bzero zs
                  /\ (forall y0, ~ In y0 (y :: ys) ->
                                 irs (syms st' y0) = irs (syms st y0))
                  /\ (forall i f0 y0,
                         nth_error (f :: fs) i = Some f0 ->
                         nth_error (y :: ys) i = Some y0 ->
                         irs (syms st' y0)
                         = place_arg (irs (syms st y0))
                             (ssize
                                (stk + usize (type_offsetof t (fst f0)))))).
    { intros st2 zs0 V Z S.
      destruct (IH ys args (usize (type_offsetof t (fst f)))
                   (usize (type_sizeof (Some (snd f)))) st2 Hm Hlen Hnd)
        as (o' & s' & st' & zs & E & V' & Z' & U & P).
      exists o', s', st', (zs0 ++ zs)%list.
      split; [exact E |]. split; [| split; [| split]].
      - rewrite V', V, A1. now rewrite app_assoc.
      - apply Forall_app. now split.
      - intros y0 Hn. rewrite U by (intros H; apply Hn; now right).
        rewrite S. apply A2. intros ->. apply Hn. now left.
      - intros [| i] f0 y0 Hf Hy0; simpl in Hf, Hy0.
        + injection Hf as <-. injection Hy0 as <-.
          rewrite U by exact Hny. rewrite S. exact A3.
        + rewrite (P i f0 y0 Hf Hy0). rewrite S.
          rewrite A2; [reflexivity |].
          intros ->. apply Hny. eapply nth_error_In. exact Hy0. }
    destruct args as [| a1 args].
    + apply (Hstep st1 []); [now rewrite app_nil_r | constructor | reflexivity].
    + destruct fs as [| f1 fs]; [destruct ys; discriminate |].
      match goal with
      | |- context [if ?p =? 0 then st1 else ir_emit_bzero st1 ?o ?p] =>
          destruct (p =? 0);
          [ apply (Hstep st1 []);
            [now rewrite app_nil_r | constructor | reflexivity]
          | apply (Hstep (ir_emit_bzero st1 o p) [VI_BZERO o p]);
            [reflexivity | repeat constructor | reflexivity] ]
      end.
Qed.

Lemma struct_ir_post_loop_stores (t : type) (stk : Z) (fs : list tfield) :
  forall (ys : list sym_id) (args : list node) (st : state),
    map node_sym args = map Some ys ->
    List.length ys = List.length fs ->
    exists st',
      struct_ir_post_loop t stk fs args st = Some st'
      /\ syms st' = syms st
      /\ vi (ir st')
         = (vi (ir st)
            ++ map (fun fy : tfield * sym_id =>
                      VI_SYM_TO_STACK
                        (ssize (stk + usize (type_offsetof t (fst (fst fy)))))
                        (snd fy) (irs (syms st (snd fy))))
                   (combine fs ys))%list.
Proof.
  induction fs as [| f fs IH]; intros ys args st Hm Hlen.
  - exists st. simpl. rewrite app_nil_r. auto.
  - destruct ys as [| y ys]; [discriminate |].
    destruct args as [| a args]; [discriminate |].
    simpl in Hm. injection Hm as Hy Hm. simpl in Hlen. injection Hlen as Hlen.
    cbn [struct_ir_post_loop]. rewrite Hy.
    match goal with
    | |- context [struct_ir_post_loop _ _ _ _ ?s] =>
        destruct (IH ys args s Hm Hlen) as (st' & E & S & V)
    end.
    exists st'. split; [exact E |]. split; [exact S |].
    rewrite V. unfold ir_emit_sym_to_stack. rewrite emit_vi, syms_emit.
    rewrite <- app_assoc. reflexivity.
Qed.

(** Code generation of a struct literal whose arguments have pairwise
    distinct symbols, other than the literal's own, and no storage yet.
    Run back to back, the pre-order hook places the argument of every field
    on the stack at the literal's address plus the offset of that field,
    and the post-order hook then stores every argument, in order, at the
    address the argument itself has: the fields are built inside the
    struct. Apart from these stores only zero-fills are emitted. *)
Theorem struct_literal_built_in_place
        (n : node) (st : state) (ns : sym_id) (tn : type) (nm : string)
        (fs : list tfield) (ys : list sym_id) :
  node_sym n = Some ns -> type_of st ns = Some tn ->
  type_base tn = Tstruct nm fs ->
  map node_sym (node_args n) = map Some ys ->
  List.length ys = List.length fs ->
  NoDup ys -> ~ In ns ys ->
  Forall (fun y => loc (irs (syms st y)) = LOC_NONE) ys ->
  let st1 := ir_init_sym (hint_stack_on st ns) ns in
  let base := stack (irs (syms st1 ns)) in
  exists st' zs,
    and_then (struct_ir_pre n st) (struct_ir_post n) = Returned 0 st'
    /\ stack (irs (syms st' ns)) = base
    /\ (forall i f y,
           nth_error fs i = Some f -> nth_error ys i = Some y ->
           irs (syms st' y)
           = placed_at (irs (syms st y))
               (ssize (base + usize (type_offsetof (type_base tn) (fst f)))))
    /\ Forall is_bzero zs
    /\ vi (ir st')
       = (vi (ir st1) ++ zs
          ++ map (fun y =>
                    VI_SYM_TO_STACK (stack (irs (syms st' y))) y
                                    (irs (syms st' y))) ys)%list.
Proof.
  intros Hn Ht Hbase Hm Hlen Hnd Hns Hloc st1 base.
  assert (Hst1 : forall y, In y ys -> irs (syms st1 y) = irs (syms st y)).
  { intros y Hy. assert (ns <> y) by (intros ->; contradiction).
    unfold st1. rewrite irs_ir_init_sym_other by assumption.
    now rewrite irs_hint_stack_on_other. }
  destruct (struct_ir_pre_loop_places (type_base tn) base fs ys (node_args n)
              0 0 st1 Hm Hlen Hnd)
    as (o' & s' & stA & zs & E & V & Z & U & P).
  pose proof (same_types_struct_ir_pre_loop _ _ _ _ _ _ st st1 _
                ltac:(unfold_emitters; repeat types_step) E)
    as (_ & _ & _ & T).
  cbn [snd] in T.
  set (pad := usize (type_sizeof (Some (type_base tn)) - (o' + s'))).
  set (stB := if pad =? 0 then stA
              else ir_emit_bzero stA (ssize (base + o' + s')) pad).
  assert (SB : syms stB = syms stA)
    by (unfold stB; destruct (pad =? 0); reflexivity).
  assert (VB : exists zs', vi (ir stB) = (vi (ir st1) ++ zs')%list
                           /\ Forall is_bzero zs').
  { unfold stB. destruct (pad =? 0).
    - exists zs. now split.
    - eexists (zs ++ [_])%list. unfold ir_emit_bzero.
      rewrite emit_vi, V, <- app_assoc. split; [reflexivity |].
      apply Forall_app. split; [exact Z | repeat constructor]. }
  destruct VB as (zs' & VB & ZB).
  assert (TB : type_of stB ns = Some tn).
  { unfold type_of. rewrite SB. fold (type_of stA ns). now rewrite T. }
  assert (KB : stack (irs (syms stB ns)) = base).
  { rewrite SB, U by exact Hns. reflexivity. }
  destruct (struct_ir_post_loop_stores (type_base tn) base fs ys (node_args n)
              stB Hm Hlen)
    as (st' & E' & S' & V').
  assert (PB : forall i f y,
             nth_error fs i = Some f -> nth_error ys i = Some y ->
             irs (syms stB y)
             = placed_at (irs (syms st y))
                 (ssize
                    (base + usize (type_offsetof (type_base tn) (fst f))))).
  { intros i f y Hf Hy. rewrite SB, (P i f y Hf Hy).
    assert (Hin : In y ys) by (eapply nth_error_In; exact Hy).
    rewrite (Hst1 y Hin). unfold place_arg.
    rewrite Forall_forall in Hloc. now rewrite (Hloc y Hin). }
  exists st', zs'.
  split; [| split; [| split; [| split]]].
  - unfold struct_ir_pre. rewrite Hn, Ht, Hbase. cbn [sou_fields].
    fold st1. fold base. rewrite <- Hbase. rewrite E.
    fold pad. fold stB. cbn [and_then Z.eqb].
    unfold struct_ir_post. rewrite Hn, TB, KB, Hbase. cbn [sou_fields].
    rewrite <- Hbase, E'. reflexivity.
  - rewrite S'. exact KB.
  - intros i f y Hf Hy. rewrite S'. eapply PB; eassumption.
  - exact ZB.
  - rewrite V', VB, <- app_assoc. f_equal. f_equal. rewrite S'.
    apply map_combine_pointwise; [exact Hlen |].
    intros i f y Hf Hy. cbn [fst snd].
    rewrite (PB i f y Hf Hy). reflexivity.
Qed.

End BuiltIn.

(** * Concrete graphs *)

Definition irs0 : irstate :=
  mk_irstate LOC_NONE 0 0 0 (mk_irhint false false false).

Definition ir0 : ir_t := mk_ir [] (-1) 0.

(** A symbol store given by the list of its first symbols. *)
Definition syms_of (l : list sym) : sym_id -> sym :=
  fun i => nth i l (mk_sym None irs0).

Definition state_of (l : list sym) : state :=
  mk_state (syms_of l) [] (fun _ => false) [] ir0.

(** An untyped symbol, and a typed symbol without storage. *)
Definition untyped : sym := mk_sym None irs0.
Definition typed_as (t : type) : sym := mk_sym (Some t) irs0.

(** A typed symbol stored on the stack at [off]. *)
Definition on_stack (t : type) (off : Z) : sym :=
  mk_sym (Some t)
         (mk_irstate LOC_STACK (type_sizeof_t t) off 0
                     (mk_irhint true false false)).

(** An identifier node. *)
Definition ident (id : node_id) (nm : string) (s : sym_id) : node :=
  Expr id 0 (Some s) nm true [].

Definition t_u64 : type := Tscalar "u64" 8 false.
Definition t_string8 : type := Tarray t_char 8.

(** A [strcmp] whose first operand lives in a register: the assertion
    fails. *)
Lemma strcmp_ir_post_asserts_stack_operands_witness :
  strcmp_ir_post stack_only_init_irs true
    (Expr 10%nat 0 (Some 0%nat) "strcmp" false
          [Expr 11%nat 0 (Some 1%nat) "x" true [];
           Expr 12%nat 0 (Some 2%nat) "y" true []])
    (mk_state
       (fun _ => mk_sym (Some (Tarray t_char 8))
                        (mk_irstate LOC_REG 8 0 6 (mk_irhint false false false)))
       [] (fun _ => false) [] (mk_ir [] (-1) 0))
  = Aborted
      (mk_state
         (fun _ => mk_sym (Some (Tarray t_char 8))
                          (mk_irstate LOC_REG 8 0 6 (mk_irhint false false false)))
         [] (fun _ => false) [] (mk_ir [] (-1) 0)).
Proof.
  apply (strcmp_ir_post_asserts_stack_operands
           stack_only_init_irs true
           10%nat 0 (Some 0%nat) "strcmp" false
           (Expr 11%nat 0 (Some 1%nat) "x" true [])
           (Expr 12%nat 0 (Some 2%nat) "y" true []) [] _ 1%nat 2%nat).
  - reflexivity.
  - reflexivity.
  - left. reflexivity.
Defined.

(** ** [strcmp] typing *)

(** [strcmp(x, y)] with [x] a 64-bit integer and [y] a string. *)
Definition strcmp_int_string : node :=
  Expr 100%nat 0 (Some 0%nat) "strcmp" false
       [ident 101%nat "x" 1%nat; ident 102%nat "y" 2%nat].

(** C2, counterexample. An operand that is not a string (and not a
    literal) does not make type inference fail: the hook returns 0, types
    the node as [t_int], and reports a warning only. *)
Lemma strcmp_type_infer_accepts_non_string :
  string_type t_u64 = false
  /\ exists st',
      strcmp_type_infer string_type strcmp_int_string
                        (state_of [untyped; typed_as t_u64; typed_as t_string8])
      = Returned 0 st'
      /\ type_of st' 0%nat = Some t_int
      /\ diags st' =
         [mk_diag Warning 100%nat
                  "'%N' is of type '%T', a string was expected."].
Proof.
  split; [reflexivity |].
  eexists. split; [reflexivity |]. split; reflexivity.
Qed.

Lemma strcmp_type_infer_types_int_witness :
  exists st',
    strcmp_type_infer string_type strcmp_int_string
                      (state_of [untyped; typed_as t_string8; typed_as t_string8])
    = Returned 0 st'
    /\ type_of st' 0%nat = Some t_int.
Proof.
  destruct (strcmp_type_infer_types_int
              string_type strcmp_int_string
              (ident 101%nat "x" 1%nat) (ident 102%nat "y" 2%nat)
              (state_of [untyped; typed_as t_string8; typed_as t_string8])
              0%nat 1%nat 2%nat t_string8 t_string8
              eq_refl eq_refl eq_refl eq_refl eq_refl eq_refl eq_refl eq_refl)
    as (st' & H1 & H2 & _).
  exists st'. split; assumption.
Defined.

(** ** Type inference on typed nodes *)

(** The subscript [m[k]] with symbols 0 (the node), 1 ([m]) and 2 ([k]). *)
Definition subscript_m_k : node :=
  Expr 200%nat 0 (Some 0%nat) "[]" false
       [ident 201%nat "m" 1%nat; ident 202%nat "k" 2%nat].

(** C1, counterexample. The symbol of the subscript node is already typed,
    yet its type inference hook mutates the graph: it builds a map type and
    changes the type of the symbol of [m]. *)
Lemma subscript_type_infer_mutates_typed_node :
  type_infer (subscript_func stack_only_init_irs) = Some subscript_type_infer
  /\ typed (state_of [typed_as t_int; untyped; typed_as t_u64]) 0%nat = true
  /\ exists st',
      subscript_type_infer subscript_m_k
                           (state_of [typed_as t_int; untyped; typed_as t_u64])
      = Returned 0 st'
      /\ type_of (state_of [typed_as t_int; untyped; typed_as t_u64]) 1%nat
         = None
      /\ type_of st' 1%nat = Some (Tmap t_u64 t_int BPF_MAP_TYPE_HASH 0).
Proof.
  split; [reflexivity |]. split; [reflexivity |].
  eexists. split; [reflexivity |]. split; reflexivity.
Qed.

(** The assignment [m[k] = x] over a fully typed store. *)
Definition assign_m_k_x : node :=
  Expr 210%nat 0 (Some 3%nat) "=" false
       [subscript_m_k; ident 211%nat "x" 4%nat].

Definition typed_store : state :=
  state_of [typed_as t_int;
            typed_as (Tmap t_u64 t_int BPF_MAP_TYPE_HASH 0);
            typed_as t_u64; typed_as t_void; typed_as t_int].

Lemma type_infer_typed_graph_is_fixed_witness :
  run_hook (type_infer (subscript_func stack_only_init_irs))
           subscript_m_k typed_store
  = Returned 0 typed_store
  /\ type_infer_pass string_type same_size_compatible default_string_size
                     addr_string stack_only_init_irs true
                     assign_m_k_x typed_store
     = Returned 0 typed_store.
Proof.
  destruct (type_infer_typed_graph_is_fixed
              string_type same_size_compatible default_string_size
              addr_string stack_only_init_irs true typed_store)
    as [Hhook Hpass].
  split.
  - apply (Hhook (subscript_func stack_only_init_irs) subscript_m_k 0%nat).
    + simpl. tauto.
    + discriminate.
    + reflexivity.
    + reflexivity.
    + intros _. reflexivity.
  - apply Hpass; reflexivity.
Defined.

(** The struct literal [{x, x}] whose symbol 0 already carries the type
    that an earlier pass synthesized. *)
Definition struct_x_x : node :=
  Expr 220%nat 0 (Some 0%nat) ":struct" false
       [ident 221%nat "x" 1%nat; ident 222%nat "x" 1%nat].

Definition anon_220 : type :=
  Tstruct ":anon_0x220" [("f0", t_int); ("f1", t_int)].

(** [struct_type_infer] has no guard on an already typed node: run again,
    it registers one more type. *)
Lemma struct_type_infer_registers_again :
  exists st',
    struct_type_infer addr_string struct_x_x
                      (mk_state (syms_of [typed_as anon_220; typed_as t_int])
                                [anon_220] (fun _ => false) [] ir0)
    = Returned 0 st'
    /\ types st' = [anon_220; anon_220].
Proof.
  eexists. split; reflexivity.
Qed.

(** ** Map materialization *)

Lemma subscript_type_infer_materializes_map_witness :
  exists st',
    subscript_type_infer subscript_m_k
                         (state_of [typed_as t_int; untyped; typed_as t_u64])
    = Returned 0 st'
    /\ type_of st' 1%nat = Some (Tmap t_u64 t_int BPF_MAP_TYPE_HASH 0).
Proof.
  destruct (subscript_type_infer_materializes_map
              string_type same_size_compatible default_string_size
              addr_string stack_only_init_irs true
              subscript_m_k (ident 201%nat "m" 1%nat)
              (ident 202%nat "k" 2%nat)
              (state_of [typed_as t_int; untyped; typed_as t_u64])
              0%nat 1%nat 2%nat t_int t_u64
              eq_refl eq_refl eq_refl eq_refl eq_refl eq_refl eq_refl eq_refl)
    as (st' & H1 & H2 & _).
  exists st'. split; assumption.
Defined.

(** ** Rewrite of [->] on a compound operand *)

(** [q[0]->len]: the operand of [->] is itself an expression. *)
Definition deref_of_subscript : node :=
  Expr 500%nat 7 None "->" false
       [Expr 501%nat 7 None "[]" false
             [Expr 502%nat 7 None "q" true []; Num 503%nat 8 None 0];
        Str 504%nat 9 None "len"].

(** C7, failing input. The replacement of [q[0]->len] is not [( *q[0] ).len]:
    below the dereference stands an identifier named [[]], and the operand's
    own arguments [q] and [0] are gone. *)
Theorem struct_deref_rewrite_drops_operand :
  exists new,
    struct_deref_rewrite deref_of_subscript 1000%nat
    = Some (1, new, 1004%nat)
    /\ shape_of new
       = SExpr "." false [SExpr "u*" false [SExpr "[]" true []]; SStr "len"]
    /\ shape_of new
       <> deref_dot_shape
            (SExpr "[]" false [SExpr "q" true []; SNum 0]) "len".
Proof.
  eexists. split; [reflexivity |]. split; [reflexivity |]. discriminate.
Qed.

(** ** Code generation of map reads *)

Definition t_map_u64_int : type := Tmap t_u64 t_int BPF_MAP_TYPE_HASH 0.

(** The subscript [m[k]] at address [id] with the symbols [s] (the node),
    [m] and [k]. *)
Definition subscript_at (id : node_id) (s m k : sym_id) : node :=
  Expr id 0 (Some s) "[]" false
       [ident (id + 1)%nat "m" m; ident (id + 2)%nat "k" k].

(** The state an outcome carries ([d] after a crash). *)
Definition state_after (o : outcome) (d : state) : state :=
  match o with
  | Returned _ s | Aborted s => s
  | Crashed => d
  end.

(** The code generation walk with the instances above. *)
Definition walk : option node -> node -> state -> outcome :=
  ir_walk string_type same_size_compatible default_string_size addr_string
          stack_only_init_irs true.

(** Whether the stream calls the helper [f]. *)
Definition calls (f : bpf_func) (p : list vinsn) : bool :=
  existsb (fun v => match v with
                    | VI_INSN (CALL g) _ _ =>
                        match f, g with
                        | BPF_FUNC_probe_read, BPF_FUNC_probe_read
                        | BPF_FUNC_probe_read_str, BPF_FUNC_probe_read_str
                        | BPF_FUNC_map_lookup_elem, BPF_FUNC_map_lookup_elem
                        | BPF_FUNC_map_update_elem, BPF_FUNC_map_update_elem
                        | BPF_FUNC_map_delete_elem, BPF_FUNC_map_delete_elem =>
                            true
                        | _, _ => false
                        end
                    | _ => false
                    end) p.

(** [x[j] = m[k]]: symbols 1, 2, 3 for [x[j]], [x], [j] and 4, 5, 6 for
    [m[k]], [m], [k]; both keys are on the stack. *)
Definition assign_from_map : node :=
  Expr 300%nat 0 (Some 0%nat) "=" false
       [subscript_at 310%nat 1%nat 2%nat 3%nat;
        subscript_at 320%nat 4%nat 5%nat 6%nat].

Definition assign_from_map_state : state :=
  state_of [typed_as t_void; typed_as t_int; typed_as t_map_u64_int;
            on_stack t_u64 (-8); typed_as t_int; typed_as t_map_u64_int;
            on_stack t_u64 (-16)].

(** C4, failing input. In [x[j] = m[k]] the subscript [m[k]] is read, it is
    not the target of the assignment; still its hook emits nothing, because
    its parent is an assignment, and the code generated for the whole
    statement never looks [m] up: the only helper call is the update of
    [x]. *)
Theorem subscript_source_of_assign_not_read :
  arg assign_from_map 1 = Some (subscript_at 320%nat 4%nat 5%nat 6%nat)
  /\ arg assign_from_map 0 <> Some (subscript_at 320%nat 4%nat 5%nat 6%nat)
  /\ (exists st',
         subscript_ir_post stack_only_init_irs (Some assign_from_map)
                           (subscript_at 320%nat 4%nat 5%nat 6%nat)
                           assign_from_map_state
         = Returned 0 st'
         /\ vi (ir st') = [])
  /\ (exists st',
         walk None assign_from_map assign_from_map_state = Returned 0 st'
         /\ calls BPF_FUNC_map_lookup_elem (vi (ir st')) = false
         /\ calls BPF_FUNC_map_update_elem (vi (ir st')) = true).
Proof.
  split; [reflexivity |]. split; [discriminate |]. split.
  - exists (state_after
              (subscript_ir_post stack_only_init_irs (Some assign_from_map)
                                 (subscript_at 320%nat 4%nat 5%nat 6%nat)
                                 assign_from_map_state)
              assign_from_map_state).
    split; vm_compute; reflexivity.
  - exists (state_after (walk None assign_from_map assign_from_map_state)
                        assign_from_map_state).
    split; [| split]; vm_compute; reflexivity.
Qed.

(** [delete m[k]]: symbols 1, 2, 3 for [m[k]], [m], [k]. *)
Definition delete_m_k : node :=
  Expr 400%nat 0 (Some 0%nat) "delete" false
       [subscript_at 410%nat 1%nat 2%nat 3%nat].

Definition delete_state : state :=
  state_of [typed_as t_void; typed_as t_int; typed_as t_map_u64_int;
            on_stack t_u64 (-8)].

(** C8, failing input. The code generated for [delete m[k]] ends with the
    delete call on the key's storage, but before it the subscript operand
    has looked the key up and loaded the map's value (zero-filling on a
    miss): [delete_ir_pre] sets the [lval] hint on the operand, and
    [subscript_ir_post_map] does not consult it. *)
Theorem delete_loads_map_value :
  exists st',
    walk None delete_m_k delete_state = Returned 0 st'
    /\ hint_lval (hint (irs (syms st' 1%nat))) = true
    /\ vi (ir st') =
       (subscript_read_code 2%nat (-8) 1%nat (irs (syms st' 1%nat)) (-1) (-2)
        ++ [ VI_LDMAP BPF_REG_1 2%nat;
             VI_LDBP BPF_REG_2 (-8);
             VI_INSN (CALL BPF_FUNC_map_delete_elem) 0 0 ])%list
    /\ calls BPF_FUNC_map_lookup_elem (vi (ir st')) = true.
Proof.
  exists (state_after (walk None delete_m_k delete_state) delete_state).
  split; [| split; [| split]]; vm_compute; reflexivity.
Qed.

(** ** The comparison emitted for [strcmp] *)

(** [strcmp(x, y)] of two 2-byte strings on the stack, at offsets -2 and
    -4; the result goes to symbol 0. *)
Definition strcmp_x_y : node :=
  Expr 600%nat 0 (Some 0%nat) "strcmp" false
       [ident 601%nat "x" 1%nat; ident 602%nat "y" 2%nat].

Definition strcmp_x_y_state : state :=
  mk_state (syms_of [typed_as t_int; on_stack (Tarray t_char 2) (-2);
                     on_stack (Tarray t_char 2) (-4)])
           [] (fun _ => false) [] (mk_ir [] (-1) (-4)).

(** A frame in which [x] holds the bytes 0, 1 and [y] the bytes 0, 2. *)
Definition frame_nul_1_nul_2 : machine :=
  mk_machine (fun _ => 7)
             (fun o => if o =? -1 then 1 else if o =? -3 then 2 else 0).

(** The comparison of the two operands, with the result in r0. *)
Definition strcmp_x_y_code : list vinsn :=
  strcmp_body true 2 BPF_REG_0 (-2) (-4) None (-1) false.

(** C3, counterexample. Two byte sequences of equal length that differ
    after a NUL compare equal: the emitted code leaves 0 in the result
    register (which held 7). *)
Lemma strcmp_zero_on_different_bytes :
  frame_bytes (stk frame_nul_1_nul_2) (-2) 2 = [0; 1]
  /\ frame_bytes (stk frame_nul_1_nul_2) (-4) 2 = [0; 2]
  /\ exists st' i,
      strcmp_ir_post stack_only_init_irs true strcmp_x_y strcmp_x_y_state
      = Returned 0 st'
      /\ vi (ir st')
         = (strcmp_x_y_code ++ [VI_REG_TO_SYM 0%nat i BPF_REG_0])%list
      /\ exists m',
          run strcmp_x_y_code None frame_nul_1_nul_2 = Some m'
          /\ regs m' BPF_REG_0 = 0.
Proof.
  split; [reflexivity |]. split; [reflexivity |].
  exists (state_after
            (strcmp_ir_post stack_only_init_irs true strcmp_x_y
                            strcmp_x_y_state) strcmp_x_y_state).
  exists (mk_irstate LOC_STACK 4 (-8) 0 (mk_irhint false false false)).
  split; [vm_compute; reflexivity |].
  split; [vm_compute; reflexivity |].
  exists (match run strcmp_x_y_code None frame_nul_1_nul_2 with
          | Some m => m
          | None => frame_nul_1_nul_2
          end).
  split; vm_compute; reflexivity.
Qed.

(** [strcmp("abd", x)]: the literal comes first, so the operands are
    swapped. *)
Definition strcmp_lit_x : node :=
  Expr 610%nat 0 (Some 0%nat) "strcmp" false
       [Str 611%nat 0 (Some 2%nat) "abd"; ident 612%nat "x" 1%nat].

Definition strcmp_lit_x_state : state :=
  state_of [typed_as t_int; on_stack (Tarray t_char 4) (-4);
            typed_as (Tarray t_char 4)].

Lemma strcmp_ir_post_compares_witness :
  exists st' body,
    strcmp_ir_post stack_only_init_irs true strcmp_lit_x strcmp_lit_x_state
    = Returned 0 st'
    /\ forall m,
        exists m',
          run body None m = Some m' /\ stk m' = stk m
          /\ strcmp_result
               (literal_bytes "abd" 4)
               (frame_bytes (stk m) (-4) 4)
               (s32 (regs m' BPF_REG_0)).
Proof.
  destruct (strcmp_ir_post_compares
              stack_only_init_irs true
              610%nat 0 "strcmp" false
              (Str 611%nat 0 (Some 2%nat) "abd") (ident 612%nat "x" 1%nat)
              strcmp_lit_x_state 0%nat 2%nat 1%nat
              eq_refl eq_refl eq_refl eq_refl eq_refl)
    as (st' & body & H1 & _ & H3).
  - vm_compute. lia.
  - vm_compute. discriminate.
  - exists st', body. split; [exact H1 |].
    intros m. destruct (H3 m) as (m' & R1 & R2 & R3 & _).
    exists m'. split; [exact R1 |]. split; [exact R2 |]. exact R3.
Defined.

(** ** Padding of a struct literal *)

Definition t_u8 : type := Tscalar "u8" 1 false.
Definition t_u32 : type := Tscalar "u32" 4 false.

(** The literal [{c, w}] of a one-byte and a four-byte value; symbol 0 is
    the literal's, with the type synthesized by [struct_type_infer]. *)
Definition struct_c_w : node :=
  Expr 700%nat 0 (Some 0%nat) ":struct" false
       [ident 701%nat "c" 1%nat; ident 702%nat "w" 2%nat].

Definition anon_700 : type :=
  Tstruct ":anon_0x700" [("f0", t_u8); ("f1", t_u32)].

Definition struct_c_w_state : state :=
  state_of [typed_as anon_700; typed_as t_u8; typed_as t_u32].

(** The synthesized type is the one of the store, it has size 8 with [f1]
    at offset 4, and the literal's code zero-fills the three bytes after
    [f0]. *)
Lemma struct_c_w_layout :
  struct_type_infer addr_string struct_c_w
                    (state_of [untyped; typed_as t_u8; typed_as t_u32])
  = Returned 0 (set_sym_type
                  (type_add (state_of [untyped; typed_as t_u8; typed_as t_u32])
                            anon_700)
                  0%nat (Some anon_700))
  /\ type_sizeof_t anon_700 = 8
  /\ type_offsetof anon_700 "f1" = 4
  /\ exists st',
      struct_ir_pre stack_only_init_irs struct_c_w struct_c_w_state
      = Returned 0 st'
      /\ stack (irs (syms st' 0%nat)) = -8
      /\ vi (ir st') = [VI_BZERO (-7) 3].
Proof.
  split; [reflexivity |]. split; [reflexivity |]. split; [reflexivity |].
  eexists. split; [reflexivity |]. split; reflexivity.
Qed.

Lemma struct_ir_pre_zero_fills_padding_witness :
  exists st' zs,
    struct_ir_pre stack_only_init_irs struct_c_w struct_c_w_state
    = Returned 0 st'
    /\ Forall is_bzero zs
    /\ forall o, covered zs o = true <-> is_padding anon_700 (o - -8).
Proof.
  destruct (struct_ir_pre_zero_fills_padding
              stack_only_init_irs struct_c_w struct_c_w_state 0%nat
              anon_700 ":anon_0x700" [("f0", t_u8); ("f1", t_u32)]
              eq_refl eq_refl eq_refl eq_refl)
    as (st' & zs & H1 & _ & H3 & H4 & _).
  - repeat constructor; simpl; lia.
  - vm_compute. discriminate.
  - vm_compute. split; discriminate.
  - exists st', zs. split; [exact H1 |]. split; [exact H3 |]. exact H4.
Defined.

(** * Further properties on concrete graphs *)

Definition t_pair : type := Tstruct "pair" [("a", t_u32); ("b", t_u64)].


Lemma type_infer_keeps_storage_witness :
  storage_kept
    (state_of [untyped; typed_as t_u64; typed_as t_string8])
    (run_hook (type_infer (strcmp_func string_type stack_only_init_irs true))
              strcmp_int_string
              (state_of [untyped; typed_as t_u64; typed_as t_string8])).
Proof.
  apply (type_infer_keeps_storage
           string_type same_size_compatible default_string_size
           addr_string stack_only_init_irs true).
  unfold built_ins. simpl. left. reflexivity.
Defined.

Lemma codegen_keeps_types_witness :
  types_kept delete_state
             (run_ir_hook (ir_pre delete_func) None delete_m_k delete_state)
  /\ types_kept delete_state
                (run_ir_hook (ir_post delete_func) None delete_m_k
                             delete_state).
Proof.
  apply (codegen_keeps_types
           string_type same_size_compatible default_string_size
           addr_string stack_only_init_irs true).
  unfold built_ins. simpl. do 9 right. left. reflexivity.
Defined.

(** The allocator used on the concrete graphs reserves stack space and
    emits nothing. *)
Lemma stack_only_init_irs_emits_nothing :
  allocator_emits_nothing stack_only_init_irs.
Proof.
  intros i s t. unfold stack_only_init_irs.
  destruct (loc s); try reflexivity.
  destruct (stack s =? 0); reflexivity.
Qed.

Lemma codegen_only_appends_witness :
  appends_only delete_state
    (run_ir_hook (ir_pre (subscript_func stack_only_init_irs)) None
                 (subscript_at 410%nat 1%nat 2%nat 3%nat) delete_state)
  /\ appends_only delete_state
       (run_ir_hook (ir_post (subscript_func stack_only_init_irs)) None
                    (subscript_at 410%nat 1%nat 2%nat 3%nat) delete_state).
Proof.
  apply (codegen_only_appends
           string_type same_size_compatible default_string_size
           addr_string stack_only_init_irs true).
  - exact stack_only_init_irs_emits_nothing.
  - unfold built_ins. simpl. do 6 right. left. reflexivity.
Defined.

(** [m[k] = x] with only [k] and [x] typed. *)
Definition fresh_map_store : state :=
  state_of [untyped; untyped; typed_as t_u64; untyped; typed_as t_int].

Lemma type_infer_pass_keeps_types_witness :
  keeps_type
    (type_infer_pass string_type same_size_compatible default_string_size
                     addr_string stack_only_init_irs true
                     assign_m_k_x fresh_map_store)
    2%nat (Some t_u64).
Proof.
  apply (type_infer_pass_keeps_types
           string_type same_size_compatible default_string_size
           addr_string stack_only_init_irs true
           assign_m_k_x 2%nat t_u64).
  - reflexivity.
  - reflexivity.
Defined.



Lemma assign_then_subscript_types_map_witness :
  exists st',
    and_then (assign_type_infer same_size_compatible assign_m_k_x
                                fresh_map_store)
             (subscript_type_infer subscript_m_k)
    = Returned 0 st'
    /\ type_of st' 3%nat = Some t_void
    /\ type_of st' 0%nat = Some t_int
    /\ type_of st' 1%nat = Some (Tmap t_u64 t_int BPF_MAP_TYPE_HASH 0).
Proof.
  destruct (assign_then_subscript_types_map
              same_size_compatible fresh_map_store
              (ident 201%nat "m" 1%nat) (ident 202%nat "k" 2%nat)
              (ident 211%nat "x" 4%nat)
              3%nat 0%nat 1%nat 2%nat 4%nat t_u64 t_int
              210%nat 200%nat 0 0 "=" "[]" false false
              eq_refl eq_refl eq_refl eq_refl eq_refl eq_refl eq_refl eq_refl
              ltac:(discriminate) ltac:(discriminate) ltac:(discriminate))
    as (st' & H1 & H2 & H3 & H4 & _).
  exists st'. repeat split; assumption.
Defined.

(** [mem(p, 16)] for a pointer [p] to [char]. *)
Definition mem_p_16 : node :=
  Expr 700%nat 0 (Some 0%nat) "mem" false
       [ident 701%nat "p" 1%nat; Num 702%nat 0 (Some 2%nat) 16].

Definition char_pointer_store : state :=
  state_of [untyped; typed_as (Tpointer t_char); typed_as t_int].

Lemma mem_type_infer_result_witness :
  0 = 0
  /\ (exists a ya ta,
         arg mem_p_16 0 = Some a /\ node_sym a = Some ya
         /\ type_of char_pointer_store ya = Some ta
         /\ type_sizeof_t ta <= 8)
  /\ exists id l s v,
      Num 702%nat 0 (Some 2%nat) 16 = Num id l s v
      /\ Tarray t_char 16 = Tarray t_char (usize v)
      /\ 0 <= usize v <= MAX_BPF_STACK
      /\ type_sizeof_t (Tarray t_char 16) = usize v.
Proof.
  exact (mem_type_infer_result
           default_string_size mem_p_16 char_pointer_store
           (state_after (mem_type_infer default_string_size mem_p_16
                                        char_pointer_store)
                        char_pointer_store)
           0 0%nat (Tarray t_char 16)
           eq_refl eq_refl eq_refl eq_refl).
Defined.

(** [a[k]] over an array of four 64-bit integers. *)
Definition array_store : state :=
  state_of [untyped; typed_as (Tarray t_u64 4); typed_as t_u64].

Lemma array_subscript_typed_but_not_compiled_witness :
  exists st',
    subscript_type_infer subscript_m_k array_store = Returned 0 st'
    /\ type_of st' 0%nat = Some t_u64
    /\ ir st' = ir array_store
    /\ subscript_ir_post stack_only_init_irs None subscript_m_k st'
       = Aborted st'.
Proof.
  apply (array_subscript_typed_but_not_compiled
           stack_only_init_irs None subscript_m_k
           (ident 201%nat "m" 1%nat) (ident 202%nat "k" 2%nat)
           array_store 0%nat 1%nat 2%nat (Tarray t_u64 4) t_u64 t_u64
           eq_refl eq_refl eq_refl eq_refl eq_refl eq_refl eq_refl eq_refl
           eq_refl (or_introl (ex_intro _ 4 eq_refl))).
Defined.

(** The literal [{x, y}] before any type was synthesized for it. *)
Definition struct_x_y : node :=
  Expr 220%nat 0 (Some 0%nat) ":struct" false
       [ident 221%nat "x" 1%nat; ident 222%nat "y" 2%nat].

Definition struct_x_y_store : state :=
  state_of [untyped; typed_as t_u32; typed_as t_u64].

Lemma struct_type_infer_synthesizes_witness :
  0 = 0
  /\ (state_after (struct_type_infer addr_string struct_x_y struct_x_y_store)
                  struct_x_y_store
      = struct_x_y_store
      \/ exists ns fs,
          node_sym struct_x_y = Some ns
          /\ state_after
               (struct_type_infer addr_string struct_x_y struct_x_y_store)
               struct_x_y_store
             = set_sym_type
                 (type_add struct_x_y_store
                    (Tstruct (":anon_" ++ addr_string (node_addr struct_x_y))
                             fs))
                 ns
                 (Some
                    (Tstruct (":anon_" ++ addr_string (node_addr struct_x_y))
                             fs))
          /\ List.length fs = node_nargs struct_x_y
          /\ NoDup (map fst fs)
          /\ Forall2 (fun f a =>
                        exists y,
                          node_sym a = Some y
                          /\ type_of struct_x_y_store y = Some (snd f)
                          /\ 0 <= type_sizeof_t (snd f))
                     fs (node_args struct_x_y)).
Proof.
  exact (struct_type_infer_synthesizes
           addr_string struct_x_y struct_x_y_store
           (state_after
              (struct_type_infer addr_string struct_x_y struct_x_y_store)
              struct_x_y_store)
           0 eq_refl).
Defined.

(** [p[s]] for a pointer [p] and a string [s]: the key is not a scalar. *)
Definition pointer_string_store : state :=
  state_of [untyped; typed_as (Tpointer t_int); typed_as t_string8].

Lemma subscript_type_infer_follows_container_witness :
  exists st',
    subscript_type_infer subscript_m_k pointer_string_store
    = Returned (- EINVAL) st'
    /\ type_of st' 0%nat = None
    /\ (forall y, y <> 0%nat ->
                  type_of st' y = type_of pointer_string_store y).
Proof.
  exact (subscript_type_infer_follows_container
           subscript_m_k
           (ident 201%nat "m" 1%nat) (ident 202%nat "k" 2%nat)
           pointer_string_store 0%nat 1%nat 2%nat (Tpointer t_int) t_string8
           eq_refl eq_refl eq_refl eq_refl eq_refl eq_refl eq_refl eq_refl).
Defined.

(** [s.b] for a [pair] [s]. *)
Definition pair_store : state := state_of [untyped; typed_as t_pair].

Lemma struct_dot_type_infer_member_witness :
  exists st',
    struct_dot_type_infer
      (Expr 800%nat 0 (Some 0%nat) "." false
            [ident 801%nat "s" 1%nat; Str 802%nat 0 None "b"])
      pair_store
    = Returned 0 st'
    /\ type_of st' 0%nat = Some t_u64
    /\ virt st' 802%nat = true.
Proof.
  destruct (struct_dot_type_infer_member
              pair_store (ident 801%nat "s" 1%nat) 0%nat 1%nat t_pair
              "pair" [("a", t_u32); ("b", t_u64)]
              800%nat 802%nat 0 0 "." false None "b"
              eq_refl eq_refl eq_refl eq_refl)
    as (st' & H1 & H2 & H3 & _).
  exists st'. split; [exact H1 |]. split; [exact H2 | exact H3].
Defined.

(** [( *p ).b] for a pointer [p] held on the stack: symbol 0 is the member
    access, 1 the dereference, 2 the pointer. *)
Definition deref_dot_store : state :=
  state_of [typed_as t_u64; typed_as t_pair; on_stack (Tpointer t_pair) (-8)].

Lemma dot_of_deref_reads_member_only_witness :
  exists st',
    walk None
         (Expr 900%nat 0 (Some 0%nat) "." false
               [Expr 910%nat 0 (Some 1%nat) "u*" false
                     [ident 901%nat "p" 2%nat];
                Str 902%nat 0 None "b"])
         deref_dot_store
    = Returned 0 st'
    /\ loc (irs (syms st' 1%nat)) = LOC_NONE
    /\ calls BPF_FUNC_probe_read (vi (ir st')) = true.
Proof.
  pose proof (dot_of_deref_reads_member_only
                string_type same_size_compatible default_string_size
                addr_string stack_only_init_irs true
                None deref_dot_store (ident 901%nat "p" 2%nat)
                2%nat 1%nat 0%nat t_pair
                900%nat 910%nat 902%nat 0 0 0 false false None "b"
                (conj eq_refl eq_refl) eq_refl eq_refl
                ltac:(vm_compute; discriminate) eq_refl
                ltac:(discriminate)) as H.
  cbv zeta in H. destruct H as (st' & H1 & _ & H3 & H4).
  exists st'. split; [exact H1 |]. split; [exact H3 |].
  rewrite H4. vm_compute. reflexivity.
Defined.

(** The literal [{x, y}] typed as a struct of a four-byte and an eight-byte
    field, its arguments without storage. *)
Definition t_x_y : type := Tstruct ":anon_0x220" [("f0", t_u32); ("f1", t_u64)].

Definition struct_x_y_typed : state :=
  state_of [typed_as t_x_y; typed_as t_u32; typed_as t_u64].

Lemma struct_literal_built_in_place_witness :
  exists st',
    and_then (struct_ir_pre stack_only_init_irs struct_x_y struct_x_y_typed)
             (struct_ir_post struct_x_y)
    = Returned 0 st'
    /\ stack (irs (syms st' 0%nat)) = -16
    /\ stack (irs (syms st' 1%nat)) = -16
    /\ stack (irs (syms st' 2%nat)) = -8.
Proof.
  pose proof (struct_literal_built_in_place
                stack_only_init_irs struct_x_y struct_x_y_typed 0%nat
                t_x_y ":anon_0x220" [("f0", t_u32); ("f1", t_u64)]
                [1%nat; 2%nat]
                eq_refl eq_refl eq_refl eq_refl eq_refl) as H.
  assert (Hnd : NoDup [1%nat; 2%nat]).
  { constructor; [simpl; intros [E | []]; discriminate E |].
    constructor; [intros [] | constructor]. }
  assert (Hns : ~ In 0%nat [1%nat; 2%nat])
    by (simpl; intros [E | [E | []]]; discriminate E).
  assert (Hloc : Forall (fun y => loc (irs (syms struct_x_y_typed y))
                                  = LOC_NONE) [1%nat; 2%nat])
    by (repeat constructor).
  specialize (H Hnd Hns Hloc). cbv zeta in H.
  destruct H as (st' & zs & H1 & H2 & H3 & _).
  exists st'. split; [exact H1 |]. split; [| split].
  - rewrite H2. vm_compute. reflexivity.
  - rewrite (H3 0%nat ("f0", t_u32) 1%nat eq_refl eq_refl).
    vm_compute. reflexivity.
  - rewrite (H3 1%nat ("f1", t_u64) 2%nat eq_refl eq_refl).
    vm_compute. reflexivity.
Defined.
